(** * Delta-sync ingestion pipeline: a shallow embedding and its properties

    The development follows the Python sources

      - [logic/semantic_chunker.py]   (class [SemanticChunker])
      - [utils/metadata_injector.py]  ([ChunkMetadata], [MetadataInjector])
      - [database/db_manager.py]      (class [DBManager])
      - [logic/sync_engine.py]        (class [SyncEngine])
      - [services/extraction_service.py]
                                      ([_guess_internal_pagination])

    Part I holds the definitions, one module per source class; Part II the
    lemmas and theorems; Part III further properties of the same code. *)

From Stdlib Require Import String Ascii List ZArith Lia Bool Arith Permutation.
From stdpp Require Import gmap strings.
Import ListNotations.
Open Scope list_scope.

(* ===================================================================== *)
(** * Part I: definitions                                                 *)
(* ===================================================================== *)

(** ** Python [str] and the [re] patterns the sources use

    A Python [str] is the sequence of its code points.  The model keeps the
    code points below 256, one [ascii] each; on that range [str.isspace] and
    the regex class [\s] are true of exactly the code points listed in
    [isspace], [\d] is [0-9], and [.] is every character but the line feed. *)
Module Py.

Definition str := list ascii.

(** A literal of the source text. *)
Definition lit (s : string) : str := list_ascii_of_string s.

Definition LF : ascii := "010"%char.
Definition hyphen : ascii := "-"%char.

(** [str.isspace] on one character; also the regex class [\s]. *)
Definition isspace (c : ascii) : bool :=
  let n := nat_of_ascii c in
  ((9 <=? n) && (n <=? 13)) || ((28 <=? n) && (n <=? 32))
  || (n =? 133) || (n =? 160).

(** The regex class [\d]. *)
Definition isdigit (c : ascii) : bool :=
  let n := nat_of_ascii c in (48 <=? n) && (n <=? 57).

(** The regex class [[A-Z]]. *)
Definition isupper (c : ascii) : bool :=
  let n := nat_of_ascii c in (65 <=? n) && (n <=? 90).

(** The regex class [[.!?]]. *)
Definition is_end_punct (c : ascii) : bool :=
  Ascii.eqb c "."%char || Ascii.eqb c "!"%char || Ascii.eqb c "?"%char.

(** The regex atom [.] (no DOTALL flag). *)
Definition isdot (c : ascii) : bool := negb (Ascii.eqb c LF).

(** Truth value of a [str]: the empty string is falsy. *)
Definition truthy (s : str) : bool :=
  match s with [] => false | _ :: _ => true end.

Fixpoint lstrip (s : str) : str :=
  match s with
  | c :: s' => if isspace c then lstrip s' else s
  | [] => []
  end.

Definition rstrip (s : str) : str := rev (lstrip (rev s)).

(** [str.strip()] with no argument. *)
Definition strip (s : str) : str := rstrip (lstrip s).

(** [sep.join(parts)]. *)
Fixpoint join (sep : str) (parts : list str) : str :=
  match parts with
  | [] => []
  | [p] => p
  | p :: ps => p ++ sep ++ join sep ps
  end.

(** [re.split(pattern, s)] for a pattern without capture groups whose
    matches are never empty.  [search s] is [pattern.search]: the text before
    the leftmost match and the text after it.  Every match removes at least
    one character, so [length s] rounds are enough. *)
Fixpoint re_split_fuel (search : str -> option (str * str)) (fuel : nat)
    (s : str) : list str :=
  match fuel with
  | O => [s]
  | S fuel' =>
      match search s with
      | None => [s]
      | Some (before, rest) => before :: re_split_fuel search fuel' rest
      end
  end.

Definition re_split (search : str -> option (str * str)) (s : str) : list str :=
  re_split_fuel search (length s) s.

(** *** Backtracking matchers

    The pieces of a pattern that [re.match] runs left to right, each taking
    the rest of the pattern as a continuation [k]: a matcher answers with the
    first success in the order in which the regex engine tries the
    alternatives. *)
Section Matchers.
Context {R : Type}.

(** A greedy, capturing [(p* )]: the longest run first, then shorter ones.
    [seen] is the text captured so far. *)
Fixpoint star_greedy (p : ascii -> bool) (seen s : str)
    (k : str -> str -> option R) : option R :=
  match s with
  | c :: s' =>
      if p c then
        match star_greedy p (seen ++ [c]) s' k with
        | Some r => Some r
        | None => k seen s
        end
      else k seen s
  | [] => k seen []
  end.

(** A lazy, capturing [(p*?)]: the shortest run first, then longer ones. *)
Fixpoint star_lazy (p : ascii -> bool) (seen s : str)
    (k : str -> str -> option R) {struct s} : option R :=
  match k seen s with
  | Some r => Some r
  | None =>
      match s with
      | c :: s' => if p c then star_lazy p (seen ++ [c]) s' k else None
      | [] => None
      end
  end.

(** One given character. *)
Definition one_char (c : ascii) (s : str) (k : str -> option R) : option R :=
  match s with
  | x :: s' => if Ascii.eqb x c then k s' else None
  | [] => None
  end.

(** [(\d{4})]. *)
Definition four_digits (s : str) (k : str -> str -> option R) : option R :=
  match s with
  | a :: b :: c :: d :: s' =>
      if isdigit a && isdigit b && isdigit c && isdigit d
      then k [a; b; c; d] s' else None
  | _ => None
  end.

(** [\s*-\s*]. *)
Definition hyphen_separator (s : str) (k : str -> option R) : option R :=
  star_greedy isspace [] s (fun _ r1 =>
    one_char hyphen r1 (fun r2 =>
      star_greedy isspace [] r2 (fun _ r3 => k r3))).
End Matchers.

(** [$] without the MULTILINE flag: the end of the text, or just before a
    line feed that ends it. *)
Definition at_end (s : str) : bool :=
  match s with
  | [] => true
  | [c] => Ascii.eqb c LF
  | _ => false
  end.

(** *** Results of fallible calls *)

(** An exception, of a class that [except Exception] catches: its class and
    its message. *)
Inductive exn : Type := Exn (class message : string).

Inductive outcome (A : Type) : Type :=
| Returned (a : A)
| Raised (e : exn).
Arguments Returned {A} a.
Arguments Raised {A} e.

End Py.

Import Py.

(** ** [logic/semantic_chunker.py] *)
Module SemanticChunker.

(** The tail of a match of [\n\s*\n] whose first [\n] was just read: [s] is
    the text after that [\n].  The greedy [\s*] takes the whole run of
    whitespace and gives characters back until a [\n] follows, so the match
    ends with the last [\n] of the run; [best] is the text after the last
    [\n] seen so far. *)
Fixpoint last_newline_of_run (s : str) (best : option str) : option str :=
  match s with
  | c :: s' =>
      if isspace c
      then last_newline_of_run s' (if Ascii.eqb c LF then Some s' else best)
      else best
  | [] => best
  end.

(** [re.search(r'\n\s*\n', s)]: the text before the leftmost match and the
    text after it. *)
Fixpoint search_paragraph_break (s : str) : option (str * str) :=
  match s with
  | [] => None
  | c :: s' =>
      match (if Ascii.eqb c LF then last_newline_of_run s' None else None) with
      | Some rest => Some ([], rest)
      | None =>
          match search_paragraph_break s' with
          | Some (before, rest) => Some (c :: before, rest)
          | None => None
          end
      end
  end.

(** A match of [(?<=[.!?])\s+(?=[A-Z])] starting at the head of [s], where
    [prev] is the character before it: the greedy [\s+] takes the whole run
    of whitespace, and giving characters back leaves a whitespace character
    under the lookahead, so the run must be followed by a capital.  The
    result is the text after the match. *)
Definition sentence_break_here (prev : option ascii) (s : str) : option str :=
  match prev, s with
  | Some p, c :: _ =>
      if is_end_punct p && isspace c then
        match lstrip s with
        | u :: rest => if isupper u then Some (u :: rest) else None
        | [] => None
        end
      else None
  | _, _ => None
  end.

(** [sentence_boundaries.search] from a position whose preceding character
    is [prev]. *)
Fixpoint search_sentence_break_from (prev : option ascii) (s : str)
    : option (str * str) :=
  match s with
  | [] => None
  | c :: s' =>
      match sentence_break_here prev s with
      | Some rest => Some ([], rest)
      | None =>
          match search_sentence_break_from (Some c) s' with
          | Some (before, rest) => Some (c :: before, rest)
          | None => None
          end
      end
  end.

(** [re.split] resumes a search right after a match, where the character
    before is whitespace: the lookbehind fails on it as it does at the head
    of the text, so each search starts with no character before. *)
Definition search_sentence_break (s : str) : option (str * str) :=
  search_sentence_break_from None s.

(** [_split_by_sentences]: [[s.strip() for s in sentences if s.strip()]]. *)
Definition _split_by_sentences (text : str) : list str :=
  let sentences := re_split search_sentence_break text in
  map strip (List.filter (fun s => truthy (strip s)) sentences).

(** The loop state of [chunk_text]: [(chunks, current_chunk)]. *)
Definition pack_state : Type := list str * str.

(** Sealing the current chunk: [if current_chunk: chunks.append(...)]. *)
Definition seal (chunks : list str) (current_chunk : str) : list str :=
  if truthy current_chunk then chunks ++ [strip current_chunk] else chunks.

(** The body of [for sc in sentence_chunks]. *)
Definition pack_sentence (max_chunk_chars : Z) (st : pack_state) (sc : str)
    : pack_state :=
  let '(chunks, current_chunk) := st in
  if (Z.of_nat (length current_chunk) + Z.of_nat (length sc) + 1
      <=? max_chunk_chars)%Z
  then (chunks, current_chunk ++ sc ++ lit " ")
  else (seal chunks current_chunk, sc ++ lit " ").

(** The branch for a paragraph that is not larger than the limit. *)
Definition pack_paragraph (max_chunk_chars : Z) (st : pack_state) (para : str)
    : pack_state :=
  let '(chunks, current_chunk) := st in
  if (Z.of_nat (length current_chunk) + Z.of_nat (length para) + 2
      <=? max_chunk_chars)%Z
  then (chunks, current_chunk ++ para ++ [LF; LF])
  else (seal chunks current_chunk, para ++ [LF; LF]).

(** The body of [for para in paragraphs]. *)
Definition chunk_step (max_chunk_chars : Z) (st : pack_state) (para0 : str)
    : pack_state :=
  let para := strip para0 in
  if negb (truthy para) then st
  else if (Z.of_nat (length para) >? max_chunk_chars)%Z
  then fold_left (pack_sentence max_chunk_chars) (_split_by_sentences para) st
  else pack_paragraph max_chunk_chars st para.

Definition chunk_text (max_chunk_chars : Z) (text : str) : list str :=
  if negb (truthy text) || negb (truthy (strip text)) then []
  else
    let paragraphs := re_split search_paragraph_break (strip text) in
    let '(chunks, current_chunk) :=
      fold_left (chunk_step max_chunk_chars) paragraphs ([], []) in
    if truthy (strip current_chunk)
    then chunks ++ [strip current_chunk]
    else chunks.

(** [SemanticChunker()] as the engine builds it. *)
Definition default_max_chunk_chars : Z := 3000.

End SemanticChunker.

(** ** [utils/metadata_injector.py] *)
Module MetadataInjector.

(** The values of a metadata dict ([Dict[str, Any]]).  A value that is
    neither [None] nor a [str] is described by the three observations the
    code makes of it: its truth value, its [str()] text, and what pydantic's
    validation of a [str] field makes of it ([Some] of the coerced text, or
    [None] when the value is refused). *)
Inductive pyval : Type :=
| PNone
| PStr (s : str)
| PObj (truth : bool) (text : str) (as_field : option str).

(** [bool(v)], as used by [not v]. *)
Definition py_truth (v : pyval) : bool :=
  match v with
  | PNone => false
  | PStr s => truthy s
  | PObj t _ _ => t
  end.

(** [str(v)]. *)
Definition py_str (v : pyval) : str :=
  match v with
  | PNone => lit "None"
  | PStr s => s
  | PObj _ text _ => text
  end.

Definition Unknown : str := lit "Unknown".

Record ChunkMetadata : Type := {
  title : str;
  author : str;
  year : str;
  internal_page_number : str
}.

(** The [validator("internal_page_number", pre=True, always=True)]. *)
Definition validate_page_number (v : pyval) : str :=
  if negb (py_truth v) || negb (truthy (strip (py_str v)))
  then Unknown
  else strip (py_str v).

(** A field declared [str = Field(default="Unknown")] with no validator of
    its own: the default when the key is absent, the text of a [str], and an
    error ([None]) for [None] or a refused value. *)
Definition str_field (v : option pyval) : option str :=
  match v with
  | None => Some Unknown
  | Some PNone => None
  | Some (PStr s) => Some s
  | Some (PObj _ _ as_field) => as_field
  end.

(** The constructor call on the unpacked [metadata_dict]; keys that name no
    field are ignored.
    The validator runs on the raw value, or on the default when the key is
    absent, and its result is a [str]. *)
Definition ChunkMetadata_init (kwargs : gmap string pyval)
    : outcome ChunkMetadata :=
  let page :=
    validate_page_number
      (default (PStr Unknown) (kwargs !! "internal_page_number"%string)) in
  match str_field (kwargs !! "title"%string),
        str_field (kwargs !! "author"%string),
        str_field (kwargs !! "year"%string) with
  | Some t, Some a, Some y =>
      Returned {| title := t; author := a; year := y;
                  internal_page_number := page |}
  | _, _, _ => Raised (Exn "ValidationError" "")
  end.

(** The constructor call without arguments. *)
Definition ChunkMetadata_default : ChunkMetadata :=
  {| title := Unknown; author := Unknown; year := Unknown;
     internal_page_number := Unknown |}.

Definition rule : str :=
  lit "--------------------------------------------------".

Definition metadata_block (m : ChunkMetadata) : str :=
  [LF; LF]
  ++ rule ++ [LF]
  ++ lit "**SOURCE METADATA FOR FORENSIC EXTRACTION:**" ++ [LF]
  ++ lit "Title: " ++ title m ++ [LF]
  ++ lit "Author: " ++ author m ++ [LF]
  ++ lit "Year: " ++ year m ++ [LF]
  ++ lit "Internal Pagination: " ++ internal_page_number m ++ [LF]
  ++ rule ++ [LF].

Definition inject_metadata (raw_chunk_text : str)
    (metadata_dict : gmap string pyval) : outcome str :=
  if negb (truthy raw_chunk_text) || negb (truthy (strip raw_chunk_text))
  then Returned raw_chunk_text
  else
    let validated_meta :=
      match ChunkMetadata_init metadata_dict with
      | Returned m => m
      | Raised _ => ChunkMetadata_default
      end in
    let clean_text := strip raw_chunk_text in
    Returned (clean_text ++ metadata_block validated_meta).

End MetadataInjector.

(** ** [database/db_manager.py] *)
Module DBManager.

(** A document of the table ['uploaded_files'].  The checksum is what
    [result.get('checksum')] answers: [None] is Python's [None]. *)
Record ChecksumRecord : Type := {
  file_id : str;
  file_name : str;
  checksum : option str;
  status : str
}.

(** The table: its documents, in the order of their document ids. *)
Definition table : Type := list ChecksumRecord.

(** The query [FileQuery.file_id == file_id]. *)
Definition has_id (id : str) (r : ChecksumRecord) : bool :=
  bool_decide (file_id r = id).

(** TinyDB's [Table.get(cond)]: the first document the query accepts. *)
Definition table_get (id : str) (t : table) : option ChecksumRecord :=
  List.find (has_id id) t.

(** TinyDB's [Table.upsert(document, cond)]: every document the query
    accepts takes the fields of [document]; when there is none, [document]
    is inserted at the end. *)
Definition table_upsert (document : ChecksumRecord) (id : str) (t : table)
    : table :=
  if existsb (has_id id) t
  then map (fun r => if has_id id r then document else r) t
  else t ++ [document].

(** [check_file_status]: [(is_processed, stored_checksum)]. *)
Definition check_file_status (id : str) (t : table) : bool * option str :=
  match table_get id t with
  | Some result => (true, checksum result)
  | None => (false, None)
  end.

(** [mark_file_as_processed].  [storage_write] is the write of the table to
    its file, which may raise; the exception is logged and raised again, and
    the table keeps its documents. *)
Definition mark_file_as_processed (storage_write : table -> outcome unit)
    (id name : str) (sum : option str) (t : table) : outcome unit * table :=
  let document :=
    {| file_id := id; file_name := name; checksum := sum;
       status := lit "synced" |} in
  let t' := table_upsert document id t in
  match storage_write t' with
  | Returned _ => (Returned tt, t')
  | Raised e => (Raised e, t)
  end.

End DBManager.

(** ** [logic/sync_engine.py] *)
Module SyncEngine.
Import SemanticChunker MetadataInjector DBManager.

(** An entry of the remote listing, as [DriveClient._walk_folder_tree]
    builds it; [md5Checksum] comes from [item.get] and may be [None]. *)
Record DriveFile : Type := {
  id : str;
  name : str;
  md5Checksum : option str
}.

(** A page of [ExtractionService.extract_document];
    [page_internal_number] is its key ["internal_page_number"]. *)
Record Page : Type := {
  page_index : Z;
  text : str;
  page_internal_number : str
}.

(** *** [_get_files_to_process] *)

(** The body of [for file in drive_files]. *)
Definition compare_step (t : table) (processing_queue : list DriveFile)
    (file : DriveFile) : list DriveFile :=
  let remote_checksum := md5Checksum file in
  let '(is_processed, stored_checksum) := check_file_status (id file) t in
  if negb is_processed then processing_queue ++ [file]
  else if negb (bool_decide (stored_checksum = remote_checksum))
  then processing_queue ++ [file]
  else processing_queue.

Definition _get_files_to_process (t : table) (drive_files : list DriveFile)
    : list DriveFile :=
  fold_left (compare_step t) drive_files [].

(** *** [_parse_filename_metadata] *)

(** [filename.replace(".pdf", "")]: occurrences are removed from left to
    right and do not overlap. *)
Fixpoint replace_dot_pdf (s : str) : str :=
  match s with
  | c1 :: s1 =>
      match s1 with
      | c2 :: c3 :: c4 :: rest =>
          if bool_decide ([c1; c2; c3; c4] = lit ".pdf")
          then replace_dot_pdf rest
          else c1 :: replace_dot_pdf s1
      | _ => c1 :: replace_dot_pdf s1
      end
  | [] => []
  end.

(** The groups of a match: [group(1)] and [group(2)] are [None] when their
    optional part took no part in the match. *)
Definition groups : Type := (option str * option str * str)%type.

(** [(.* )$]. *)
Definition title_group {R : Type} (s : str) (k : str -> option R) : option R :=
  star_greedy isdot [] s (fun g3 r => if at_end r then k g3 else None).

(** [(?:(.*?)\s*-\s* )?(.* )$] with [group(1)] already decided: the optional
    part is tried first, and left out when the rest cannot match after it. *)
Definition author_and_title (g1 : option str) (s : str) : option groups :=
  match
    star_lazy isdot [] s (fun g2 r =>
      hyphen_separator r (fun r' =>
        title_group r' (fun g3 => Some (g1, Some g2, g3))))
  with
  | Some g => Some g
  | None => title_group s (fun g3 => Some (g1, None, g3))
  end.

(** [re.match(pattern, clean_name)] for the pattern
    [^(?:(\d{4})\s*-\s* )?(?:(.*?)\s*-\s* )?(.* )$]. *)
Definition filename_pattern_match (s : str) : option groups :=
  match
    four_digits s (fun g1 r =>
      hyphen_separator r (fun r' => author_and_title (Some g1) r'))
  with
  | Some g => Some g
  | None => author_and_title None s
  end.

(** Truth value of a group: [None] and the empty string are falsy. *)
Definition group_truthy (g : option str) : bool :=
  match g with Some s => truthy s | None => false end.

Definition group_text (g : option str) : str := default [] g.

Definition clean_name (filename : str) : str :=
  strip (replace_dot_pdf filename).

(** The result is [(year, author, title)]. *)
Definition _parse_filename_metadata (filename : str) : str * str * str :=
  let clean := clean_name filename in
  match filename_pattern_match clean with
  | Some (extracted_year, extracted_author, extracted_title) =>
      let year :=
        if group_truthy extracted_year
        then strip (group_text extracted_year) else lit "Unknown" in
      let author :=
        if group_truthy extracted_author
        then strip (group_text extracted_author) else lit "Unknown" in
      if truthy extracted_title
      then (year, author, strip extracted_title)
      else if group_truthy extracted_author && negb (truthy extracted_title)
      then (year, lit "Unknown", strip (group_text extracted_author))
      else (year, author, clean)
  | None => (lit "Unknown", lit "Unknown", clean)
  end.


(** *** Effects: the store, the calls made, and exceptions *)

(** The calls a worker makes to its collaborators and to the store, as they
    happen.  An upload is recorded with what it answered, a store write with
    whether it was committed. *)
Inductive call : Type :=
| Download (file_id file_name : str)
| Extract (pdf_path : str)
| WriteText (file_path content : str)
| Upload (file_path vector_store_id : str) (status : outcome str)
| Upsert (file_id : str) (sum : option str) (written : bool).

Record world : Type := {
  db : table;
  calls : list call
}.

(** A computation that reads and writes the world and returns or raises. *)
Definition M (A : Type) : Type := world -> outcome A * world.

Definition ret {A : Type} (a : A) : M A := fun w => (Returned a, w).

Definition raise {A : Type} (e : exn) : M A := fun w => (Raised e, w).

Definition bind {A B : Type} (m : M A) (k : A -> M B) : M B :=
  fun w =>
    match m w with
    | (Returned a, w') => k a w'
    | (Raised e, w') => (Raised e, w')
    end.

Notation "'do' x <- m ; k" := (bind m (fun x => k))
  (at level 10, x name, m at level 100, k at level 200).

(** [try: m except Exception as e: handler e]. *)
Definition try_except {A : Type} (m : M A) (handler : exn -> M A) : M A :=
  fun w =>
    match m w with
    | (Returned a, w') => (Returned a, w')
    | (Raised e, w') => handler e w'
    end.

(** A call to a collaborator: it is recorded, then it returns or raises. *)
Definition invoke {A : Type} (c : call) (result : outcome A) : M A :=
  fun w => (result, {| db := db w; calls := calls w ++ [c] |}).

(** A pure computation that may raise. *)
Definition lift {A : Type} (result : outcome A) : M A :=
  fun w => (result, w).

Definition is_returned {A : Type} (o : outcome A) : bool :=
  match o with Returned _ => true | Raised _ => false end.

(** The collaborators of a worker, each with the result of its calls. *)
Record Collaborators : Type := {
  download_file : str -> str -> str -> outcome (option str);
  extract_document : str -> outcome (list Page);
  _write_text_file : str -> str -> outcome unit;
  upload_file_to_store : str -> str -> outcome str;
  storage_write : table -> outcome unit
}.

(** [self.db.mark_file_as_processed] on the store of the world. *)
Definition db_mark_file_as_processed (env : Collaborators)
    (file_id file_name : str) (sum : option str) : M unit :=
  fun w =>
    let '(result, t') :=
      mark_file_as_processed (storage_write env) file_id file_name sum (db w) in
    (result,
     {| db := t';
        calls := calls w ++ [Upsert file_id sum (is_returned result)] |}).

(** *** [_process_single_file] *)

Definition TEMP_DIR : str := lit "temp_data".

(** The dict [meta] built for each chunk. *)
Definition page_meta (title author year : str) (page : Page)
    : gmap string pyval :=
  {[ "title"%string := PStr title;
     "author"%string := PStr author;
     "year"%string := PStr year;
     "internal_page_number"%string := PStr (page_internal_number page) ]}.

(** [for chunk in chunks]: each enriched chunk is appended to
    [final_text_blocks]. *)
Fixpoint inject_chunks (meta : gmap string pyval) (chunks : list str)
    (final_text_blocks : list str) : outcome (list str) :=
  match chunks with
  | [] => Returned final_text_blocks
  | chunk :: chunks' =>
      match inject_metadata chunk meta with
      | Returned enriched_chunk =>
          inject_chunks meta chunks' (final_text_blocks ++ [enriched_chunk])
      | Raised e => Raised e
      end
  end.

(** [for page in extracted_pages]. *)
Fixpoint enrich_pages (title author year : str) (pages : list Page)
    (final_text_blocks : list str) : outcome (list str) :=
  match pages with
  | [] => Returned final_text_blocks
  | page :: pages' =>
      let chunks := chunk_text default_max_chunk_chars (text page) in
      match inject_chunks (page_meta title author year page) chunks
              final_text_blocks with
      | Returned blocks => enrich_pages title author year pages' blocks
      | Raised e => Raised e
      end
  end.

(** The [try] block.  [Some b] is [return b]; [None] is the end of the block
    reached without a [return]. *)
Definition pipeline (env : Collaborators) (file : DriveFile)
    (vector_store_id : str) : M (option bool) :=
  let file_id := id file in
  let file_name := name file in
  let checksum := md5Checksum file in
  do downloaded <-
    invoke (Download file_id file_name)
           (download_file env file_id file_name TEMP_DIR);
  match downloaded with
  | None | Some [] => raise (Exn "ValueError" "Download returned no path.")
  | Some local_path =>
      let '(year, author, title) := _parse_filename_metadata file_name in
      do extracted_pages <-
        invoke (Extract local_path) (extract_document env local_path);
      do final_text_blocks <-
        lift (enrich_pages title author year extracted_pages []);
      let final_document_text := join [LF; LF] final_text_blocks in
      let processed_path := local_path ++ lit "_processed.txt" in
      do _ <-
        invoke (WriteText processed_path final_document_text)
               (_write_text_file env processed_path final_document_text);
      let uploaded := upload_file_to_store env processed_path vector_store_id in
      do upload_status <-
        invoke (Upload processed_path vector_store_id uploaded) uploaded;
      if truthy upload_status then
        do _ <- db_mark_file_as_processed env file_id file_name checksum;
        ret (Some true)
      else ret None
  end.

(** The worker: the [try] block, the handler that answers [False], and the
    [return False] that follows the block.  The semaphore that surrounds the
    block is the subject of [gate_step] below. *)
Definition _process_single_file (env : Collaborators) (file : DriveFile)
    (vector_store_id : str) : M bool :=
  do returned <-
    try_except (pipeline env file vector_store_id)
               (fun _ => ret (Some false));
  ret (default false returned).

(** *** [_process_file_batch] *)

(** [asyncio.gather( *tasks)]: the results in the order of the tasks; an
    exception of a task is raised to the caller.  The tasks share nothing but
    the store, which each writes in one step under the lock, so they are run
    one after the other. *)
Fixpoint gather {A : Type} (tasks : list (M A)) : M (list A) :=
  match tasks with
  | [] => ret []
  | task :: tasks' =>
      do result <- task;
      do results <- gather tasks';
      ret (result :: results)
  end.

(** The batch; the result is the pair [(success_count, fail_count)] of the
    summary it logs. *)
Definition _process_file_batch (env : Collaborators) (files : list DriveFile)
    (vector_store_id : str) : M (Z * Z) :=
  let tasks :=
    map (fun file => _process_single_file env file vector_store_id) files in
  do results <- gather tasks;
  let success_count :=
    Z.of_nat (length (List.filter (fun result => result) results)) in
  let fail_count := (Z.of_nat (length files) - success_count)%Z in
  ret (success_count, fail_count).

(** *** The semaphore of [_process_file_batch]

    The workers of a batch, interleaved.  A worker is [Discovered] until
    [async with semaphore] lets it in, then does steps A to D in order, and
    leaves the block, giving its permit back, either by [return True] after
    the store is written ([Recorded]) or by [return False] ([Failed]). *)

Definition max_concurrent_tasks : nat := 10.

Inductive phase : Type :=
| Discovered | Downloading | Extracting | Chunking | Uploading | Recording
| Recorded | Failed.

(** The phases inside the [async with] block. *)
Definition holds_permit (p : phase) : bool :=
  match p with
  | Discovered | Recorded | Failed => false
  | Downloading | Extracting | Chunking | Uploading | Recording => true
  end.

Definition next_phase (p : phase) : option phase :=
  match p with
  | Downloading => Some Extracting
  | Extracting => Some Chunking
  | Chunking => Some Uploading
  | Uploading => Some Recording
  | _ => None
  end.

(** [permits] is the value of the semaphore. *)
Record gate : Type := {
  permits : nat;
  workers : list phase
}.

Inductive gate_step : gate -> gate -> Prop :=
| step_admit (i n : nat) (ws : list phase) :
    ws !! i = Some Discovered ->
    gate_step {| permits := S n; workers := ws |}
              {| permits := n; workers := <[i := Downloading]> ws |}
| step_advance (i n : nat) (ws : list phase) (p q : phase) :
    ws !! i = Some p ->
    next_phase p = Some q ->
    gate_step {| permits := n; workers := ws |}
              {| permits := n; workers := <[i := q]> ws |}
| step_record (i n : nat) (ws : list phase) :
    ws !! i = Some Recording ->
    gate_step {| permits := n; workers := ws |}
              {| permits := S n; workers := <[i := Recorded]> ws |}
| step_fail (i n : nat) (ws : list phase) (p : phase) :
    ws !! i = Some p ->
    holds_permit p = true ->
    gate_step {| permits := n; workers := ws |}
              {| permits := S n; workers := <[i := Failed]> ws |}.

(** The batch when [gather] starts: one task per file, none admitted. *)
Definition gate_init (files : nat) : gate :=
  {| permits := max_concurrent_tasks; workers := replicate files Discovered |}.

(** The workers that are inside the block. *)
Definition in_flight (g : gate) : nat :=
  length (List.filter holds_permit (workers g)).

(** *** [start] *)

(** The services that [start] calls itself, once each in a cycle, with the
    result of that call: [self.openai.ensure_vector_store],
    [self.drive.list_pdfs_in_folder], [self.openai.ensure_assistant] and
    [self._prepare_temp_dir]. *)
Record Services : Type := {
  ensure_vector_store : outcome str;
  list_pdfs_in_folder : outcome (list DriveFile);
  ensure_assistant : str -> outcome str;
  _prepare_temp_dir : outcome unit
}.

(** [try: body finally: cleanup]: the cleanup runs in either case, and an
    exception of the cleanup takes the place of the result of the body. *)
Definition try_finally {A : Type} (body : M A) (cleanup : M unit) : M A :=
  fun w =>
    let '(result, w1) := body w in
    match cleanup w1 with
    | (Returned _, w2) => (result, w2)
    | (Raised e, w2) => (Raised e, w2)
    end.

(** [await self._get_files_to_process(drive_files)] on the store of the
    world. *)
Definition db_get_files_to_process (drive_files : list DriveFile)
    : M (list DriveFile) :=
  fun w => (Returned (_get_files_to_process (db w) drive_files), w).

Definition start (services : Services) (env : Collaborators) : M unit :=
  try_finally
    (try_except
       (do vector_store_id <- lift (ensure_vector_store services);
        do drive_files <- lift (list_pdfs_in_folder services);
        do files_to_process <- db_get_files_to_process drive_files;
        do _ <-
          match files_to_process with
          | [] => ret tt
          | _ :: _ =>
              do _ <-
                _process_file_batch env files_to_process vector_store_id;
              ret tt
          end;
        do assistant_id <-
          lift (ensure_assistant services vector_store_id);
        ret tt)
       (fun e => raise e))
    (lift (_prepare_temp_dir services)).

(** *** [start], with the reads of the store

    [check_file_status] reads the table from its file, and the read can
    raise; the comparison makes one read for each entry of the listing, in
    order, inside the [try] block of [start] and with no handler of its own.
    [reads k] is the result of the read for the entry at position [k]. *)

(** The loop of [_get_files_to_process], read by read: it ends at the first
    read that raises, and compares the entry otherwise. *)
Fixpoint compare_reading (reads : nat -> outcome unit) (k : nat) (t : table)
    (drive_files : list DriveFile) (processing_queue : list DriveFile)
    : outcome (list DriveFile) :=
  match drive_files with
  | [] => Returned processing_queue
  | file :: drive_files' =>
      match reads k with
      | Raised e => Raised e
      | Returned _ =>
          compare_reading reads (S k) t drive_files'
            (compare_step t processing_queue file)
      end
  end.

Definition start_reading (reads : nat -> outcome unit) (services : Services)
    (env : Collaborators) : M unit :=
  try_finally
    (try_except
       (do vector_store_id <- lift (ensure_vector_store services);
        do drive_files <- lift (list_pdfs_in_folder services);
        do files_to_process <-
          (fun w => (compare_reading reads 0 (db w) drive_files [], w));
        do _ <-
          match files_to_process with
          | [] => ret tt
          | _ :: _ =>
              do _ <-
                _process_file_batch env files_to_process vector_store_id;
              ret tt
          end;
        do assistant_id <-
          lift (ensure_assistant services vector_store_id);
        ret tt)
       (fun e => raise e))
    (lift (_prepare_temp_dir services)).

End SyncEngine.

(** ** Vocabulary of the statements *)
Module Notions.

(** The characters of a text that are not whitespace, in order. *)
Definition nonspace (s : str) : str :=
  List.filter (fun c => negb (isspace c)) s.

(** A text that is empty or holds whitespace only. *)
Definition blank (s : str) : Prop := Forall (fun c => isspace c = true) s.

(** A text that neither starts nor ends with whitespace. *)
Definition trimmed (s : str) : Prop := strip s = s.

(** A blank [internal_page_number] is absent, [None], or a blank text. *)
Definition blank_page_number (v : option MetadataInjector.pyval) : Prop :=
  v = None
  \/ v = Some MetadataInjector.PNone
  \/ exists s, v = Some (MetadataInjector.PStr s) /\ blank s.

(** A field that is absent or given as a text. *)
Definition absent_or_text (v : option MetadataInjector.pyval) : Prop :=
  v = None \/ exists s, v = Some (MetadataInjector.PStr s).

(** The metadata that [inject_metadata] writes. *)
Definition validated (m : gmap string MetadataInjector.pyval)
    : MetadataInjector.ChunkMetadata :=
  match MetadataInjector.ChunkMetadata_init m with
  | Returned meta => meta
  | Raised _ => MetadataInjector.ChunkMetadata_default
  end.

(** What [_get_files_to_process] decides for one entry of the listing. *)
Definition needs_sync (t : DBManager.table) (f : SyncEngine.DriveFile) : bool :=
  let '(is_processed, stored_checksum) :=
    DBManager.check_file_status (SyncEngine.id f) t in
  negb is_processed
  || negb (bool_decide (stored_checksum = SyncEngine.md5Checksum f)).

(** The document that [mark_file_as_processed] writes for a listing entry. *)
Definition record_of (f : SyncEngine.DriveFile) : DBManager.ChecksumRecord :=
  {| DBManager.file_id := SyncEngine.id f;
     DBManager.file_name := SyncEngine.name f;
     DBManager.checksum := SyncEngine.md5Checksum f;
     DBManager.status := lit "synced" |}.

(** The store after the commit of a listing entry. *)
Definition commit (t : DBManager.table) (f : SyncEngine.DriveFile)
    : DBManager.table :=
  DBManager.table_upsert (record_of f) (SyncEngine.id f) t.

(** Every stage of a worker up to the upload returned, and the upload
    answered a truthy status. *)
Definition upload_confirmed (env : SyncEngine.Collaborators)
    (file : SyncEngine.DriveFile) (vector_store_id : str) : Prop :=
  exists (local_path : str) (pages : list SyncEngine.Page)
         (blocks : list str) (status : str),
    SyncEngine.download_file env (SyncEngine.id file) (SyncEngine.name file)
      SyncEngine.TEMP_DIR = Returned (Some local_path)
    /\ truthy local_path = true
    /\ SyncEngine.extract_document env local_path = Returned pages
    /\ (let '(year, author, title) :=
          SyncEngine._parse_filename_metadata (SyncEngine.name file) in
        SyncEngine.enrich_pages title author year pages [] = Returned blocks)
    /\ SyncEngine._write_text_file env (local_path ++ lit "_processed.txt")
         (join [LF; LF] blocks) = Returned tt
    /\ SyncEngine.upload_file_to_store env (local_path ++ lit "_processed.txt")
         vector_store_id = Returned status
    /\ truthy status = true.

(** A call that writes the store. *)
Definition is_upsert (c : SyncEngine.call) : bool :=
  match c with SyncEngine.Upsert _ _ _ => true | _ => false end.

(** Entries of a listing that name the same document carry the same
    checksum. *)
Definition one_checksum_per_id (files : list SyncEngine.DriveFile) : Prop :=
  forall f g, In f files -> In g files ->
    SyncEngine.id f = SyncEngine.id g ->
    SyncEngine.md5Checksum f = SyncEngine.md5Checksum g.

(** A chunk that is one sentence, itself longer than the limit, of a
    paragraph of [text] that is longer than the limit. *)
Definition oversized_sentence (max_chunk_chars : Z) (text c : str) : Prop :=
  exists para0 : str,
    In para0 (re_split SemanticChunker.search_paragraph_break (strip text))
    /\ (Z.of_nat (length (strip para0)) > max_chunk_chars)%Z
    /\ In c (SemanticChunker._split_by_sentences (strip para0))
    /\ (Z.of_nat (length c) > max_chunk_chars)%Z.

(** A search whose match is a run of whitespace that is not empty. *)
Definition splits_at_blank (search : str -> option (str * str)) : Prop :=
  forall s before rest,
    search s = Some (before, rest) ->
    exists sep, s = before ++ sep ++ rest /\ blank sep /\ sep <> [].

(** A chunk within the limit, or longer in a way that [oversized] accepts. *)
Definition chunk_ok (max : Z) (oversized : str -> Prop) (c : str) : Prop :=
  (Z.of_nat (length c) <= max)%Z \/ oversized c.

(** The invariant of the loop of [chunk_text]: every sealed chunk is
    accepted, and so is the current chunk once it is stripped. *)
Definition pack_inv (max : Z) (oversized : str -> Prop)
    (st : SemanticChunker.pack_state) : Prop :=
  (forall c, In c (fst st) -> chunk_ok max oversized c)
  /\ (snd st = [] \/ chunk_ok max oversized (strip (snd st))).

(** [d] is four digits at the head of [s], followed by optional whitespace
    and a hyphen. *)
Definition year_prefix (s d : str) : Prop :=
  length d = 4
  /\ Forall (fun c => isdigit c = true) d
  /\ exists w r, blank w /\ s = d ++ w ++ hyphen :: r.

(** How the groups of the author and of the title lie in the text that
    follows the year: the author, if any, then a hyphen with optional
    whitespace around it, then the title up to the end. *)
Definition author_title_shape (s : str) (g2 : option str) (g3 : str) : Prop :=
  match g2 with
  | Some a =>
      exists w1 w2 r,
        s = a ++ w1 ++ hyphen :: w2 ++ g3 ++ r
        /\ blank w1 /\ blank w2 /\ at_end r = true
        /\ (blank a -> a = [])
  | None => exists r, s = g3 ++ r /\ at_end r = true
  end.

(** The pieces that the loop of [chunk_text] appends for one paragraph of
    the split: none for a blank one; the paragraph, stripped, with two line
    feeds after it when it is within the limit; its sentences, each with a
    space after it, when it is longer. *)
Definition units_of_paragraph (max_chunk_chars : Z) (para0 : str)
    : list str :=
  let para := strip para0 in
  if negb (truthy para) then []
  else if (Z.of_nat (length para) >? max_chunk_chars)%Z
  then map (fun sc => sc ++ lit " ")
           (SemanticChunker._split_by_sentences para)
  else [para ++ [LF; LF]].

(** The pieces of a text, in its order. *)
Definition units_of (max_chunk_chars : Z) (text : str) : list str :=
  flat_map (units_of_paragraph max_chunk_chars)
    (re_split SemanticChunker.search_paragraph_break (strip text)).

(** What the loop of [chunk_text] does with one piece, in either branch: the
    piece goes after the current chunk when the two fit, and starts the next
    chunk otherwise. *)
Definition pack_unit (max_chunk_chars : Z) (st : SemanticChunker.pack_state)
    (unit : str) : SemanticChunker.pack_state :=
  let '(chunks, current_chunk) := st in
  if (Z.of_nat (length current_chunk) + Z.of_nat (length unit)
      <=? max_chunk_chars)%Z
  then (chunks, current_chunk ++ unit)
  else (SemanticChunker.seal chunks current_chunk, unit).

(** A group of pieces that makes one chunk: it holds more than whitespace,
    and it is within the limit as a whole unless it is one piece. *)
Definition whole_group (max_chunk_chars : Z) (g : list str) : Prop :=
  ~ blank (concat g)
  /\ ((Z.of_nat (length (concat g)) <= max_chunk_chars)%Z
      \/ exists unit : str, g = [unit]).

End Notions.

Import Notions.

(** ** [services/extraction_service.py] *)
Module ExtractionService.

(** [s.split('\n')]: the pieces between line feeds, at least one. *)
Fixpoint split_lines (s : str) : list str :=
  match s with
  | [] => [[]]
  | c :: s' =>
      if Ascii.eqb c LF then [] :: split_lines s'
      else
        match split_lines s' with
        | line :: lines => (c :: line) :: lines
        | [] => [[c]]
        end
  end.

(** A character of the pattern under [re.IGNORECASE]: the letter [upper] or
    its lower-case form [lower]. *)
Definition either_case (upper lower c : ascii) : bool :=
  Ascii.eqb c upper || Ascii.eqb c lower.

Section Pattern.
Context {R : Type}.

(** [Page\s*], in any case. *)
Definition page_word (s : str) (k : str -> option R) : option R :=
  match s with
  | p :: a :: g :: e :: s' =>
      if either_case "P" "p" p && either_case "A" "a" a
         && either_case "G" "g" g && either_case "E" "e" e
      then star_greedy isspace [] s' (fun _ rest => k rest)
      else None
  | _ => None
  end.

(** [-?]: with the hyphen first, then without. *)
Definition optional_hyphen (s : str) (k : str -> option R) : option R :=
  match one_char hyphen s k with
  | Some r => Some r
  | None => k s
  end.

(** [(\d+)]. *)
Definition digits_group (s : str) (k : str -> str -> option R) : option R :=
  match s with
  | d :: s' => if isdigit d then star_greedy isdigit [d] s' k else None
  | [] => None
  end.
End Pattern.

(** [-?\s*(\d+)\s*-?$], answering group 1. *)
Definition number_tail (s : str) : option str :=
  optional_hyphen s (fun r1 =>
    star_greedy isspace [] r1 (fun _ r2 =>
      digits_group r2 (fun number r3 =>
        star_greedy isspace [] r3 (fun _ r4 =>
          optional_hyphen r4 (fun r5 =>
            if at_end r5 then Some number else None))))).

(** [re.search(pattern, clean_line, re.IGNORECASE)], answering
    [match.group(1)]: the pattern is an optional [Page\s*], then
    [-?\s*(\d+)\s*-?$].  It starts with [^], so a match starts at the first
    character. *)
Definition page_number_search (clean_line : str) : option str :=
  match page_word clean_line number_tail with
  | Some number => Some number
  | None => number_tail clean_line
  end.

(** [for line in candidates]. *)
Fixpoint first_page_number (candidates : list str) : str :=
  match candidates with
  | [] => lit "Unknown"
  | line :: candidates' =>
      let clean_line := strip line in
      match page_number_search clean_line with
      | Some number => number
      | None => first_page_number candidates'
      end
  end.

(** [lines[:5] + lines[-5:]]. *)
Definition candidate_lines (lines : list str) : list str :=
  firstn 5 lines ++ skipn (length lines - 5) lines.

Definition _guess_internal_pagination (page_text : str) : str :=
  let lines := split_lines page_text in
  match lines with
  | [] => lit "Unknown"
  | _ :: _ => first_page_number (candidate_lines lines)
  end.

End ExtractionService.

(** ** Vocabulary of the further properties *)
Module MoreNotions.

(** The store after one worker of a batch: the entry is committed when the
    worker answered [True]. *)
Definition settle (t : DBManager.table) (r : SyncEngine.DriveFile * bool)
    : DBManager.table :=
  if snd r then commit t (fst r) else t.

(** Collaborators for the examples: every call succeeds, except that the
    download of the file with id ["b"] raises when [b_fails] is set. *)
Definition example_env (b_fails : bool) : SyncEngine.Collaborators :=
  {| SyncEngine.download_file :=
       fun file_id file_name dir =>
         if b_fails && bool_decide (file_id = lit "b")
         then Raised (Exn "ClientError" "connection reset")
         else Returned (Some (dir ++ lit "/" ++ file_name));
     SyncEngine.extract_document :=
       fun _ => Returned
         [ {| SyncEngine.page_index := 0;
              SyncEngine.text := lit "One clause. Another clause.";
              SyncEngine.page_internal_number := lit "12" |} ];
     SyncEngine._write_text_file := fun _ _ => Returned tt;
     SyncEngine.upload_file_to_store :=
       fun _ _ => Returned (lit "upload_success");
     SyncEngine.storage_write := fun _ => Returned tt |}.

Definition example_file (file_id checksum : string) : SyncEngine.DriveFile :=
  {| SyncEngine.id := lit file_id;
     SyncEngine.name := lit "2020 - Author - Title.pdf";
     SyncEngine.md5Checksum := Some (lit checksum) |}.

Definition example_record (file_id checksum : string)
    : DBManager.ChecksumRecord :=
  {| DBManager.file_id := lit file_id;
     DBManager.file_name := lit "2020 - Author - Title.pdf";
     DBManager.checksum := Some (lit checksum);
     DBManager.status := lit "synced" |}.

(** The paragraphs of a text that [chunk_text] packs: the pieces between
    blank lines, stripped, without the blank ones. *)
Definition paragraphs_of (text : str) : list str :=
  map strip
    (List.filter (fun p => truthy (strip p))
       (re_split SemanticChunker.search_paragraph_break (strip text))).

(** Paragraphs as the loop of [chunk_text] lays them down: each one followed
    by two line feeds. *)
Definition laid_down (paras : list str) : str :=
  concat (map (fun p => p ++ [LF; LF]) paras).

(** The invariant of the loop of [chunk_text] that keeps chunks from being
    empty: sealed chunks are trimmed and not empty, and the current chunk is
    empty or holds more than whitespace. *)
Definition pack_solid (st : SemanticChunker.pack_state) : Prop :=
  (forall c, In c (fst st) -> trimmed c /\ c <> [])
  /\ (snd st = [] \/ ~ blank (snd st)).

(** The blocks that the loop of [_process_single_file] appends for one page:
    each chunk of the page followed by the metadata block of the file and
    the page. *)
Definition page_blocks (title author year : str) (page : SyncEngine.Page)
    : list str :=
  map (fun chunk =>
         chunk
         ++ MetadataInjector.metadata_block
              {| MetadataInjector.title := title;
                 MetadataInjector.author := author;
                 MetadataInjector.year := year;
                 MetadataInjector.internal_page_number :=
                   MetadataInjector.validate_page_number
                     (MetadataInjector.PStr
                        (SyncEngine.page_internal_number page)) |})
      (SemanticChunker.chunk_text SemanticChunker.default_max_chunk_chars
         (SyncEngine.text page)).

(** The text that a worker writes for the pages of a file: the blocks of
    all pages, joined by two line feeds. *)
Definition processed_text (file_name : str) (pages : list SyncEngine.Page)
    : str :=
  let '(year, author, title) := SyncEngine._parse_filename_metadata file_name in
  join [LF; LF] (flat_map (page_blocks title author year) pages).

(** Collaborators for the examples: as [example_env], for a scanned document
    whose two pages hold no text. *)
Definition scanned_env : SyncEngine.Collaborators :=
  {| SyncEngine.download_file :=
       SyncEngine.download_file (example_env false);
     SyncEngine.extract_document :=
       fun _ => Returned
         [ {| SyncEngine.page_index := 0;
              SyncEngine.text := [];
              SyncEngine.page_internal_number := lit "Unknown" |};
           {| SyncEngine.page_index := 1;
              SyncEngine.text := lit "  " ++ [LF];
              SyncEngine.page_internal_number := lit "Unknown" |} ];
     SyncEngine._write_text_file :=
       SyncEngine._write_text_file (example_env false);
     SyncEngine.upload_file_to_store :=
       SyncEngine.upload_file_to_store (example_env false);
     SyncEngine.storage_write :=
       SyncEngine.storage_write (example_env false) |}.

(** The word [Page] of the page-number pattern, in any case, with the
    whitespace that follows it. *)
Definition page_word_text (word : str) : Prop :=
  exists (p a g e : ascii) (ws : str),
    word = [p; a; g; e] ++ ws
    /\ ExtractionService.either_case "P" "p" p = true
    /\ ExtractionService.either_case "A" "a" a = true
    /\ ExtractionService.either_case "G" "g" g = true
    /\ ExtractionService.either_case "E" "e" e = true
    /\ blank ws.

Definition optional_dash (dash : str) : Prop := dash = [] \/ dash = [hyphen].

(** A line that is a page number standing alone: the word [Page] or not, a
    hyphen or not, the digits [number], a hyphen or not, with whitespace
    allowed around the digits. *)
Definition page_number_line (line number : str) : Prop :=
  exists word dash1 ws1 ws2 dash2 : str,
    line = word ++ dash1 ++ ws1 ++ number ++ ws2 ++ dash2
    /\ (word = [] \/ page_word_text word)
    /\ optional_dash dash1 /\ blank ws1
    /\ number <> [] /\ Forall (fun c => isdigit c = true) number
    /\ blank ws2 /\ optional_dash dash2.

(** A text without a line feed. *)
Definition one_line (line : str) : Prop := ~ In LF line.

(** What a cycle answers, read off the services alone: the exception of the
    cleanup if it raises; otherwise the exception of the first of the vector
    store, the listing and the assistant that raises; otherwise nothing. *)
Definition cycle_outcome (services : SyncEngine.Services) : outcome unit :=
  match SyncEngine._prepare_temp_dir services with
  | Raised e => Raised e
  | Returned _ =>
      match SyncEngine.ensure_vector_store services with
      | Raised e => Raised e
      | Returned vector_store_id =>
          match SyncEngine.list_pdfs_in_folder services with
          | Raised e => Raised e
          | Returned _ =>
              match SyncEngine.ensure_assistant services vector_store_id with
              | Raised e => Raised e
              | Returned _ => Returned tt
              end
          end
      end
  end.

(** What the first [n] reads from position [k] on answer, taken together:
    the exception of the first one that raises, if any. *)
Fixpoint reads_outcome (reads : nat -> outcome unit) (k n : nat)
    : outcome unit :=
  match n with
  | O => Returned tt
  | S n' =>
      match reads k with
      | Raised e => Raised e
      | Returned _ => reads_outcome reads (S k) n'
      end
  end.

(** What a cycle answers when the reads of the store can raise, read off
    its own calls alone: the exception of the cleanup if it raises;
    otherwise the exception of the first that raises of the vector store,
    the listing, the reads of the store for the entries of the listing, and
    the assistant; otherwise nothing. *)
Definition cycle_outcome_reading (reads : nat -> outcome unit)
    (services : SyncEngine.Services) : outcome unit :=
  match SyncEngine._prepare_temp_dir services with
  | Raised e => Raised e
  | Returned _ =>
      match SyncEngine.ensure_vector_store services with
      | Raised e => Raised e
      | Returned vector_store_id =>
          match SyncEngine.list_pdfs_in_folder services with
          | Raised e => Raised e
          | Returned drive_files =>
              match reads_outcome reads 0 (length drive_files) with
              | Raised e => Raised e
              | Returned _ =>
                  match SyncEngine.ensure_assistant services
                          vector_store_id with
                  | Raised e => Raised e
                  | Returned _ => Returned tt
                  end
              end
          end
      end
  end.

(** The world that a cycle leaves: the one its batch leaves when the vector
    store and the listing were answered, and the one it started from
    otherwise. *)
Definition cycle_world (services : SyncEngine.Services)
    (env : SyncEngine.Collaborators) (w : SyncEngine.world)
    : SyncEngine.world :=
  match SyncEngine.ensure_vector_store services,
        SyncEngine.list_pdfs_in_folder services with
  | Returned vector_store_id, Returned drive_files =>
      snd (SyncEngine._process_file_batch env
             (SyncEngine._get_files_to_process (SyncEngine.db w) drive_files)
             vector_store_id w)
  | _, _ => w
  end.

(** The document that a download or a write of the store is about. *)
Definition call_file_id (c : SyncEngine.call) : option str :=
  match c with
  | SyncEngine.Download file_id _ => Some file_id
  | SyncEngine.Upsert file_id _ _ => Some file_id
  | _ => None
  end.

(** Services for the examples: every call succeeds, and the listing holds
    the documents ["a"] and ["b"]. *)
Definition example_services : SyncEngine.Services :=
  {| SyncEngine.ensure_vector_store := Returned (lit "vs_1");
     SyncEngine.list_pdfs_in_folder :=
       Returned [example_file "a" "c1"; example_file "b" "c2"];
     SyncEngine.ensure_assistant := fun _ => Returned (lit "asst_1");
     SyncEngine._prepare_temp_dir := Returned tt |}.

(** A part of a file name: a text that is not empty and has no whitespace
    at either end. *)
Definition name_part (s : str) : Prop := trimmed s /\ s <> [].

(** A year as the file names carry it: four digits. *)
Definition four_digit_year (d : str) : Prop :=
  length d = 4 /\ Forall (fun c => isdigit c = true) d.

(** The head of [b] does not continue a run of characters in [p]. *)
Definition stops (p : ascii -> bool) (b : str) : Prop :=
  match b with [] => True | c :: _ => p c = false end.

End MoreNotions.

Import MoreNotions.

(* ===================================================================== *)
(** * Part II: properties                                                 *)
(* ===================================================================== *)

(** ** Facts about [strip] *)
Section StripFacts.

Lemma lstrip_split (s : str) : exists w, s = w ++ lstrip s /\ blank w.
Proof.
  induction s as [|c s IH]; simpl.
  - exists []. split; [reflexivity | constructor].
  - destruct (isspace c) eqn:Hc.
    + destruct IH as (w & Hs & Hw). exists (c :: w). split.
      * simpl. congruence.
      * constructor; assumption.
    + exists []. split; [reflexivity | constructor].
Qed.

Lemma lstrip_blank_app (w s : str) : blank w -> lstrip (w ++ s) = lstrip s.
Proof.
  induction 1 as [|c w Hc _ IH]; simpl; [reflexivity|].
  rewrite Hc. exact IH.
Qed.

Lemma lstrip_blank (w : str) : blank w -> lstrip w = [].
Proof.
  intros Hw. rewrite <- (app_nil_r w). rewrite lstrip_blank_app by assumption.
  reflexivity.
Qed.

Lemma lstrip_head (c : ascii) (s : str) :
  isspace c = false -> lstrip (c :: s) = c :: s.
Proof. intros Hc. simpl. rewrite Hc. reflexivity. Qed.

Lemma lstrip_cases (s : str) :
  lstrip s = [] \/ exists c r, lstrip s = c :: r /\ isspace c = false.
Proof.
  induction s as [|c s IH]; simpl; [left; reflexivity|].
  destruct (isspace c) eqn:Hc; [exact IH|].
  right. exists c, s. split; [reflexivity | assumption].
Qed.

Lemma lstrip_idem (s : str) : lstrip (lstrip s) = lstrip s.
Proof.
  destruct (lstrip_cases s) as [-> | (c & r & -> & Hc)]; [reflexivity|].
  apply lstrip_head, Hc.
Qed.

Lemma blank_rev (w : str) : blank w -> blank (rev w).
Proof. unfold blank. intros Hw. apply Forall_rev. exact Hw. Qed.

Lemma blank_app (u v : str) : blank u -> blank v -> blank (u ++ v).
Proof. unfold blank. intros. apply Forall_app. split; assumption. Qed.

Lemma rstrip_split (s : str) : exists w, s = rstrip s ++ w /\ blank w.
Proof.
  unfold rstrip. destruct (lstrip_split (rev s)) as (w & Hs & Hw).
  exists (rev w). split; [|apply blank_rev, Hw].
  rewrite <- rev_app_distr, <- Hs, rev_involutive. reflexivity.
Qed.

Lemma rstrip_app_blank (s w : str) : blank w -> rstrip (s ++ w) = rstrip s.
Proof.
  intros Hw. unfold rstrip. rewrite rev_app_distr.
  rewrite lstrip_blank_app by (apply blank_rev, Hw). reflexivity.
Qed.

Lemma rstrip_idem (s : str) : rstrip (rstrip s) = rstrip s.
Proof.
  unfold rstrip. rewrite rev_involutive, lstrip_idem. reflexivity.
Qed.

Lemma rstrip_nil_blank (s : str) : rstrip s = [] -> blank s.
Proof.
  intros H. destruct (rstrip_split s) as (w & Hs & Hw).
  rewrite H in Hs. simpl in Hs. subst. exact Hw.
Qed.

(** Stripping on the right keeps the first character. *)
Lemma rstrip_head (c : ascii) (s : str) :
  isspace c = false -> exists r, rstrip (c :: s) = c :: r.
Proof.
  intros Hc. destruct (rstrip_split (c :: s)) as (w & Hs & Hw).
  destruct (rstrip (c :: s)) as [|d r] eqn:E.
  - simpl in Hs. subst w. inversion Hw; congruence.
  - exists r. simpl in Hs. congruence.
Qed.

Lemma strip_cases (s : str) :
  strip s = [] \/ exists c r, strip s = c :: r /\ isspace c = false.
Proof.
  unfold strip. destruct (lstrip_cases s) as [-> | (c & r & -> & Hc)].
  - left. reflexivity.
  - right. destruct (rstrip_head c r Hc) as (r' & ->).
    exists c, r'. split; [reflexivity | assumption].
Qed.

Lemma lstrip_strip (s : str) : lstrip (strip s) = strip s.
Proof.
  destruct (strip_cases s) as [-> | (c & r & -> & Hc)]; [reflexivity|].
  apply lstrip_head, Hc.
Qed.

Lemma rstrip_strip (s : str) : rstrip (strip s) = strip s.
Proof. unfold strip. apply rstrip_idem. Qed.

Lemma strip_idem (s : str) : strip (strip s) = strip s.
Proof.
  unfold strip at 1. rewrite lstrip_strip. apply rstrip_strip.
Qed.

Lemma strip_trimmed (s : str) : trimmed (strip s).
Proof. apply strip_idem. Qed.

Lemma strip_blank (w : str) : blank w -> strip w = [].
Proof.
  intros Hw. unfold strip. rewrite lstrip_blank by assumption. reflexivity.
Qed.

Lemma strip_nil_blank (s : str) : strip s = [] -> blank s.
Proof.
  unfold strip. intros H. apply rstrip_nil_blank in H.
  destruct (lstrip_split s) as (w & Hs & Hw). rewrite Hs.
  apply blank_app; assumption.
Qed.

(** A trimmed text followed by whitespace strips back to itself. *)
Lemma strip_trimmed_app (s w : str) :
  trimmed s -> blank w -> strip (s ++ w) = s.
Proof.
  unfold trimmed. intros Hs Hw.
  destruct (strip_cases s) as [E | (c & r & E & Hc)]; rewrite Hs in E.
  - subst s. simpl. apply strip_blank, Hw.
  - unfold strip. subst s. change ((c :: r) ++ w) with (c :: (r ++ w)).
    rewrite lstrip_head by assumption.
    change (c :: (r ++ w)) with ((c :: r) ++ w).
    rewrite rstrip_app_blank by assumption.
    rewrite <- Hs at 2. unfold strip. rewrite lstrip_head by assumption.
    reflexivity.
Qed.

Lemma strip_length (s : str) : length (strip s) <= length s.
Proof.
  unfold strip.
  destruct (lstrip_split s) as (w & Hs & _).
  destruct (rstrip_split (lstrip s)) as (w' & Hs' & _).
  rewrite Hs at 2. rewrite Hs' at 2. rewrite !length_app. lia.
Qed.

Lemma nonspace_app (u v : str) : nonspace (u ++ v) = nonspace u ++ nonspace v.
Proof. unfold nonspace. apply List.filter_app. Qed.

Lemma nonspace_blank (w : str) : blank w -> nonspace w = [].
Proof.
  induction 1 as [|c w Hc _ IH]; simpl; [reflexivity|].
  rewrite Hc. simpl. exact IH.
Qed.

Lemma nonspace_lstrip (s : str) : nonspace (lstrip s) = nonspace s.
Proof.
  destruct (lstrip_split s) as (w & Hs & Hw). rewrite Hs at 2.
  rewrite nonspace_app, (nonspace_blank w) by assumption. reflexivity.
Qed.

Lemma nonspace_rstrip (s : str) : nonspace (rstrip s) = nonspace s.
Proof.
  destruct (rstrip_split s) as (w & Hs & Hw). rewrite Hs at 2.
  rewrite nonspace_app, (nonspace_blank w) by assumption.
  rewrite app_nil_r. reflexivity.
Qed.

Lemma nonspace_strip (s : str) : nonspace (strip s) = nonspace s.
Proof. unfold strip. rewrite nonspace_rstrip. apply nonspace_lstrip. Qed.

Lemma truthy_false (s : str) : truthy s = false <-> s = [].
Proof. destruct s; simpl; split; congruence. Qed.

Lemma truthy_true (s : str) : truthy s = true <-> s <> [].
Proof. destruct s; simpl; split; congruence. Qed.

End StripFacts.

(** ** [MetadataInjector] *)
Section InjectorFacts.
Import MetadataInjector.

Lemma truthy_strip_blank (c : str) : blank c -> truthy (strip c) = false.
Proof. intros Hc. rewrite strip_blank by assumption. reflexivity. Qed.

Lemma validate_page_number_blank (v : option pyval) :
  blank_page_number v ->
  validate_page_number (default (PStr Unknown) v) = Unknown.
Proof.
  intros [-> | [-> | (s & -> & Hs)]]; try reflexivity.
  unfold validate_page_number. simpl.
  rewrite truthy_strip_blank by assumption.
  rewrite orb_true_r. reflexivity.
Qed.

Lemma str_field_absent_or_text (v : option pyval) :
  absent_or_text v -> exists s, str_field v = Some s.
Proof. intros [-> | (s & ->)]; simpl; eauto. Qed.

(** What the constructor answers, field by field. *)
Lemma ChunkMetadata_init_cases (m : gmap string pyval) :
  ChunkMetadata_init m = Raised (Exn "ValidationError" "")
  \/ exists t a y,
       str_field (m !! "title"%string) = Some t
       /\ str_field (m !! "author"%string) = Some a
       /\ str_field (m !! "year"%string) = Some y
       /\ ChunkMetadata_init m =
          Returned {| title := t; author := a; year := y;
                      internal_page_number :=
                        validate_page_number
                          (default (PStr Unknown)
                             (m !! "internal_page_number"%string)) |}.
Proof.
  unfold ChunkMetadata_init.
  destruct (str_field (m !! "title"%string)) as [t|];
    [|left; reflexivity].
  destruct (str_field (m !! "author"%string)) as [a|];
    [|left; reflexivity].
  destruct (str_field (m !! "year"%string)) as [y|];
    [|left; reflexivity].
  right. exists t, a, y. repeat split; reflexivity.
Qed.

Lemma inject_metadata_eq (c : str) (m : gmap string pyval) :
  inject_metadata c m =
  Returned (if truthy (strip c)
            then strip c ++ metadata_block (validated m) else c).
Proof.
  unfold inject_metadata, validated.
  destruct c as [|x c]; [reflexivity|].
  simpl truthy at 1. simpl negb at 1. rewrite orb_false_l.
  destruct (truthy (strip (x :: c))); reflexivity.
Qed.

Lemma validated_absent (m : gmap string pyval) :
  (m !! "title"%string = None -> title (validated m) = Unknown)
  /\ (m !! "author"%string = None -> author (validated m) = Unknown)
  /\ (m !! "year"%string = None -> year (validated m) = Unknown).
Proof.
  unfold validated.
  destruct (ChunkMetadata_init_cases m)
    as [-> | (t & a & y & Ht & Ha & Hy & ->)]; simpl.
  - repeat split; reflexivity.
  - repeat split; intros E; rewrite E in *; simpl in *; congruence.
Qed.

Lemma validated_page_blank (m : gmap string pyval) :
  blank_page_number (m !! "internal_page_number"%string) ->
  internal_page_number (validated m) = Unknown.
Proof.
  intros Hb. unfold validated.
  destruct (ChunkMetadata_init_cases m)
    as [-> | (t & a & y & Ht & Ha & Hy & ->)]; simpl; [reflexivity|].
  apply validate_page_number_blank, Hb.
Qed.

Lemma validated_texts (m : gmap string pyval) :
  absent_or_text (m !! "title"%string) ->
  absent_or_text (m !! "author"%string) ->
  absent_or_text (m !! "year"%string) ->
  (forall s, m !! "title"%string = Some (PStr s) -> title (validated m) = s)
  /\ (forall s, m !! "author"%string = Some (PStr s) ->
                author (validated m) = s)
  /\ (forall s, m !! "year"%string = Some (PStr s) -> year (validated m) = s).
Proof.
  intros Ht Ha Hy. unfold validated.
  destruct (str_field_absent_or_text _ Ht) as (t & Et).
  destruct (str_field_absent_or_text _ Ha) as (a & Ea).
  destruct (str_field_absent_or_text _ Hy) as (y & Ey).
  unfold ChunkMetadata_init. rewrite Et, Ea, Ey. simpl.
  repeat split; intros s E; rewrite E in *; simpl in *; congruence.
Qed.

End InjectorFacts.

(** C7.  For every metadata dict and every chunk text that is empty or holds
    whitespace only, [inject_metadata] returns the chunk text unchanged; in
    particular the empty text gives the empty text, and no block of metadata
    alone is produced. *)
Theorem C7_inject_blank_chunk_unchanged
    (c : str) (m : gmap string MetadataInjector.pyval) :
  blank c -> MetadataInjector.inject_metadata c m = Returned c.
Proof.
  intros Hc. rewrite inject_metadata_eq.
  rewrite truthy_strip_blank by assumption. reflexivity.
Qed.

Lemma C7_inject_blank_chunk_witness :
  blank [] /\ blank (lit " " ++ [LF])
  /\ MetadataInjector.inject_metadata []
       {[ "title"%string := MetadataInjector.PStr (lit "T") ]} = Returned []
  /\ MetadataInjector.inject_metadata (lit " " ++ [LF])
       {[ "title"%string := MetadataInjector.PStr (lit "T") ]}
     = Returned (lit " " ++ [LF]).
Proof.
  assert (H0 : blank []) by constructor.
  assert (H1 : blank (lit " " ++ [LF])) by (repeat constructor).
  split; [exact H0|]. split; [exact H1|]. split.
  - apply (C7_inject_blank_chunk_unchanged [] _ H0).
  - apply (C7_inject_blank_chunk_unchanged _ _ H1).
Defined.

(** C3, as the spec states it, fails: a title given as the empty text is
    written as it is, not as ["Unknown"]. *)
Lemma C3_empty_title_counterexample :
  let m : gmap string MetadataInjector.pyval :=
    {[ "title"%string := MetadataInjector.PStr [] ]} in
  m !! "title"%string = Some (MetadataInjector.PStr [])
  /\ MetadataInjector.inject_metadata (lit "body") m
     = Returned
         (lit "body"
          ++ MetadataInjector.metadata_block
               {| MetadataInjector.title := [];
                  MetadataInjector.author := MetadataInjector.Unknown;
                  MetadataInjector.year := MetadataInjector.Unknown;
                  MetadataInjector.internal_page_number :=
                    MetadataInjector.Unknown |})
  /\ ~ (exists meta,
          MetadataInjector.inject_metadata (lit "body") m
          = Returned (lit "body" ++ MetadataInjector.metadata_block meta)
          /\ MetadataInjector.title meta = MetadataInjector.Unknown).
Proof.
  intros m. split; [reflexivity|]. split; [reflexivity|].
  intros ([t a y p] & H & Ht). simpl in Ht. subst t.
  vm_compute in H. discriminate H.
Qed.

(** C3, amended.  [inject_metadata] never raises.  For a chunk that is not
    blank it returns the stripped chunk followed by the metadata block, in
    which title, author and year are ["Unknown"] when their key is absent,
    and the internal page number is ["Unknown"] when its key is absent, is
    [None], or is an empty or whitespace-only text.  When title, author and
    year are each absent or a text, a given text is written as it is.  On
    the text ["body"] and the empty dict the block holds ["Unknown"] in all
    four fields. *)
Theorem C3_inject_metadata_defaults :
  (forall (c : str) (m : gmap string MetadataInjector.pyval),
     exists meta : MetadataInjector.ChunkMetadata,
       MetadataInjector.inject_metadata c m
       = Returned (if truthy (strip c)
                   then strip c ++ MetadataInjector.metadata_block meta
                   else c)
       /\ (m !! "title"%string = None ->
           MetadataInjector.title meta = MetadataInjector.Unknown)
       /\ (m !! "author"%string = None ->
           MetadataInjector.author meta = MetadataInjector.Unknown)
       /\ (m !! "year"%string = None ->
           MetadataInjector.year meta = MetadataInjector.Unknown)
       /\ (blank_page_number (m !! "internal_page_number"%string) ->
           MetadataInjector.internal_page_number meta
           = MetadataInjector.Unknown)
       /\ (absent_or_text (m !! "title"%string) ->
           absent_or_text (m !! "author"%string) ->
           absent_or_text (m !! "year"%string) ->
           (forall s, m !! "title"%string = Some (MetadataInjector.PStr s) ->
                      MetadataInjector.title meta = s)
           /\ (forall s,
                 m !! "author"%string = Some (MetadataInjector.PStr s) ->
                         MetadataInjector.author meta = s)
           /\ (forall s, m !! "year"%string = Some (MetadataInjector.PStr s) ->
                         MetadataInjector.year meta = s)))
  /\ MetadataInjector.inject_metadata (lit "body") ∅
     = Returned
         (lit "body" ++ [LF; LF]
          ++ MetadataInjector.rule ++ [LF]
          ++ lit "**SOURCE METADATA FOR FORENSIC EXTRACTION:**" ++ [LF]
          ++ lit "Title: Unknown" ++ [LF]
          ++ lit "Author: Unknown" ++ [LF]
          ++ lit "Year: Unknown" ++ [LF]
          ++ lit "Internal Pagination: Unknown" ++ [LF]
          ++ MetadataInjector.rule ++ [LF]).
Proof.
  split; [|reflexivity].
  intros c m. exists (validated m).
  split; [apply inject_metadata_eq|].
  destruct (validated_absent m) as (Ht & Ha & Hy).
  repeat split; try assumption.
  - apply validated_page_blank.
  - apply validated_texts; assumption.
  - apply validated_texts; assumption.
  - apply validated_texts; assumption.
Qed.

(** ** [DBManager] and [_get_files_to_process] *)
Section StoreFacts.
Import DBManager SyncEngine.

Lemma has_id_true (i : str) (r : ChecksumRecord) :
  has_id i r = true <-> file_id r = i.
Proof. unfold has_id. apply bool_decide_eq_true. Qed.

Lemma has_id_false (i : str) (r : ChecksumRecord) :
  has_id i r = false <-> file_id r <> i.
Proof. unfold has_id. apply bool_decide_eq_false. Qed.

Lemma table_get_none (i : str) (t : table) :
  table_get i t = None <-> forall r, In r t -> file_id r <> i.
Proof.
  unfold table_get. split.
  - intros H r Hr. apply has_id_false. eapply find_none; eassumption.
  - intros H. induction t as [|r t IH]; simpl; [reflexivity|].
    destruct (has_id i r) eqn:E.
    + apply has_id_true in E. exfalso.
      apply (H r); [left; reflexivity | exact E].
    + apply IH. intros r' Hr'. apply H. right. exact Hr'.
Qed.

(** [table_get] answers the first document of the table with the id. *)
Lemma table_get_first (i : str) (t : table) (r : ChecksumRecord) :
  table_get i t = Some r <->
  exists t1 t2, t = t1 ++ r :: t2 /\ file_id r = i
                /\ forall r', In r' t1 -> file_id r' <> i.
Proof.
  unfold table_get. induction t as [|x t IH]; simpl.
  - split; [discriminate|]. intros (t1 & t2 & E & _). destruct t1; discriminate.
  - destruct (has_id i x) eqn:Ex.
    + apply has_id_true in Ex. split.
      * intros [= ->]. exists [], t. repeat split; [exact Ex|]. intros r' [].
      * intros ([|y t1] & t2 & E & Hr & Hno); simpl in E.
        -- congruence.
        -- injection E as -> _. exfalso.
           apply (Hno y); [left; reflexivity | exact Ex].
    + apply has_id_false in Ex. rewrite IH. split.
      * intros (t1 & t2 & -> & Hr & Hno). exists (x :: t1), t2.
        repeat split; [exact Hr|]. intros r' [<- | Hr']; [exact Ex | auto].
      * intros ([|y t1] & t2 & E & Hr & Hno); simpl in E.
        -- injection E as -> _. contradiction.
        -- injection E as -> ->. exists t1, t2. repeat split; [exact Hr|].
           intros r' Hr'. apply Hno. right. exact Hr'.
Qed.

Lemma find_app_str {A : Type} (f : A -> bool) (l l' : list A) :
  List.find f (l ++ l') =
  match List.find f l with Some x => Some x | None => List.find f l' end.
Proof.
  induction l as [|x l IH]; simpl; [reflexivity|].
  destruct (f x); [reflexivity | exact IH].
Qed.

(** The store after an upsert, read through [check_file_status]. *)
Lemma check_file_status_upsert (i j : str) (doc : ChecksumRecord) (t : table) :
  file_id doc = j ->
  check_file_status i (table_upsert doc j t) =
  if bool_decide (i = j) then (true, checksum doc) else check_file_status i t.
Proof.
  intros Hdoc. unfold check_file_status, table_upsert, table_get.
  destruct (existsb (has_id j) t) eqn:Hex.
  - case_bool_decide as Hij.
    + subst i.
      assert (H : List.find (has_id j)
                    (map (fun r => if has_id j r then doc else r) t)
                  = Some doc).
      { induction t as [|r t IH]; simpl in *; [discriminate|].
        destruct (has_id j r) eqn:Er.
        - assert (Ed : has_id j doc = true) by (apply has_id_true; exact Hdoc).
          rewrite Ed. reflexivity.
        - rewrite Er. apply IH. exact Hex. }
      rewrite H. reflexivity.
    + assert (H : List.find (has_id i)
                    (map (fun r => if has_id j r then doc else r) t)
                  = List.find (has_id i) t).
      { clear Hex. induction t as [|r t IH]; simpl; [reflexivity|].
        destruct (has_id j r) eqn:Er.
        - apply has_id_true in Er.
          assert (E1 : has_id i doc = false)
            by (apply has_id_false; congruence).
          assert (E2 : has_id i r = false) by (apply has_id_false; congruence).
          rewrite E1, E2. exact IH.
        - destruct (has_id i r); [reflexivity | exact IH]. }
      rewrite H. reflexivity.
  - rewrite find_app_str. simpl. case_bool_decide as Hij.
    + subst i.
      assert (H : List.find (has_id j) t = None).
      { apply table_get_none. intros r Hr. apply has_id_false.
        destruct (has_id j r) eqn:Er; [|reflexivity].
        assert (existsb (has_id j) t = true)
          by (apply existsb_exists; exists r; split; assumption).
        congruence. }
      rewrite H.
      assert (Ed : has_id j doc = true) by (apply has_id_true; exact Hdoc).
      rewrite Ed. reflexivity.
    + assert (Ed : has_id i doc = false) by (apply has_id_false; congruence).
      rewrite Ed. destruct (List.find (has_id i) t); reflexivity.
Qed.

Lemma compare_step_eq (t : table) (q : list DriveFile) (f : DriveFile) :
  compare_step t q f = if needs_sync t f then q ++ [f] else q.
Proof.
  unfold compare_step, needs_sync.
  destruct (check_file_status (id f) t) as [p s].
  destruct p; simpl; [|reflexivity].
  destruct (bool_decide (s = md5Checksum f)); reflexivity.
Qed.

Lemma get_files_to_process_from (t : table) (files q : list DriveFile) :
  fold_left (compare_step t) files q = q ++ List.filter (needs_sync t) files.
Proof.
  revert q. induction files as [|f files IH]; intros q; simpl.
  - rewrite app_nil_r. reflexivity.
  - rewrite IH, compare_step_eq. destruct (needs_sync t f); [|reflexivity].
    rewrite <- app_assoc. reflexivity.
Qed.

Lemma get_files_to_process_filter (t : table) (files : list DriveFile) :
  _get_files_to_process t files = List.filter (needs_sync t) files.
Proof. unfold _get_files_to_process. apply get_files_to_process_from. Qed.

(** The decision in the words of the policy: no document of the store has
    the id, or the first one that has it holds another checksum. *)
Lemma needs_sync_policy (t : table) (f : DriveFile) :
  needs_sync t f = true <->
  (forall r, In r t -> file_id r <> id f)
  \/ (exists r, table_get (id f) t = Some r /\ checksum r <> md5Checksum f).
Proof.
  unfold needs_sync, check_file_status.
  destruct (table_get (id f) t) as [r|] eqn:E; simpl.
  - rewrite negb_true_iff, bool_decide_eq_false. split.
    + intros H. right. exists r. split; [reflexivity | exact H].
    + intros [H | (r' & [= <-] & H)]; [|exact H].
      apply table_get_none in H. congruence.
  - split; [|reflexivity]. intros _. left. apply table_get_none, E.
Qed.

Lemma needs_sync_commit (t : table) (f g : DriveFile) :
  needs_sync (commit t g) f =
  if bool_decide (id f = id g)
  then negb (bool_decide (md5Checksum g = md5Checksum f))
  else needs_sync t f.
Proof.
  unfold needs_sync, commit.
  rewrite check_file_status_upsert by reflexivity.
  case_bool_decide; reflexivity.
Qed.

(** Once the entries of [done] are committed, in any order, an entry of a
    listing with one checksum per id needs no processing if it needed none
    before or if an entry with its id is among [done]. *)
Lemma needs_sync_after_commits (files done : list DriveFile) :
  one_checksum_per_id files ->
  (forall g, In g done -> In g files) ->
  forall (t : table) (f : DriveFile),
    In f files ->
    needs_sync t f = false \/ (exists g, In g done /\ id g = id f) ->
    needs_sync (fold_left commit done t) f = false.
Proof.
  intros Hone. induction done as [|g done IH]; intros Hsub t f Hf Hcase; simpl.
  - destruct Hcase as [H | (g & [] & _)]. exact H.
  - apply IH; [intros g' Hg'; apply Hsub; right; exact Hg' | exact Hf |].
    rewrite needs_sync_commit. case_bool_decide as Hid.
    + left. rewrite negb_false_iff, bool_decide_eq_true.
      apply Hone; [apply Hsub; left; reflexivity | exact Hf | congruence].
    + destruct Hcase as [H | (g' & [<- | Hg'] & Hid')].
      * left. exact H.
      * congruence.
      * right. exists g'. split; assumption.
Qed.

End StoreFacts.

(** C1.  For every listing and every state of the store, the queue of
    [_get_files_to_process] is the listing filtered, in its order, by a test
    that holds of an entry exactly when the store has no document with the
    entry's id, or the document stored for that id holds a checksum that
    differs from the entry's [md5Checksum]. *)
Theorem C1_get_files_to_process_selects
    (t : DBManager.table) (drive_files : list SyncEngine.DriveFile) :
  exists keep : SyncEngine.DriveFile -> bool,
    SyncEngine._get_files_to_process t drive_files
    = List.filter keep drive_files
    /\ forall f : SyncEngine.DriveFile,
         keep f = true <->
         (forall r, In r t -> DBManager.file_id r <> SyncEngine.id f)
         \/ (exists r, DBManager.table_get (SyncEngine.id f) t = Some r
                       /\ DBManager.checksum r <> SyncEngine.md5Checksum f).
Proof.
  exists (needs_sync t). split.
  - apply get_files_to_process_filter.
  - apply needs_sync_policy.
Qed.

(** ** The worker and the batch *)
Section WorkerFacts.
Import DBManager SyncEngine.
Local Arguments lit : simpl never.

Ltac upsert_cases H :=
  simpl in H;
  repeat (destruct H as [H | H]; [try discriminate H|]);
  try contradiction.

(** The run of a worker: it returns, the store is the old one or the old
    one with the entry committed, and the calls made start with the
    download.  A write to the store comes last, right after an upload that
    answered a truthy status. *)
Lemma process_single_file_run (env : Collaborators) (file : DriveFile)
    (vs : str) (w : world) :
  exists (b : bool) (rest : list call),
    _process_single_file env file vs w
    = (Returned b,
       {| db := if b then commit (db w) file else db w;
          calls := calls w ++ Download (id file) (name file) :: rest |})
    /\ (b = true -> upload_confirmed env file vs)
    /\ (forall i s k, In (Upsert i s k) rest ->
          upload_confirmed env file vs
          /\ exists pre p st,
               rest = pre ++ [Upload p vs (Returned st); Upsert i s k]
               /\ truthy st = true
               /\ i = id file /\ s = md5Checksum file /\ k = b
               /\ forall c, In c pre -> is_upsert c = false).
Proof.
  unfold _process_single_file, pipeline, bind, try_except, invoke, lift, ret,
    raise, db_mark_file_as_processed, mark_file_as_processed.
  simpl.
  destruct (download_file env (id file) (name file) TEMP_DIR)
    as [[[|c lp]|]|e] eqn:Ed; simpl;
    try (exists false, []; split; [reflexivity|];
         split; [discriminate | intros i s k []]).
  destruct (_parse_filename_metadata (name file)) as [[y a] t] eqn:Ep.
  simpl.
  destruct (extract_document env (c :: lp)) as [pages|e] eqn:Ee; simpl.
  2:{ exists false, [Extract (c :: lp)]. rewrite <- app_assoc.
      split; [reflexivity|]. split; [discriminate|].
      intros i s k H. upsert_cases H. }
  destruct (enrich_pages t a y pages []) as [blocks|e] eqn:En; simpl.
  2:{ exists false, [Extract (c :: lp)]. rewrite <- app_assoc.
      split; [reflexivity|]. split; [discriminate|].
      intros i s k H. upsert_cases H. }
  set (path := c :: lp ++ lit "_processed.txt").
  set (content := join [LF; LF] blocks).
  destruct (_write_text_file env path content) as [[]|e] eqn:Ew; simpl.
  2:{ exists false, [Extract (c :: lp); WriteText path content].
      rewrite <- !app_assoc.
      split; [reflexivity|]. split; [discriminate|].
      intros i s k H. upsert_cases H. }
  destruct (upload_file_to_store env path vs) as [st|e] eqn:Eu; simpl.
  2:{ exists false,
        [Extract (c :: lp); WriteText path content; Upload path vs (Raised e)].
      rewrite <- !app_assoc.
      split; [reflexivity|]. split; [discriminate|].
      intros i s k H. upsert_cases H. }
  destruct (truthy st) eqn:Et; simpl.
  2:{ exists false,
        [Extract (c :: lp); WriteText path content;
         Upload path vs (Returned st)].
      rewrite <- !app_assoc.
      split; [reflexivity|]. split; [discriminate|].
      intros i s k H. upsert_cases H. }
  assert (Hok : upload_confirmed env file vs).
  { exists (c :: lp), pages, blocks, st. rewrite Ep.
    repeat split; assumption. }
  fold (record_of file). fold (commit (db w) file).
  destruct (storage_write env (commit (db w) file)) as [[]|e] eqn:Es; simpl.
  - exists true,
      [Extract (c :: lp); WriteText path content;
       Upload path vs (Returned st); Upsert (id file) (md5Checksum file) true].
    rewrite <- !app_assoc.
    split; [reflexivity|]. split; [intros _; exact Hok|].
    intros i s k H. upsert_cases H. injection H as <- <- <-.
    split; [exact Hok|].
    exists [Extract (c :: lp); WriteText path content], path, st.
    repeat split; try assumption.
    intros x Hx. upsert_cases Hx; subst x; reflexivity.
  - exists false,
      [Extract (c :: lp); WriteText path content;
       Upload path vs (Returned st); Upsert (id file) (md5Checksum file) false].
    rewrite <- !app_assoc.
    split; [reflexivity|]. split; [discriminate|].
    intros i s k H. upsert_cases H. injection H as <- <- <-.
    split; [exact Hok|].
    exists [Extract (c :: lp); WriteText path content], path, st.
    repeat split; try assumption.
    intros x Hx. upsert_cases Hx; subst x; reflexivity.
Qed.

Lemma worker_returns (env : Collaborators) (file : DriveFile) (vs : str)
    (w : world) :
  exists (b : bool) (w' : world),
    _process_single_file env file vs w = (Returned b, w').
Proof.
  destruct (process_single_file_run env file vs w) as (b & rest & E & _).
  eauto.
Qed.

(** The results of the workers of a batch. *)
Lemma gather_workers_run (env : Collaborators) (vs : str)
    (files : list DriveFile) (w : world) :
  exists (results : list bool) (w' : world) (new : list call),
    gather (map (fun file => _process_single_file env file vs) files) w
    = (Returned results, w')
    /\ length results = length files
    /\ calls w' = calls w ++ new
    /\ (forall file, In file files -> In (Download (id file) (name file)) new)
    /\ (forallb (fun r => r) results = true ->
        db w' = fold_left commit files (db w)).
Proof.
  revert w. induction files as [|file files IH]; intros w.
  - exists [], w, []. simpl. unfold ret. rewrite app_nil_r.
    repeat split; try reflexivity. intros file [].
  - destruct (process_single_file_run env file vs w) as (b & rest & E & _).
    set (w1 := {| db := if b then commit (db w) file else db w;
                  calls := calls w ++ Download (id file) (name file) :: rest |})
      in E.
    destruct (IH w1) as (results & w' & new & Eg & Hlen & Hcalls & Hdl & Hdb).
    exists (b :: results), w', (Download (id file) (name file) :: rest ++ new).
    split; [|split; [|split; [|split]]].
    + simpl. unfold bind at 1. rewrite E. unfold bind at 1. rewrite Eg.
      reflexivity.
    + simpl. congruence.
    + rewrite Hcalls. simpl. rewrite <- app_assoc. reflexivity.
    + intros f [<- | Hf]; [left; reflexivity|].
      right. apply in_or_app. right. apply Hdl, Hf.
    + simpl. intros Hall. apply andb_prop in Hall as [Hb Hall].
      rewrite Hdb by exact Hall. subst b. reflexivity.
Qed.

Lemma filter_true_length (results : list bool) :
  length (List.filter (fun r => r) results) <= length results
  /\ (length (List.filter (fun r => r) results) = length results ->
      forallb (fun r => r) results = true).
Proof.
  induction results as [|[] results [IH1 IH2]]; simpl.
  - split; [lia | reflexivity].
  - split; [lia|]. intros H. apply IH2. lia.
  - split; [lia|]. intros H. lia.
Qed.

(** The summary of a batch. *)
Lemma process_file_batch_run (env : Collaborators) (files : list DriveFile)
    (vs : str) (w : world) :
  exists (results : list bool) (w' : world) (new : list call),
    _process_file_batch env files vs w
    = (Returned
         (Z.of_nat (length (List.filter (fun r => r) results)),
          (Z.of_nat (length files)
           - Z.of_nat (length (List.filter (fun r => r) results)))%Z),
       w')
    /\ length results = length files
    /\ calls w' = calls w ++ new
    /\ (forall file, In file files -> In (Download (id file) (name file)) new)
    /\ (forallb (fun r => r) results = true ->
        db w' = fold_left commit files (db w)).
Proof.
  destruct (gather_workers_run env vs files w)
    as (results & w' & new & Eg & Hrest).
  exists results, w', new. split; [|exact Hrest].
  unfold _process_file_batch, bind. rewrite Eg. reflexivity.
Qed.

(** The calls of a worker whose upload is confirmed. *)
Lemma process_single_file_confirmed (env : Collaborators) (file : DriveFile)
    (vs : str) (w : world) :
  upload_confirmed env file vs ->
  exists (path content status : str),
    let made written :=
      [Download (id file) (name file); Extract path;
       WriteText (path ++ lit "_processed.txt") content;
       Upload (path ++ lit "_processed.txt") vs (Returned status);
       Upsert (id file) (md5Checksum file) written] in
    truthy status = true
    /\ _process_single_file env file vs w =
       match storage_write env (commit (db w) file) with
       | Returned _ =>
           (Returned true,
            {| db := commit (db w) file; calls := calls w ++ made true |})
       | Raised _ =>
           (Returned false,
            {| db := db w; calls := calls w ++ made false |})
       end.
Proof.
  intros (lp & pages & blocks & st & Ed & Hlp & Ee & En & Ew & Eu & Hst).
  exists lp, (join [LF; LF] blocks), st. split; [exact Hst|].
  unfold _process_single_file, pipeline, bind, try_except, invoke, lift, ret,
    raise, db_mark_file_as_processed, mark_file_as_processed.
  simpl. rewrite Ed. simpl.
  destruct lp as [|c lp]; [discriminate Hlp|].
  destruct (_parse_filename_metadata (name file)) as [[y a] t].
  simpl in Ew, Eu.
  simpl. rewrite Ee. simpl. rewrite En. simpl.
  rewrite Ew. simpl. rewrite Eu. simpl. rewrite Hst. simpl.
  fold (record_of file). fold (commit (db w) file).
  destruct (storage_write env (commit (db w) file)) as [[]|e]; simpl;
    rewrite <- !app_assoc; reflexivity.
Qed.

(** What makes a worker answer [False]: an exception out of the [try]
    block, a stage that raises or a download without a path, an upload that
    is not confirmed, a write of the store that raises. *)
Lemma worker_contains_failures (env : Collaborators) (file : DriveFile)
    (vs : str) (w : world) :
  exists (b : bool) (w' : world),
    _process_single_file env file vs w = (Returned b, w')
    /\ (forall e w1,
          pipeline env file vs w = (Raised e, w1) -> b = false /\ w' = w1)
    /\ (forall e,
          download_file env (id file) (name file) TEMP_DIR = Raised e ->
          b = false)
    /\ (download_file env (id file) (name file) TEMP_DIR = Returned None
        \/ download_file env (id file) (name file) TEMP_DIR
           = Returned (Some []) ->
        b = false)
    /\ (forall local_path e,
          download_file env (id file) (name file) TEMP_DIR
          = Returned (Some local_path) ->
          extract_document env local_path = Raised e ->
          b = false)
    /\ (~ upload_confirmed env file vs -> b = false)
    /\ (forall e,
          storage_write env (commit (db w) file) = Raised e -> b = false).
Proof.
  destruct (process_single_file_run env file vs w) as (b & rest & E & Hb & _).
  eexists b, _. split; [exact E|].
  assert (Hnot : ~ upload_confirmed env file vs -> b = false).
  { intros Hno. destruct b; [|reflexivity]. exfalso. apply Hno, Hb.
    reflexivity. }
  split; [|split; [|split; [|split; [|split; [exact Hnot|]]]]].
  - intros e w1 Hp.
    unfold _process_single_file, bind, try_except in E. rewrite Hp in E.
    unfold ret in E. simpl in E. injection E as <- <-.
    split; reflexivity.
  - intros e Ed. apply Hnot.
    intros (lp & pages & blocks & st & Ed' & _). congruence.
  - intros Ed. apply Hnot.
    intros (lp & pages & blocks & st & Ed' & Hlp & _).
    destruct Ed as [Ed | Ed]; rewrite Ed in Ed'; [discriminate Ed'|].
    injection Ed' as <-. discriminate Hlp.
  - intros lp e Ed Ee. apply Hnot.
    intros (lp' & pages & blocks & st & Ed' & _ & Ee' & _).
    rewrite Ed in Ed'. injection Ed' as <-. congruence.
  - intros e Es. destruct b; [|reflexivity].
    destruct (process_single_file_confirmed env file vs w (Hb eq_refl))
      as (path & content & st & _ & E').
    rewrite Es, E in E'. discriminate E'.
Qed.

End WorkerFacts.

(** C2.  A worker writes the store only after the upload has answered a
    truthy status: among the calls it makes, a write to the store is the
    last one, it carries the id and the checksum of the worker's document,
    and the call just before it is an upload that returned such a status.
    If a stage up to the upload raises, or the upload answers a falsy
    status, the worker returns [False] and the store is the one it started
    from, so the document is selected again by the next comparison exactly
    when it was selected by this one. *)
Theorem C2_checksum_written_only_after_upload
    (env : SyncEngine.Collaborators) (file : SyncEngine.DriveFile)
    (vs : str) (w : SyncEngine.world) :
  exists (b : bool) (w' : SyncEngine.world) (new : list SyncEngine.call),
    SyncEngine._process_single_file env file vs w = (Returned b, w')
    /\ SyncEngine.calls w' = SyncEngine.calls w ++ new
    /\ (forall pre i s k post,
          new = pre ++ SyncEngine.Upsert i s k :: post ->
          post = []
          /\ i = SyncEngine.id file /\ s = SyncEngine.md5Checksum file
          /\ exists pre' p st,
               pre = pre' ++ [SyncEngine.Upload p vs (Returned st)]
               /\ truthy st = true)
    /\ (~ upload_confirmed env file vs ->
        b = false
        /\ SyncEngine.db w' = SyncEngine.db w
        /\ (forall c, In c new -> is_upsert c = false)
        /\ DBManager.check_file_status (SyncEngine.id file) (SyncEngine.db w')
           = DBManager.check_file_status (SyncEngine.id file) (SyncEngine.db w)
        /\ needs_sync (SyncEngine.db w') file
           = needs_sync (SyncEngine.db w) file).
Proof.
  destruct (process_single_file_run env file vs w)
    as (b & rest & E & Hb & Hups).
  eexists b, _, (SyncEngine.Download (SyncEngine.id file)
                   (SyncEngine.name file) :: rest).
  split; [exact E|]. split; [reflexivity|]. split.
  - intros pre i s k post Hnew.
    assert (Hin : In (SyncEngine.Upsert i s k) rest).
    { destruct pre as [|x pre]; simpl in Hnew; [discriminate Hnew|].
      injection Hnew as _ ->. apply in_or_app. right. left. reflexivity. }
    destruct (Hups i s k Hin)
      as (_ & pre0 & p & st & Hrest & Hst & -> & -> & _ & Hpre0).
    destruct pre as [|x pre]; simpl in Hnew; [discriminate Hnew|].
    injection Hnew as Hx Hnew. subst x.
    assert (Hsplit : pre = pre0 ++ [SyncEngine.Upload p vs (Returned st)]
                     /\ post = []).
    { rewrite Hrest in Hnew. clear - Hnew Hpre0.
      revert pre Hnew. induction pre0 as [|y pre0 IH]; intros pre Hnew.
      - simpl in Hnew. destruct pre as [|z pre]; simpl in Hnew.
        + discriminate Hnew.
        + injection Hnew as <- Hnew. destruct pre as [|z pre]; simpl in Hnew.
          * injection Hnew as <-. split; reflexivity.
          * injection Hnew as _ Hnew. destruct pre; discriminate Hnew.
      - destruct pre as [|z pre]; simpl in Hnew.
        + injection Hnew as Hy _. subst y.
          specialize (Hpre0 _ (or_introl eq_refl)). discriminate Hpre0.
        + injection Hnew as <- Hnew.
          destruct (IH (fun c Hc => Hpre0 c (or_intror Hc)) pre Hnew)
            as [-> ->].
          split; reflexivity. }
    destruct Hsplit as [-> ->].
    split; [reflexivity|]. split; [reflexivity|]. split; [reflexivity|].
    exists (SyncEngine.Download (SyncEngine.id file) (SyncEngine.name file)
            :: pre0), p, st.
    split; [reflexivity | exact Hst].
  - intros Hno.
    assert (Eb : b = false).
    { destruct b; [exfalso; apply Hno, Hb; reflexivity | reflexivity]. }
    subst b. simpl.
    split; [reflexivity|]. split; [reflexivity|]. split.
    + intros c [<- | Hc]; [reflexivity|].
      destruct c; try reflexivity.
      exfalso. apply Hno. eapply Hups. exact Hc.
    + split; reflexivity.
Qed.

(** C8.  An exception raised while a worker processes its document does
    not leave the worker: the worker returns, and it answers [False], with
    the world as the exception left it, whenever the [try] block raises.
    So it answers [False] when the download, the extraction, the write of
    the text, the upload or the write of the store raises, and when the
    download gives no path.  (An exception is one that [except Exception]
    catches.)  A batch therefore runs the worker of every queued file (each
    one gets to its download), and the counts it reports are not negative,
    the failed count is the number of workers that did not answer [True],
    and the two counts add up to the number of queued files. *)
Theorem C8_failures_are_contained_and_counted :
  (forall (env : SyncEngine.Collaborators) (file : SyncEngine.DriveFile)
          (vs : str) (w : SyncEngine.world),
     exists (b : bool) (w' : SyncEngine.world),
       SyncEngine._process_single_file env file vs w = (Returned b, w')
       /\ (forall e w1,
             SyncEngine.pipeline env file vs w = (Raised e, w1) ->
             b = false /\ w' = w1)
       /\ (forall e,
             SyncEngine.download_file env (SyncEngine.id file)
               (SyncEngine.name file) SyncEngine.TEMP_DIR = Raised e ->
             b = false)
       /\ (SyncEngine.download_file env (SyncEngine.id file)
             (SyncEngine.name file) SyncEngine.TEMP_DIR = Returned None
           \/ SyncEngine.download_file env (SyncEngine.id file)
                (SyncEngine.name file) SyncEngine.TEMP_DIR
              = Returned (Some []) ->
           b = false)
       /\ (forall local_path e,
             SyncEngine.download_file env (SyncEngine.id file)
               (SyncEngine.name file) SyncEngine.TEMP_DIR
             = Returned (Some local_path) ->
             SyncEngine.extract_document env local_path = Raised e ->
             b = false)
       /\ (~ upload_confirmed env file vs -> b = false)
       /\ (forall e,
             SyncEngine.storage_write env (commit (SyncEngine.db w) file)
             = Raised e ->
             b = false))
  /\ (forall (env : SyncEngine.Collaborators)
             (files : list SyncEngine.DriveFile) (vs : str)
             (w : SyncEngine.world),
        exists (success_count fail_count : Z) (w' : SyncEngine.world),
          SyncEngine._process_file_batch env files vs w
          = (Returned (success_count, fail_count), w')
          /\ (success_count + fail_count = Z.of_nat (length files))%Z
          /\ (0 <= success_count)%Z /\ (0 <= fail_count)%Z
          /\ (forall file, In file files ->
                In (SyncEngine.Download (SyncEngine.id file)
                      (SyncEngine.name file))
                   (SyncEngine.calls w'))
          /\ exists results : list bool,
               SyncEngine.gather
                 (map (fun file => SyncEngine._process_single_file env file vs)
                      files) w
               = (Returned results, w')
               /\ length results = length files
               /\ success_count
                  = Z.of_nat (length (List.filter (fun r => r) results))
               /\ fail_count
                  = Z.of_nat (length (List.filter negb results))).
Proof.
  split; [apply worker_contains_failures|].
  intros env files vs w.
  destruct (gather_workers_run env vs files w)
    as (results & w' & new & Eg & Hlen & Hcalls & Hdl & _).
  destruct (filter_true_length results) as [Hle _].
  assert (Hneg : length (List.filter negb results)
                 + length (List.filter (fun r => r) results)
                 = length results).
  { clear. induction results as [|[] results IH]; simpl; lia. }
  exists (Z.of_nat (length (List.filter (fun r => r) results))),
         (Z.of_nat (length files)
          - Z.of_nat (length (List.filter (fun r => r) results)))%Z, w'.
  split.
  { unfold SyncEngine._process_file_batch, SyncEngine.bind. rewrite Eg.
    reflexivity. }
  split; [lia|]. split; [lia|]. split; [lia|]. split.
  - intros file Hf. rewrite Hcalls. apply in_or_app. right. apply Hdl, Hf.
  - exists results. split; [exact Eg|]. split; [exact Hlen|].
    split; [reflexivity | lia].
Qed.

(** ** Two comparisons in a row *)
Section IdempotenceFacts.
Import DBManager SyncEngine.

Lemma filter_none {A : Type} (f : A -> bool) (l : list A) :
  (forall x, In x l -> f x = false) -> List.filter f l = [].
Proof.
  induction l as [|x l IH]; intros H; simpl; [reflexivity|].
  rewrite (H x) by (left; reflexivity).
  apply IH. intros y Hy. apply H. right. exact Hy.
Qed.

(** When every entry of the queue has been committed, in any order, the
    next comparison selects nothing. *)
Lemma get_files_to_process_after_commits (t : table)
    (files order : list DriveFile) :
  one_checksum_per_id files ->
  Permutation (_get_files_to_process t files) order ->
  _get_files_to_process (fold_left commit order t) files = [].
Proof.
  intros Hone Hperm.
  rewrite get_files_to_process_filter in Hperm.
  rewrite get_files_to_process_filter.
  apply filter_none. intros f Hf.
  apply (needs_sync_after_commits files order); try assumption.
  - intros g Hg. apply Permutation_sym in Hperm.
    apply (Permutation_in _ Hperm) in Hg.
    apply List.filter_In in Hg. tauto.
  - destruct (needs_sync t f) eqn:E; [|left; reflexivity].
    right. exists f. split; [|reflexivity].
    apply (Permutation_in _ Hperm). apply List.filter_In. tauto.
Qed.

End IdempotenceFacts.

(** C6.  Take a listing in which entries with the same id carry the same
    checksum, and the queue that the comparison selects from it.  When the
    batch has processed the queue, its workers writing the store in any
    order, and reports no failure, the comparison of the same listing with
    the store selects nothing.  For the listing with the one entry of id
    ["a"] and checksum ["x"] and the empty store: the queue holds exactly
    that entry; after its worker has answered [True] the store maps ["a"] to
    ["x"]; and the comparison of the same listing then gives the empty
    queue. *)
Theorem C6_second_comparison_selects_nothing :
  (forall (env : SyncEngine.Collaborators)
          (files order : list SyncEngine.DriveFile) (vs : str)
          (w w' : SyncEngine.world) (success_count : Z),
     one_checksum_per_id files ->
     Permutation (SyncEngine._get_files_to_process (SyncEngine.db w) files)
                 order ->
     SyncEngine._process_file_batch env order vs w
     = (Returned (success_count, 0%Z), w') ->
     SyncEngine._get_files_to_process (SyncEngine.db w') files = [])
  /\ (forall (env : SyncEngine.Collaborators) (file_name vs : str)
             (cs : list SyncEngine.call) (w' : SyncEngine.world),
        let a := {| SyncEngine.id := lit "a";
                    SyncEngine.name := file_name;
                    SyncEngine.md5Checksum := Some (lit "x") |} in
        SyncEngine._get_files_to_process [] [a] = [a]
        /\ (SyncEngine._process_single_file env a vs
              {| SyncEngine.db := []; SyncEngine.calls := cs |}
            = (Returned true, w') ->
            SyncEngine.db w'
            = [ {| DBManager.file_id := lit "a";
                   DBManager.file_name := file_name;
                   DBManager.checksum := Some (lit "x");
                   DBManager.status := lit "synced" |} ]
            /\ DBManager.check_file_status (lit "a") (SyncEngine.db w')
               = (true, Some (lit "x"))
            /\ SyncEngine._get_files_to_process (SyncEngine.db w') [a] = [])).
Proof.
  split.
  - intros env files order vs w w' n Hone Hperm Hrun.
    destruct (process_file_batch_run env order vs w)
      as (results & w1 & new & E & Hlen & _ & _ & Hdb).
    rewrite E in Hrun. injection Hrun as Hn H0 ->.
    rewrite Hdb.
    + apply get_files_to_process_after_commits; assumption.
    + apply filter_true_length. lia.
  - intros env file_name vs cs w' a. split; [reflexivity|].
    intros Hrun.
    destruct (process_single_file_run env a vs
                {| SyncEngine.db := []; SyncEngine.calls := cs |})
      as (b & rest & E & _).
    rewrite E in Hrun. injection Hrun as -> <-. simpl.
    split; [reflexivity|]. split; reflexivity.
Qed.

Lemma C6_second_comparison_witness :
  let env :=
    {| SyncEngine.download_file :=
         fun _ file_name dir => Returned (Some (dir ++ lit "/" ++ file_name));
       SyncEngine.extract_document :=
         fun _ => Returned
           [ {| SyncEngine.page_index := 0;
                SyncEngine.text := lit "One clause. Another clause.";
                SyncEngine.page_internal_number := lit "12" |} ];
       SyncEngine._write_text_file := fun _ _ => Returned tt;
       SyncEngine.upload_file_to_store :=
         fun _ _ => Returned (lit "upload_success");
       SyncEngine.storage_write := fun _ => Returned tt |} in
  let files :=
    [ {| SyncEngine.id := lit "a"; SyncEngine.name := lit "2020 - A - T.pdf";
         SyncEngine.md5Checksum := Some (lit "x") |};
      {| SyncEngine.id := lit "b"; SyncEngine.name := lit "Notes.pdf";
         SyncEngine.md5Checksum := Some (lit "y") |} ] in
  let w := {| SyncEngine.db := []; SyncEngine.calls := [] |} in
  let queue := SyncEngine._get_files_to_process (SyncEngine.db w) files in
  queue = files
  /\ SyncEngine._get_files_to_process
       (SyncEngine.db
          (snd (SyncEngine._process_file_batch env queue (lit "vs") w)))
       files = [].
Proof.
  intros env files w queue. split; [reflexivity|].
  apply (proj1 C6_second_comparison_selects_nothing env files queue (lit "vs")
           w (snd (SyncEngine._process_file_batch env queue (lit "vs") w))
           2%Z).
  - intros f g Hf Hg Hid. simpl in Hf, Hg.
    destruct Hf as [<- | [<- | []]]; destruct Hg as [<- | [<- | []]];
      solve [reflexivity | discriminate Hid].
  - apply Permutation_refl.
  - vm_compute. reflexivity.
Defined.

(** ** The semaphore *)
Section GateFacts.
Import SyncEngine.

Lemma in_flight_insert (ws : list phase) (i : nat) (p q : phase) :
  ws !! i = Some p ->
  length (List.filter holds_permit (<[i := q]> ws))
  + Nat.b2n (holds_permit p)
  = length (List.filter holds_permit ws) + Nat.b2n (holds_permit q).
Proof.
  revert i. induction ws as [|x ws IH]; intros [|i] H; simpl in H;
    try discriminate H.
  - injection H as ->. simpl.
    destruct (holds_permit p), (holds_permit q); simpl; lia.
  - specialize (IH i H). simpl.
    destruct (holds_permit x); simpl; lia.
Qed.

Lemma next_phase_holds (p q : phase) :
  next_phase p = Some q -> holds_permit p = true /\ holds_permit q = true.
Proof. destruct p; simpl; intros [= <-]; split; reflexivity. Qed.

(** A step keeps the sum of the permits left and the workers in flight. *)
Lemma gate_step_balance (g g' : gate) :
  gate_step g g' ->
  in_flight g' + permits g' = in_flight g + permits g.
Proof.
  unfold in_flight. intros [i n ws Hi | i n ws p q Hi Hn | i n ws Hi
                           | i n ws p Hi Hp]; simpl.
  - pose proof (in_flight_insert ws i Discovered Downloading Hi) as H.
    simpl in H. lia.
  - pose proof (in_flight_insert ws i p q Hi) as H.
    destruct (next_phase_holds p q Hn) as [Ep Eq]. rewrite Ep, Eq in H.
    simpl in H. lia.
  - pose proof (in_flight_insert ws i Recording Recorded Hi) as H.
    simpl in H. lia.
  - pose proof (in_flight_insert ws i p Failed Hi) as H.
    rewrite Hp in H. simpl in H. lia.
Qed.

Lemma in_flight_init (files : nat) : in_flight (gate_init files) = 0.
Proof.
  unfold in_flight, gate_init. simpl.
  induction files as [|n IH]; simpl; [reflexivity | exact IH].
Qed.

Lemma gate_balance (files : nat) (g : gate) :
  rtc gate_step (gate_init files) g ->
  in_flight g + permits g = max_concurrent_tasks.
Proof.
  intros H.
  assert (Hinit : in_flight (gate_init files) + permits (gate_init files)
                  = max_concurrent_tasks)
    by (rewrite in_flight_init; reflexivity).
  revert Hinit. generalize dependent (gate_init files). intros g0 H.
  induction H as [g1 | g1 g2 g3 Hstep _ IH]; intros Hinit; [exact Hinit|].
  apply IH. rewrite (gate_step_balance _ _ Hstep). exact Hinit.
Qed.

(** With no permit left, no step takes a waiting worker out of
    [Discovered]. *)
Lemma gate_step_blocked (g g' : gate) (i : nat) :
  permits g = 0 ->
  gate_step g g' ->
  workers g !! i = Some Discovered ->
  workers g' !! i = Some Discovered.
Proof.
  intros Hp Hstep. destruct Hstep as [j n ws Hj | j n ws p q Hj Hn
                                     | j n ws Hj | j n ws p Hj Hh];
    simpl in *; intros Hi.
  - discriminate Hp.
  - destruct (decide (j = i)) as [-> | Hne].
    + rewrite Hi in Hj. injection Hj as <-. discriminate Hn.
    + rewrite list_lookup_insert_ne by exact Hne. exact Hi.
  - destruct (decide (j = i)) as [-> | Hne].
    + rewrite Hi in Hj. discriminate Hj.
    + rewrite list_lookup_insert_ne by exact Hne. exact Hi.
  - destruct (decide (j = i)) as [-> | Hne].
    + rewrite Hi in Hj. injection Hj as <-. discriminate Hh.
    + rewrite list_lookup_insert_ne by exact Hne. exact Hi.
Qed.

End GateFacts.

(** C9.  In every state that the workers of a batch can reach, however they
    are interleaved and however many files were queued, at most 10 workers
    are inside the block guarded by the semaphore, and their number plus the
    permits left is 10.  When 10 are inside, no step lets a waiting worker
    start its download: the next step of any worker keeps every waiting
    worker waiting, until a worker inside has left. *)
Theorem C9_at_most_ten_workers_in_flight
    (files : nat) (g : SyncEngine.gate) :
  rtc SyncEngine.gate_step (SyncEngine.gate_init files) g ->
  SyncEngine.in_flight g <= 10
  /\ SyncEngine.in_flight g + SyncEngine.permits g = 10
  /\ (SyncEngine.in_flight g = 10 ->
      forall (g' : SyncEngine.gate) (i : nat),
        SyncEngine.gate_step g g' ->
        SyncEngine.workers g !! i = Some SyncEngine.Discovered ->
        SyncEngine.workers g' !! i = Some SyncEngine.Discovered).
Proof.
  intros H. pose proof (gate_balance files g H) as Hb.
  unfold SyncEngine.max_concurrent_tasks in Hb.
  split; [lia|]. split; [exact Hb|].
  intros Hfull g' i Hstep. apply gate_step_blocked; [lia | exact Hstep].
Qed.

Lemma C9_fifteen_files_witness :
  let g :=
    {| SyncEngine.permits := 0;
       SyncEngine.workers :=
         replicate 10 SyncEngine.Downloading
         ++ replicate 5 SyncEngine.Discovered |} in
  rtc SyncEngine.gate_step (SyncEngine.gate_init 15) g
  /\ SyncEngine.in_flight g = 10
  /\ SyncEngine.in_flight g <= 10.
Proof.
  intros g.
  assert (H : rtc SyncEngine.gate_step (SyncEngine.gate_init 15) g).
  { unfold SyncEngine.gate_init, SyncEngine.max_concurrent_tasks.
    eapply rtc_l; [apply (SyncEngine.step_admit 0); reflexivity|]. simpl.
    eapply rtc_l; [apply (SyncEngine.step_admit 1); reflexivity|]. simpl.
    eapply rtc_l; [apply (SyncEngine.step_admit 2); reflexivity|]. simpl.
    eapply rtc_l; [apply (SyncEngine.step_admit 3); reflexivity|]. simpl.
    eapply rtc_l; [apply (SyncEngine.step_admit 4); reflexivity|]. simpl.
    eapply rtc_l; [apply (SyncEngine.step_admit 5); reflexivity|]. simpl.
    eapply rtc_l; [apply (SyncEngine.step_admit 6); reflexivity|]. simpl.
    eapply rtc_l; [apply (SyncEngine.step_admit 7); reflexivity|]. simpl.
    eapply rtc_l; [apply (SyncEngine.step_admit 8); reflexivity|]. simpl.
    eapply rtc_l; [apply (SyncEngine.step_admit 9); reflexivity|]. simpl.
    apply rtc_refl. }
  split; [exact H|]. split; [reflexivity|].
  apply (C9_at_most_ten_workers_in_flight 15 g H).
Defined.

(** ** [SemanticChunker] *)
Section ChunkerFacts.
Import SemanticChunker.

Lemma isspace_LF : isspace LF = true.
Proof. reflexivity. Qed.

Lemma eqb_LF (c : ascii) : Ascii.eqb c LF = true -> c = LF.
Proof. apply Ascii.eqb_eq. Qed.

Lemma last_newline_of_run_split (s : str) (best : option str) (r : str) :
  last_newline_of_run s best = Some r ->
  best = Some r \/ exists w, s = w ++ r /\ blank w /\ w <> [].
Proof.
  revert best. induction s as [|c s IH]; intros best H; simpl in H.
  - left. exact H.
  - destruct (isspace c) eqn:Hc; [|left; exact H].
    apply IH in H. destruct H as [H | (w & -> & Hw & _)].
    + destruct (Ascii.eqb c LF) eqn:E; [|left; exact H].
      injection H as ->. right. exists [c]. split; [reflexivity|].
      split; [repeat constructor; exact Hc | discriminate].
    + right. exists (c :: w). split; [reflexivity|].
      split; [constructor; assumption | discriminate].
Qed.

Lemma search_paragraph_break_split : splits_at_blank search_paragraph_break.
Proof.
  intros s. induction s as [|c s IH]; intros before rest H; simpl in H.
  - discriminate H.
  - destruct (if Ascii.eqb c LF then last_newline_of_run s None else None)
      as [r|] eqn:E.
    + injection H as <- <-.
      destruct (Ascii.eqb c LF) eqn:Ec; [|discriminate E].
      apply eqb_LF in Ec. subst c.
      apply last_newline_of_run_split in E.
      destruct E as [E | (w & -> & Hw & _)]; [discriminate E|].
      exists (LF :: w). split; [reflexivity|].
      split; [constructor; [exact isspace_LF | exact Hw] | discriminate].
    + destruct (search_paragraph_break s) as [[b r]|] eqn:Es;
        [|discriminate H].
      injection H as <- <-.
      destruct (IH b r eq_refl) as (sep & -> & Hsep & Hne).
      exists sep. split; [reflexivity|]. split; assumption.
Qed.

Lemma sentence_break_here_split (prev : option ascii) (s r : str) :
  sentence_break_here prev s = Some r ->
  exists w, s = w ++ r /\ blank w /\ w <> [].
Proof.
  unfold sentence_break_here. destruct prev as [p|]; [|discriminate].
  destruct s as [|c s]; [discriminate|].
  destruct (is_end_punct p && isspace c) eqn:E; [|discriminate].
  apply andb_prop in E as [_ Hc].
  destruct (lstrip_split (c :: s)) as (w & Hs & Hw).
  destruct (lstrip (c :: s)) as [|u rest] eqn:El; [discriminate|].
  destruct (isupper u) eqn:Eu; [|discriminate].
  intros [= <-]. exists w. split; [exact Hs|]. split; [exact Hw|].
  intros ->. simpl in Hs. injection Hs as Hcu _. subst u.
  revert Hc Eu. unfold isspace, isupper.
  generalize (nat_of_ascii c). intros n H1 H2.
  apply andb_prop in H2 as [H2 H3].
  apply Nat.leb_le in H2, H3.
  rewrite !orb_true_iff, !andb_true_iff, !Nat.leb_le, !Nat.eqb_eq in H1.
  lia.
Qed.

Lemma search_sentence_break_from_split (prev : option ascii) :
  splits_at_blank (search_sentence_break_from prev).
Proof.
  intros s. revert prev.
  induction s as [|c s IH]; intros prev before rest H; simpl in H.
  - discriminate H.
  - destruct (sentence_break_here prev (c :: s)) as [r|] eqn:E.
    + injection H as <- <-.
      apply sentence_break_here_split in E. destruct E as (w & E & Hw & Hne).
      exists w. split; [exact E|]. split; assumption.
    + destruct (search_sentence_break_from (Some c) s) as [[b r]|] eqn:Es;
        [|discriminate H].
      injection H as <- <-.
      destruct (IH _ b r Es) as (sep & -> & Hsep & Hne).
      exists sep. split; [reflexivity|]. split; assumption.
Qed.

Lemma search_sentence_break_split : splits_at_blank search_sentence_break.
Proof. apply search_sentence_break_from_split. Qed.

(** *** [re.split] *)

Lemma splits_at_blank_shorter (search : str -> option (str * str))
    (s before rest : str) :
  splits_at_blank search ->
  search s = Some (before, rest) -> length rest < length s.
Proof.
  intros Hs H. destruct (Hs _ _ _ H) as (sep & -> & _ & Hne).
  rewrite !length_app. destruct sep; [congruence | simpl; lia].
Qed.

(** The rounds that [re_split] allows are enough: more change nothing. *)
Lemma re_split_fuel_enough (search : str -> option (str * str)) :
  splits_at_blank search ->
  forall (n m : nat) (s : str),
    length s <= n -> length s <= m ->
    re_split_fuel search n s = re_split_fuel search m s.
Proof.
  intros Hs.
  assert (Hnil : search [] = None).
  { destruct (search []) as [[b r]|] eqn:E; [|reflexivity].
    apply (splits_at_blank_shorter _ _ _ _ Hs) in E. simpl in E. lia. }
  induction n as [|n IH]; intros m s Hn Hm.
  - destruct s; [|simpl in Hn; lia].
    destruct m; simpl; [reflexivity|]. rewrite Hnil. reflexivity.
  - destruct m as [|m].
    + destruct s; [|simpl in Hm; lia]. simpl. rewrite Hnil. reflexivity.
    + simpl. destruct (search s) as [[b r]|] eqn:E; [|reflexivity].
      pose proof (splits_at_blank_shorter _ _ _ _ Hs E).
      f_equal. apply IH; lia.
Qed.

Lemma re_split_unfold (search : str -> option (str * str)) (s : str) :
  splits_at_blank search ->
  re_split search s =
  match search s with
  | None => [s]
  | Some (before, rest) => before :: re_split search rest
  end.
Proof.
  intros Hs. unfold re_split. destruct s as [|c s].
  - simpl. destruct (search []) as [[b r]|] eqn:E; [|reflexivity].
    apply (splits_at_blank_shorter _ _ _ _ Hs) in E. simpl in E. lia.
  - simpl. destruct (search (c :: s)) as [[b r]|] eqn:E; [|reflexivity].
    pose proof (splits_at_blank_shorter _ _ _ _ Hs E) as Hlt.
    simpl in Hlt. f_equal. apply re_split_fuel_enough; [exact Hs | lia | lia].
Qed.

Lemma re_split_fuel_nonspace (search : str -> option (str * str)) :
  splits_at_blank search ->
  forall (n : nat) (s : str),
    nonspace (concat (re_split_fuel search n s)) = nonspace s.
Proof.
  intros Hs. induction n as [|n IH]; intros s; simpl.
  - rewrite app_nil_r. reflexivity.
  - destruct (search s) as [[b r]|] eqn:E; simpl.
    + destruct (Hs _ _ _ E) as (sep & -> & Hsep & _).
      rewrite !nonspace_app, IH, (nonspace_blank sep) by assumption.
      reflexivity.
    + rewrite app_nil_r. reflexivity.
Qed.

Lemma re_split_nonspace (search : str -> option (str * str)) (s : str) :
  splits_at_blank search ->
  nonspace (concat (re_split search s)) = nonspace s.
Proof. intros Hs. apply re_split_fuel_nonspace, Hs. Qed.

(** *** [_split_by_sentences] *)

Lemma strip_filter_nonspace (pieces : list str) :
  nonspace
    (concat (map strip (List.filter (fun s => truthy (strip s)) pieces)))
  = nonspace (concat pieces).
Proof.
  induction pieces as [|p pieces IH]; simpl; [reflexivity|].
  rewrite nonspace_app, <- IH.
  destruct (truthy (strip p)) eqn:E; simpl.
  - rewrite nonspace_app, nonspace_strip. reflexivity.
  - apply truthy_false, strip_nil_blank in E.
    rewrite (nonspace_blank p) by assumption. reflexivity.
Qed.

Lemma split_by_sentences_nonspace (text : str) :
  nonspace (concat (_split_by_sentences text)) = nonspace text.
Proof.
  unfold _split_by_sentences. rewrite strip_filter_nonspace.
  apply re_split_nonspace, search_sentence_break_split.
Qed.

Lemma split_by_sentences_trimmed (text sc : str) :
  In sc (_split_by_sentences text) -> trimmed sc /\ sc <> [].
Proof.
  unfold _split_by_sentences. intros H.
  apply in_map_iff in H as (p & <- & Hp).
  apply List.filter_In in Hp as [_ Hp].
  split; [apply strip_trimmed | apply truthy_true, Hp].
Qed.

End ChunkerFacts.

(** ** The packing loop of [chunk_text] *)
Section PackingFacts.
Import SemanticChunker.
Local Arguments lit : simpl never.

Lemma blank_space : blank (lit " ").
Proof. repeat constructor. Qed.

Lemma blank_LF_LF : blank [LF; LF].
Proof. repeat constructor. Qed.

(** *** The characters that the loop has taken in *)

Lemma seal_nonspace (chunks : list str) (cur : str) :
  nonspace (concat (seal chunks cur)) = nonspace (concat chunks ++ cur).
Proof.
  unfold seal. destruct (truthy cur) eqn:E.
  - rewrite concat_app. simpl. rewrite app_nil_r, !nonspace_app, nonspace_strip.
    reflexivity.
  - apply truthy_false in E. subst cur. rewrite app_nil_r. reflexivity.
Qed.

Lemma pack_sentence_nonspace (max : Z) (st : pack_state) (sc : str) :
  nonspace (concat (fst (pack_sentence max st sc))
            ++ snd (pack_sentence max st sc))
  = nonspace (concat (fst st) ++ snd st) ++ nonspace sc.
Proof.
  destruct st as [chunks cur]. unfold pack_sentence.
  destruct (_ <=? max)%Z; simpl.
  - rewrite !nonspace_app, (nonspace_blank (lit " ")) by apply blank_space.
    rewrite app_nil_r, app_assoc. reflexivity.
  - rewrite nonspace_app, seal_nonspace, !nonspace_app.
    rewrite (nonspace_blank (lit " ")) by apply blank_space.
    rewrite app_nil_r. reflexivity.
Qed.

Lemma pack_paragraph_nonspace (max : Z) (st : pack_state) (para : str) :
  nonspace (concat (fst (pack_paragraph max st para))
            ++ snd (pack_paragraph max st para))
  = nonspace (concat (fst st) ++ snd st) ++ nonspace para.
Proof.
  destruct st as [chunks cur]. unfold pack_paragraph.
  destruct (_ <=? max)%Z; simpl.
  - rewrite !nonspace_app, (nonspace_blank [LF; LF]) by apply blank_LF_LF.
    rewrite app_nil_r, app_assoc. reflexivity.
  - rewrite nonspace_app, seal_nonspace, !nonspace_app.
    rewrite (nonspace_blank [LF; LF]) by apply blank_LF_LF.
    rewrite app_nil_r. reflexivity.
Qed.

Lemma pack_sentences_nonspace (max : Z) (scs : list str) (st : pack_state) :
  nonspace (concat (fst (fold_left (pack_sentence max) scs st))
            ++ snd (fold_left (pack_sentence max) scs st))
  = nonspace (concat (fst st) ++ snd st) ++ nonspace (concat scs).
Proof.
  revert st. induction scs as [|sc scs IH]; intros st; simpl.
  - rewrite app_nil_r. reflexivity.
  - rewrite IH, pack_sentence_nonspace, (nonspace_app sc), app_assoc.
    reflexivity.
Qed.

Lemma chunk_step_nonspace (max : Z) (st : pack_state) (para0 : str) :
  nonspace (concat (fst (chunk_step max st para0))
            ++ snd (chunk_step max st para0))
  = nonspace (concat (fst st) ++ snd st) ++ nonspace para0.
Proof.
  unfold chunk_step. destruct (truthy (strip para0)) eqn:E; simpl.
  - rewrite <- (nonspace_strip para0).
    destruct (_ >? max)%Z.
    + rewrite pack_sentences_nonspace, split_by_sentences_nonspace.
      reflexivity.
    + apply pack_paragraph_nonspace.
  - apply truthy_false, strip_nil_blank in E.
    rewrite (nonspace_blank para0) by assumption.
    rewrite app_nil_r. reflexivity.
Qed.

Lemma chunk_steps_nonspace (max : Z) (paras : list str) (st : pack_state) :
  nonspace (concat (fst (fold_left (chunk_step max) paras st))
            ++ snd (fold_left (chunk_step max) paras st))
  = nonspace (concat (fst st) ++ snd st) ++ nonspace (concat paras).
Proof.
  revert st. induction paras as [|p paras IH]; intros st; simpl.
  - rewrite app_nil_r. reflexivity.
  - rewrite IH, chunk_step_nonspace, (nonspace_app p), app_assoc.
    reflexivity.
Qed.

Lemma chunk_text_blank (max : Z) (text : str) :
  blank text -> chunk_text max text = [].
Proof.
  intros H. unfold chunk_text. rewrite strip_blank by assumption.
  simpl. rewrite orb_true_r. reflexivity.
Qed.

Lemma chunk_text_nonspace (max : Z) (text : str) :
  nonspace (concat (chunk_text max text)) = nonspace text.
Proof.
  unfold chunk_text.
  destruct (truthy (strip text)) eqn:E.
  - assert (Et : truthy text = true).
    { destruct text; [discriminate E | reflexivity]. }
    rewrite Et. simpl.
    pose proof (chunk_steps_nonspace max
                  (re_split search_paragraph_break (strip text)) ([], []))
      as H.
    destruct (fold_left (chunk_step max) _ _) as [chunks cur].
    simpl in H.
    rewrite re_split_nonspace in H by apply search_paragraph_break_split.
    rewrite nonspace_strip in H. rewrite <- H.
    destruct (truthy (strip cur)) eqn:Ec.
    + rewrite concat_app. simpl.
      rewrite app_nil_r, !nonspace_app, nonspace_strip. reflexivity.
    + apply truthy_false, strip_nil_blank in Ec.
      rewrite nonspace_app, (nonspace_blank cur) by assumption.
      rewrite app_nil_r. reflexivity.
  - rewrite orb_true_r. simpl.
    apply truthy_false, strip_nil_blank in E.
    rewrite nonspace_blank by assumption. reflexivity.
Qed.

(** *** The size of the chunks *)

Variable max : Z.

(** What is accepted of a chunk that is longer than the limit. *)
Variable oversized : str -> Prop.

Local Abbreviation chunk_ok := (Notions.chunk_ok max oversized).
Local Abbreviation pack_inv := (Notions.pack_inv max oversized).

Lemma seal_inv (chunks : list str) (cur : str) :
  pack_inv (chunks, cur) -> forall c, In c (seal chunks cur) -> chunk_ok c.
Proof.
  intros [Hch Hcur] c. unfold seal. simpl in *.
  destruct (truthy cur) eqn:E; [|apply Hch].
  intros H. apply in_app_or in H as [H | [<- | []]]; [apply Hch, H|].
  destruct Hcur as [-> | Hcur]; [discriminate E | exact Hcur].
Qed.

Lemma pack_inv_append (chunks : list str) (cur unit sep : str) :
  pack_inv (chunks, cur) ->
  (Z.of_nat (length cur) + Z.of_nat (length unit) + Z.of_nat (length sep)
   <= max)%Z ->
  pack_inv (chunks, cur ++ unit ++ sep).
Proof.
  intros [Hch _] Hfit. split; [exact Hch|]. right. left. simpl.
  pose proof (strip_length (cur ++ unit ++ sep)) as H.
  rewrite !length_app in H. lia.
Qed.

Lemma pack_inv_restart (chunks : list str) (cur unit sep : str) :
  pack_inv (chunks, cur) ->
  trimmed unit -> blank sep -> chunk_ok unit ->
  pack_inv (seal chunks cur, unit ++ sep).
Proof.
  intros Hinv Hunit Hsep Hok. split; simpl.
  - apply seal_inv, Hinv.
  - right. rewrite strip_trimmed_app by assumption. exact Hok.
Qed.

Lemma pack_sentence_inv (st : pack_state) (sc : str) :
  pack_inv st -> trimmed sc ->
  ((Z.of_nat (length sc) > max)%Z -> oversized sc) ->
  pack_inv (pack_sentence max st sc).
Proof.
  destruct st as [chunks cur]. intros Hinv Htrim Hover. unfold pack_sentence.
  destruct (_ <=? max)%Z eqn:E.
  - apply Z.leb_le in E. apply pack_inv_append; [exact Hinv|].
    simpl. lia.
  - apply pack_inv_restart; [exact Hinv | exact Htrim | apply blank_space |].
    destruct (Z_le_gt_dec (Z.of_nat (length sc)) max) as [Hle | Hgt].
    + left. exact Hle.
    + right. apply Hover, Hgt.
Qed.

Lemma pack_sentences_inv (scs : list str) (st : pack_state) :
  pack_inv st ->
  (forall sc, In sc scs ->
     trimmed sc /\ ((Z.of_nat (length sc) > max)%Z -> oversized sc)) ->
  pack_inv (fold_left (pack_sentence max) scs st).
Proof.
  revert st. induction scs as [|sc scs IH]; intros st Hinv Hscs; simpl.
  - exact Hinv.
  - apply IH.
    + destruct (Hscs sc (or_introl eq_refl)) as [Ht Ho].
      apply pack_sentence_inv; assumption.
    + intros sc' H. apply Hscs. right. exact H.
Qed.

Lemma pack_paragraph_inv (st : pack_state) (para : str) :
  pack_inv st -> trimmed para -> (Z.of_nat (length para) <= max)%Z ->
  pack_inv (pack_paragraph max st para).
Proof.
  destruct st as [chunks cur]. intros Hinv Htrim Hle. unfold pack_paragraph.
  destruct (_ <=? max)%Z eqn:E.
  - apply Z.leb_le in E. apply pack_inv_append; [exact Hinv|].
    simpl. lia.
  - apply pack_inv_restart; [exact Hinv | exact Htrim | apply blank_LF_LF |].
    left. exact Hle.
Qed.

Lemma chunk_step_inv (st : pack_state) (para0 : str) :
  pack_inv st ->
  (forall sc, (Z.of_nat (length (strip para0)) > max)%Z ->
     In sc (_split_by_sentences (strip para0)) ->
     (Z.of_nat (length sc) > max)%Z -> oversized sc) ->
  pack_inv (chunk_step max st para0).
Proof.
  intros Hinv Hover. unfold chunk_step.
  destruct (truthy (strip para0)); simpl; [|exact Hinv].
  destruct (_ >? max)%Z eqn:E.
  - apply Z.gtb_lt in E. apply pack_sentences_inv; [exact Hinv|].
    intros sc Hsc. split.
    + apply (split_by_sentences_trimmed _ _ Hsc).
    + apply Hover; [lia | exact Hsc].
  - apply pack_paragraph_inv; [exact Hinv | apply strip_trimmed |].
    destruct (Z.gtb_spec (Z.of_nat (length (strip para0))) max);
      [discriminate E | lia].
Qed.

Lemma chunk_steps_inv (paras : list str) (st : pack_state) :
  pack_inv st ->
  (forall para0 sc, In para0 paras ->
     (Z.of_nat (length (strip para0)) > max)%Z ->
     In sc (_split_by_sentences (strip para0)) ->
     (Z.of_nat (length sc) > max)%Z -> oversized sc) ->
  pack_inv (fold_left (chunk_step max) paras st).
Proof.
  revert st. induction paras as [|p paras IH]; intros st Hinv Hover; simpl.
  - exact Hinv.
  - apply IH.
    + apply chunk_step_inv; [exact Hinv|].
      intros sc. apply Hover. left. reflexivity.
    + intros para0 sc H. apply Hover. right. exact H.
Qed.

End PackingFacts.

(** ** The chunks as groups of whole pieces *)
Section GroupingFacts.
Import SemanticChunker.
Local Arguments lit : simpl never.

Lemma trimmed_not_blank (s : str) : trimmed s -> s <> [] -> ~ blank s.
Proof.
  intros Ht Hne Hb. apply Hne. rewrite <- Ht. apply strip_blank, Hb.
Qed.

Lemma blank_app_inv (u v : str) : blank (u ++ v) -> blank u /\ blank v.
Proof. unfold blank. apply Forall_app. Qed.

Lemma not_blank_strip (s : str) : ~ blank s -> strip s <> [].
Proof. intros H E. apply H, strip_nil_blank, E. Qed.

(** The two branches of the loop append one piece in the same way. *)
Lemma pack_sentence_unit (max : Z) (st : pack_state) (sc : str) :
  pack_sentence max st sc = pack_unit max st (sc ++ lit " ").
Proof.
  destruct st as [chunks cur]. unfold pack_sentence, pack_unit.
  rewrite length_app. change (length (lit " ")) with 1.
  rewrite Nat2Z.inj_add, Z.add_assoc. reflexivity.
Qed.

Lemma pack_paragraph_unit (max : Z) (st : pack_state) (para : str) :
  pack_paragraph max st para = pack_unit max st (para ++ [LF; LF]).
Proof.
  destruct st as [chunks cur]. unfold pack_paragraph, pack_unit.
  rewrite length_app. change (length [LF; LF]) with 2.
  rewrite Nat2Z.inj_add, Z.add_assoc. reflexivity.
Qed.

Lemma pack_sentences_units (max : Z) (scs : list str) (st : pack_state) :
  fold_left (pack_sentence max) scs st
  = fold_left (pack_unit max) (map (fun sc => sc ++ lit " ") scs) st.
Proof.
  revert st. induction scs as [|sc scs IH]; intros st; simpl; [reflexivity|].
  rewrite pack_sentence_unit. apply IH.
Qed.

Lemma chunk_step_units (max : Z) (st : pack_state) (para0 : str) :
  chunk_step max st para0
  = fold_left (pack_unit max) (units_of_paragraph max para0) st.
Proof.
  unfold chunk_step, units_of_paragraph.
  destruct (negb (truthy (strip para0))); [reflexivity|].
  destruct (_ >? max)%Z.
  - apply pack_sentences_units.
  - simpl. apply pack_paragraph_unit.
Qed.

Lemma chunk_steps_units (max : Z) (paras : list str) (st : pack_state) :
  fold_left (chunk_step max) paras st
  = fold_left (pack_unit max) (flat_map (units_of_paragraph max) paras) st.
Proof.
  revert st. induction paras as [|p paras IH]; intros st; simpl;
    [reflexivity|].
  rewrite fold_left_app, <- chunk_step_units. apply IH.
Qed.

(** No piece is blank. *)
Lemma units_of_paragraph_solid (max : Z) (para0 u : str) :
  In u (units_of_paragraph max para0) -> ~ blank u.
Proof.
  unfold units_of_paragraph.
  destruct (truthy (strip para0)) eqn:E; simpl; [|intros []].
  assert (Hcore : forall core sep, trimmed core -> core <> [] ->
                    ~ blank (core ++ sep)).
  { intros core sep Ht Hne Hb. apply blank_app_inv in Hb as [Hb _].
    exact (trimmed_not_blank core Ht Hne Hb). }
  destruct (_ >? max)%Z.
  - intros H. apply in_map_iff in H as (sc & <- & Hsc).
    apply split_by_sentences_trimmed in Hsc as [Ht Hne].
    apply Hcore; assumption.
  - intros [<- | []].
    apply Hcore; [apply strip_trimmed | apply truthy_true, E].
Qed.

Lemma units_of_solid (max : Z) (text : str) :
  Forall (fun u => ~ blank u) (units_of max text).
Proof.
  apply List.Forall_forall. intros u H. unfold units_of in H.
  apply in_flat_map in H as (para0 & _ & H).
  exact (units_of_paragraph_solid max para0 u H).
Qed.

Lemma concat_snoc {A : Type} (ls : list (list A)) (l : list A) :
  concat (ls ++ [l]) = concat ls ++ l.
Proof. rewrite concat_app. simpl. rewrite app_nil_r. reflexivity. Qed.

Lemma concat_pieces_snoc (pieces : list str) (u : str) :
  concat (pieces ++ [u]) = concat pieces ++ u.
Proof. apply (concat_snoc (A:=ascii)). Qed.

Lemma concat_groups_snoc (groups : list (list str)) (g : list str) :
  concat (groups ++ [g]) = concat groups ++ g.
Proof. apply (concat_snoc (A:=str)). Qed.

(** The loop keeps the pieces it has seen in groups: the sealed chunks are
    the groups that are closed, the current chunk is the group that is
    open. *)
Lemma pack_units_groups (max : Z) (us : list str) :
  Forall (fun u => ~ blank u) us ->
  forall (groups : list (list str)) (opened : list str),
    Forall (whole_group max) groups ->
    opened = [] \/ whole_group max opened ->
    exists (groups' : list (list str)) (opened' : list str),
      fold_left (pack_unit max) us
        (map (fun g => strip (concat g)) groups, concat opened)
      = (map (fun g => strip (concat g)) groups', concat opened')
      /\ concat groups' ++ opened' = (concat groups ++ opened) ++ us
      /\ Forall (whole_group max) groups'
      /\ (opened' = [] \/ whole_group max opened').
Proof.
  induction 1 as [|u us Hu _ IH]; intros groups opened Hgroups Hopen.
  - exists groups, opened. rewrite app_nil_r. repeat split; assumption.
  - simpl.
    destruct (_ <=? max)%Z eqn:Hfit.
    + apply Z.leb_le in Hfit.
      destruct (IH groups (opened ++ [u])) as (groups' & opened' & E & H1 & H2);
        [exact Hgroups | |].
      * right. split.
        -- rewrite (concat_pieces_snoc opened u). intros Hb.
           apply blank_app_inv in Hb as [_ Hb]. exact (Hu Hb).
        -- left. rewrite (concat_pieces_snoc opened u), length_app. lia.
      * exists groups', opened'. rewrite (concat_pieces_snoc opened u) in E.
        split; [exact E|]. split; [|exact H2].
        rewrite H1. rewrite <- !app_assoc. reflexivity.
    + assert (Hone : opened = [] \/ whole_group max [u]).
      { right. split; [|right; exists u; reflexivity].
        simpl. rewrite app_nil_r. exact Hu. }
      assert (Hcat : concat [u] = u) by (simpl; apply app_nil_r).
      unfold seal. destruct (truthy (concat opened)) eqn:Ht.
      * assert (Hw : whole_group max opened).
        { destruct Hopen as [-> | Hw]; [discriminate Ht | exact Hw]. }
        destruct (IH (groups ++ [opened]) [u])
          as (groups' & opened' & E & H1 & H2).
        -- apply Forall_app. split; [exact Hgroups|].
           constructor; [exact Hw | constructor].
        -- right. destruct Hone as [-> | Hone]; [|exact Hone].
           destruct Hw as [Hw _]. exfalso. apply Hw. constructor.
        -- exists groups', opened'. rewrite map_app, Hcat in E. simpl in E.
           split; [exact E|]. split; [|exact H2].
           rewrite H1, (concat_groups_snoc groups opened).
           rewrite <- !app_assoc. reflexivity.
      * assert (Hnil : opened = []).
        { destruct Hopen as [-> | [Hw _]]; [reflexivity|].
          exfalso. apply Hw. apply truthy_false in Ht. rewrite Ht.
          constructor. }
        subst opened.
        destruct (IH groups [u]) as (groups' & opened' & E & H1 & H2);
          [exact Hgroups | |].
        -- right. destruct Hone as [Hone | Hone]; [|exact Hone].
           split; [|right; exists u; reflexivity].
           simpl. rewrite app_nil_r. exact Hu.
        -- exists groups', opened'. rewrite Hcat in E.
           split; [exact E|]. split; [|exact H2].
           rewrite H1, app_nil_r, <- app_assoc. reflexivity.
Qed.

(** The chunks of a text are its pieces, whole and in order, in groups. *)
Lemma chunk_text_groups (max : Z) (text : str) :
  exists groups : list (list str),
    concat groups = units_of max text
    /\ Forall (whole_group max) groups
    /\ chunk_text max text = map (fun g => strip (concat g)) groups.
Proof.
  unfold chunk_text.
  destruct (negb (truthy text) || negb (truthy (strip text))) eqn:E.
  - exists []. split; [|split; [constructor | reflexivity]].
    assert (Hs : strip text = []).
    { apply orb_prop in E as [E | E]; apply negb_true_iff, truthy_false in E;
        [subst text; reflexivity | exact E]. }
    unfold units_of. rewrite Hs. reflexivity.
  - rewrite chunk_steps_units. fold (units_of max text).
    destruct (pack_units_groups max (units_of max text)
                (units_of_solid max text) [] [])
      as (groups & opened & Ef & Hcat & Hgroups & Hopen);
      [constructor | left; reflexivity |].
    simpl in Ef, Hcat. rewrite Ef.
    destruct Hopen as [-> | Hw].
    + simpl. exists groups. rewrite app_nil_r in Hcat.
      split; [exact Hcat|]. split; [exact Hgroups | reflexivity].
    + pose proof (not_blank_strip _ (proj1 Hw)) as Hne.
      apply truthy_true in Hne. rewrite Hne.
      exists (groups ++ [opened]).
      rewrite (concat_groups_snoc groups opened), map_app.
      split; [exact Hcat|]. split; [|reflexivity].
      apply Forall_app. split; [exact Hgroups|].
      constructor; [exact Hw | constructor].
Qed.

Lemma length_in_concat (g : list str) (u : str) :
  In u g -> length u <= length (concat g).
Proof.
  induction g as [|v g IH]; intros []; simpl; rewrite length_app.
  - subst v. lia.
  - specialize (IH H). lia.
Qed.

(** A sentence that is longer than the limit is a chunk as it stands. *)
Lemma oversized_sentence_chunk (max : Z) (text c : str) :
  oversized_sentence max text c -> In c (chunk_text max text).
Proof.
  intros (para0 & Hpara & Hlen & Hc & Hclen).
  destruct (chunk_text_groups max text) as (groups & Hcat & Hgroups & ->).
  pose proof (split_by_sentences_trimmed _ _ Hc) as [Htrim Hne].
  assert (Hunit : In (c ++ lit " ") (units_of max text)).
  { unfold units_of. apply in_flat_map. exists para0. split; [exact Hpara|].
    unfold units_of_paragraph.
    destruct (truthy (strip para0)) eqn:Et.
    - simpl.
      assert (Hg : (Z.of_nat (length (strip para0)) >? max)%Z = true)
        by (apply Z.gtb_lt; lia).
      rewrite Hg. apply (in_map (fun sc => sc ++ lit " ")). exact Hc.
    - apply truthy_false in Et. rewrite Et in Hc.
      vm_compute in Hc. destruct Hc. }
  rewrite <- Hcat in Hunit. apply in_concat in Hunit as (g & Hg & Hu).
  rewrite List.Forall_forall in Hgroups.
  destruct (Hgroups g Hg) as [_ [Hfit | (u & ->)]].
  - exfalso. apply length_in_concat in Hu.
    rewrite length_app in Hu. simpl in Hu. lia.
  - destruct Hu as [-> | []].
    apply in_map_iff. exists [c ++ lit " "]. split; [|exact Hg].
    simpl. rewrite app_nil_r.
    apply strip_trimmed_app; [exact Htrim | repeat constructor].
Qed.

(** The bound on the chunks. *)
Lemma chunk_text_bound (max : Z) (text c : str) :
  In c (chunk_text max text) ->
  (Z.of_nat (length c) <= max)%Z \/ oversized_sentence max text c.
Proof.
  unfold chunk_text.
  destruct (negb (truthy text) || negb (truthy (strip text))); [intros []|].
  pose proof (chunk_steps_inv max (oversized_sentence max text)
                (re_split search_paragraph_break (strip text))
                ([], [])) as H.
  destruct (fold_left _ _ _) as [chunks cur].
  assert (Hinv : pack_inv max (oversized_sentence max text) (chunks, cur)).
  { apply H.
    - split; [intros x [] | left; reflexivity].
    - intros para0 sc Hp Hlen Hsc Hsclen. exists para0.
      repeat split; assumption. }
  destruct Hinv as [Hch Hcur]. simpl in Hch, Hcur.
  destruct (truthy (strip cur)) eqn:E; [|apply Hch].
  intros Hin. apply in_app_or in Hin as [Hin | [<- | []]]; [apply Hch, Hin|].
  destruct Hcur as [-> | Hcur]; [discriminate E | exact Hcur].
Qed.

End GroupingFacts.

(** C4.  For every text and every limit (positive or not), a chunk of
    [chunk_text] has at most that many characters, unless it is, as it
    stands, one sentence of a paragraph of the text, the paragraph and the
    sentence each longer than the limit.  Every such sentence is a chunk of
    its own, whole.  And no chunk is cut: the chunks are the pieces of the
    text (its paragraphs, stripped, and the sentences of the paragraphs that
    are longer than the limit), all of them, whole and in their order, put
    in groups, each chunk being the pieces of its group one after the other
    and stripped; a group of more than one piece is within the limit. *)
Theorem C4_chunk_within_limit_or_one_sentence
    (max_chunk_chars : Z) (text : str) :
  (forall c, In c (SemanticChunker.chunk_text max_chunk_chars text) ->
     (Z.of_nat (length c) <= max_chunk_chars)%Z
     \/ oversized_sentence max_chunk_chars text c)
  /\ (forall c, oversized_sentence max_chunk_chars text c ->
        In c (SemanticChunker.chunk_text max_chunk_chars text))
  /\ exists groups : list (list str),
       concat groups = units_of max_chunk_chars text
       /\ Forall (whole_group max_chunk_chars) groups
       /\ SemanticChunker.chunk_text max_chunk_chars text
          = map (fun g => strip (concat g)) groups.
Proof.
  split; [intros c; apply chunk_text_bound|].
  split; [intros c; apply oversized_sentence_chunk|].
  apply chunk_text_groups.
Qed.

Lemma C4_chunk_limit_witness :
  let text :=
    lit "One short sentence. This second sentence is rather longer. End."
    ++ [LF; LF] ++ lit "Tail." in
  SemanticChunker.chunk_text 20 text
  = [lit "One short sentence."; lit "This second sentence is rather longer.";
     lit "End. Tail."]
  /\ ((Z.of_nat (length (lit "This second sentence is rather longer."))
       <= 20)%Z
      \/ oversized_sentence 20 text
           (lit "This second sentence is rather longer.")).
Proof.
  intros text.
  assert (E : SemanticChunker.chunk_text 20 text
              = [lit "One short sentence.";
                 lit "This second sentence is rather longer.";
                 lit "End. Tail."]) by (vm_compute; reflexivity).
  split; [exact E|].
  apply (proj1 (C4_chunk_within_limit_or_one_sentence 20 text)).
  rewrite E. right. left. reflexivity.
Defined.

(** C5.  For every text and every limit, the chunks of [chunk_text], put one
    after the other, hold the characters of the text that are not
    whitespace, all of them and in their order; the chunks and the text
    differ in whitespace only.  A text that is empty or holds whitespace
    only gives no chunk. *)
Theorem C5_chunks_keep_the_text :
  (forall (max_chunk_chars : Z) (text : str),
     nonspace (concat (SemanticChunker.chunk_text max_chunk_chars text))
     = nonspace text)
  /\ (forall (max_chunk_chars : Z) (text : str),
        blank text -> SemanticChunker.chunk_text max_chunk_chars text = []).
Proof.
  split.
  - apply chunk_text_nonspace.
  - apply chunk_text_blank.
Qed.

Lemma C5_blank_text_witness :
  blank ([LF] ++ lit "  " ++ [LF])
  /\ SemanticChunker.chunk_text 3000 ([LF] ++ lit "  " ++ [LF]) = [].
Proof.
  assert (H : blank ([LF] ++ lit "  " ++ [LF])) by (repeat constructor).
  split; [exact H|].
  apply (proj2 C5_chunks_keep_the_text 3000%Z _ H).
Defined.

(** ** Two scenarios of the chunker *)
Section ChunkerScenarios.
Import SemanticChunker.
Local Arguments lit : simpl never.

(** Two short paragraphs fit in one chunk. *)
Example chunk_text_two_paragraphs :
  chunk_text 3000 (lit "Para one." ++ [LF; LF] ++ lit "Para two.")
  = [lit "Para one." ++ [LF; LF] ++ lit "Para two."].
Proof. vm_compute. reflexivity. Qed.

(** A paragraph longer than the limit that holds no sentence boundary is
    one chunk, whole. *)
Lemma chunk_text_one_long_sentence (max : Z) (p : str) :
  trimmed p -> p <> [] ->
  search_paragraph_break p = None ->
  search_sentence_break p = None ->
  (Z.of_nat (length p) > max)%Z ->
  chunk_text max p = [p].
Proof.
  intros Htrim Hne Hpara Hsent Hlong.
  assert (Htruthy : truthy p = true) by (apply truthy_true, Hne).
  assert (Hsplit : _split_by_sentences p = [p]).
  { unfold _split_by_sentences.
    rewrite re_split_unfold by apply search_sentence_break_split.
    rewrite Hsent. simpl. rewrite Htrim, Htruthy. simpl. rewrite Htrim.
    reflexivity. }
  unfold chunk_text. rewrite Htrim, Htruthy. simpl.
  rewrite re_split_unfold by apply search_paragraph_break_split.
  rewrite Hpara. simpl. unfold chunk_step. rewrite Htrim, Htruthy. simpl.
  assert (Hgt : (Z.of_nat (length p) >? max)%Z = true)
    by (apply Z.gtb_lt; lia).
  rewrite Hgt, Hsplit. simpl.
  assert (Hfit : (Z.of_nat 0 + Z.of_nat (length p) + 1 <=? max)%Z = false)
    by (apply Z.leb_gt; lia).
  rewrite Hfit. simpl.
  rewrite (strip_trimmed_app p (lit " ") Htrim blank_space), Htruthy.
  reflexivity.
Qed.

End ChunkerScenarios.

(** ** The backtracking matchers *)
Section MatcherFacts.
Context {R : Type}.
Implicit Types (p : ascii -> bool) (seen s : str) (v : R).

(** A success of the greedy star comes from one way to cut the text. *)
Lemma star_greedy_sound p seen s (k : str -> str -> option R) v :
  star_greedy p seen s k = Some v ->
  exists a b, s = a ++ b /\ Forall (fun c => p c = true) a
              /\ k (seen ++ a) b = Some v.
Proof.
  revert seen. induction s as [|c s IH]; intros seen H; simpl in H.
  - exists [], []. rewrite (app_nil_r seen).
    repeat split; [constructor | exact H].
  - assert (Hhere : k seen (c :: s) = Some v ->
                    exists a b, c :: s = a ++ b
                                /\ Forall (fun c => p c = true) a
                                /\ k (seen ++ a) b = Some v).
    { intros Hk. exists [], (c :: s). rewrite (app_nil_r seen).
      repeat split; [constructor | exact Hk]. }
    destruct (p c) eqn:Hc; [|exact (Hhere H)].
    destruct (star_greedy p (seen ++ [c]) s k) as [r|] eqn:E;
      [|exact (Hhere H)].
    injection H as ->.
    destruct (IH _ E) as (a & b & -> & Ha & Hk).
    exists (c :: a), b. rewrite <- app_assoc in Hk.
    repeat split; [constructor; assumption | exact Hk].
Qed.

(** The greedy star succeeds as soon as one cut lets the rest succeed. *)
Lemma star_greedy_complete p seen s (k : str -> str -> option R) a b :
  s = a ++ b -> Forall (fun c => p c = true) a ->
  is_Some (k (seen ++ a) b) ->
  is_Some (star_greedy p seen s k).
Proof.
  intros -> Ha. revert seen.
  induction Ha as [|c a Hc Ha IH]; intros seen Hk.
  - rewrite app_nil_r in Hk. simpl. destruct b as [|c b]; simpl; [exact Hk|].
    destruct (p c); [|exact Hk].
    destruct (star_greedy p (seen ++ [c]) b k); [eauto | exact Hk].
  - simpl. rewrite Hc.
    assert (H : is_Some (star_greedy p (seen ++ [c]) (a ++ b) k)).
    { apply IH. rewrite <- app_assoc. exact Hk. }
    destruct H as (r & ->). eauto.
Qed.

(** A success of the lazy star comes from the shortest cut that lets the
    rest succeed. *)
Lemma star_lazy_sound p seen s (k : str -> str -> option R) v :
  star_lazy p seen s k = Some v ->
  exists a b, s = a ++ b /\ Forall (fun c => p c = true) a
              /\ k (seen ++ a) b = Some v
              /\ forall a1 a2, a = a1 ++ a2 -> a2 <> [] ->
                   k (seen ++ a1) (a2 ++ b) = None.
Proof.
  revert seen. induction s as [|c s IH]; intros seen H; simpl in H.
  - destruct (k seen []) as [r|] eqn:E; [|discriminate H].
    exists [], []. rewrite (app_nil_r seen).
    repeat split; [constructor | congruence |].
    intros a1 a2 Ha Hne. destruct a1, a2; simpl in Ha; congruence.
  - destruct (k seen (c :: s)) as [r|] eqn:E.
    + exists [], (c :: s). rewrite (app_nil_r seen).
      repeat split; [constructor | congruence |].
      intros a1 a2 Ha Hne. destruct a1, a2; simpl in Ha; congruence.
    + destruct (p c) eqn:Hc; [|discriminate H].
      destruct (IH _ H) as (a & b & -> & Ha & Hk & Hmin).
      exists (c :: a), b. rewrite <- app_assoc in Hk.
      repeat split; [constructor; assumption | exact Hk |].
      intros a1 a2 Ha12 Hne. destruct a1 as [|x a1]; simpl in Ha12.
      * subst a2. rewrite app_nil_r. exact E.
      * injection Ha12 as <- ->.
        specialize (Hmin a1 a2 eq_refl Hne).
        rewrite <- app_assoc in Hmin. exact Hmin.
Qed.

Lemma one_char_sound (c : ascii) s (k : str -> option R) v :
  one_char c s k = Some v -> exists r, s = c :: r /\ k r = Some v.
Proof.
  destruct s as [|x s]; simpl; [discriminate|].
  destruct (Ascii.eqb x c) eqn:E; [|discriminate].
  apply Ascii.eqb_eq in E. subst x. eauto.
Qed.

Lemma four_digits_sound s (k : str -> str -> option R) v :
  four_digits s k = Some v ->
  exists d r, s = d ++ r /\ length d = 4
              /\ Forall (fun c => isdigit c = true) d /\ k d r = Some v.
Proof.
  destruct s as [|a [|b [|c [|d r]]]]; simpl; try discriminate.
  destruct (isdigit a && isdigit b && isdigit c && isdigit d) eqn:E;
    [|discriminate].
  apply andb_prop in E as [E Hd]. apply andb_prop in E as [E Hc].
  apply andb_prop in E as [Ha Hb].
  intros H. exists [a; b; c; d], r.
  repeat split; [repeat constructor; assumption | exact H].
Qed.

Lemma four_digits_complete (d r : str) (k : str -> str -> option R) :
  length d = 4 -> Forall (fun c => isdigit c = true) d ->
  four_digits (d ++ r) k = k d r.
Proof.
  intros Hlen Hd.
  destruct d as [|a [|b [|c [|e [|x d]]]]]; simpl in Hlen; try discriminate.
  inversion_clear Hd as [|? ? Ha Hd1]. inversion_clear Hd1 as [|? ? Hb Hd2].
  inversion_clear Hd2 as [|? ? Hc Hd3]. inversion_clear Hd3 as [|? ? He _].
  simpl. rewrite Ha, Hb, Hc, He. reflexivity.
Qed.

Lemma hyphen_separator_sound s (k : str -> option R) v :
  hyphen_separator s k = Some v ->
  exists w1 w2 r, s = w1 ++ hyphen :: w2 ++ r /\ blank w1 /\ blank w2
                  /\ k r = Some v.
Proof.
  unfold hyphen_separator. intros H.
  apply star_greedy_sound in H as (w1 & b1 & -> & Hw1 & H).
  apply one_char_sound in H as (r2 & -> & H).
  apply star_greedy_sound in H as (w2 & r & -> & Hw2 & H).
  exists w1, w2, r. repeat split; assumption.
Qed.

Lemma hyphen_separator_complete (w1 w2 r : str) (k : str -> option R) :
  blank w1 -> blank w2 -> is_Some (k r) ->
  is_Some (hyphen_separator (w1 ++ hyphen :: w2 ++ r) k).
Proof.
  intros Hw1 Hw2 Hk. unfold hyphen_separator.
  apply (star_greedy_complete _ _ _ _ w1 (hyphen :: w2 ++ r));
    [reflexivity | exact Hw1 |].
  simpl.
  apply (star_greedy_complete _ _ _ _ w2 r); [reflexivity | exact Hw2 |].
  exact Hk.
Qed.

End MatcherFacts.

(** ** [_parse_filename_metadata] *)
Section ParserFacts.
Import SyncEngine.

Lemma at_end_cases (r : str) : at_end r = true -> r = [] \/ r = [LF].
Proof.
  destruct r as [|c [|d r]]; simpl; intros H; try discriminate H.
  - left. reflexivity.
  - right. apply eqb_LF in H. subst c. reflexivity.
Qed.

Lemma at_end_blank (r : str) : at_end r = true -> blank r.
Proof.
  intros H. destruct (at_end_cases r H) as [-> | ->]; repeat constructor.
Qed.

Lemma isdot_all (s : str) :
  ~ In LF s -> Forall (fun c => isdot c = true) s.
Proof.
  intros H. apply List.Forall_forall. intros c Hc. unfold isdot.
  destruct (Ascii.eqb c LF) eqn:E; [|reflexivity].
  apply eqb_LF in E. subst c. contradiction.
Qed.

Lemma title_group_sound {R : Type} (s : str) (k : str -> option R) (v : R) :
  title_group s k = Some v ->
  exists g3 r, s = g3 ++ r /\ Forall (fun c => isdot c = true) g3
              /\ at_end r = true /\ k g3 = Some v.
Proof.
  unfold title_group. intros H.
  apply star_greedy_sound in H as (g3 & r & -> & Hdot & H). simpl in H.
  destruct (at_end r) eqn:E; [|discriminate H].
  exists g3, r. repeat split; assumption.
Qed.

Lemma title_group_complete {R : Type} (g3 r : str) (k : str -> option R) :
  Forall (fun c => isdot c = true) g3 -> at_end r = true ->
  is_Some (k g3) -> is_Some (title_group (g3 ++ r) k).
Proof.
  intros Hg Hr Hk. unfold title_group.
  apply (star_greedy_complete _ _ _ _ g3 r); [reflexivity | exact Hg |].
  simpl. rewrite Hr. exact Hk.
Qed.

Lemma author_and_title_sound (g1 : option str) (s : str) (v : groups) :
  author_and_title g1 s = Some v ->
  exists g2 g3, v = (g1, g2, g3) /\ author_title_shape s g2 g3.
Proof.
  unfold author_and_title.
  destruct (star_lazy _ _ _ _) as [v'|] eqn:E.
  - intros [= <-].
    apply star_lazy_sound in E as (a & b & -> & Ha & Hk & Hmin).
    simpl in Hk, Hmin.
    apply hyphen_separator_sound in Hk as (w1 & w2 & r' & -> & Hw1 & Hw2 & Hk).
    apply title_group_sound in Hk as (g3 & r & -> & Hdot & Hr & Hk).
    injection Hk as <-.
    exists (Some a), g3. split; [reflexivity|].
    exists w1, w2, r. repeat split; try assumption.
    intros Hblank. destruct a as [|c a]; [reflexivity|]. exfalso.
    specialize (Hmin [] (c :: a) eq_refl ltac:(discriminate)).
    assert (Hsome : is_Some
              (hyphen_separator
                 (((c :: a) ++ w1) ++ hyphen :: w2 ++ g3 ++ r)
                 (fun r' => title_group r'
                    (fun g3 => Some (g1, Some ([] : str), g3))))).
    { apply hyphen_separator_complete;
        [apply blank_app; assumption | exact Hw2 |].
      apply title_group_complete; [exact Hdot | exact Hr | eauto]. }
    rewrite <- app_assoc in Hsome. simpl in Hsome, Hmin.
    rewrite Hmin in Hsome. destruct Hsome as (x & Hx). discriminate Hx.
  - intros H. apply title_group_sound in H as (g3 & r & -> & _ & Hr & Hk).
    injection Hk as <-. exists None, g3. split; [reflexivity|].
    exists r. split; [reflexivity | exact Hr].
Qed.

Lemma author_and_title_total (g1 : option str) (s : str) :
  ~ In LF s -> is_Some (author_and_title g1 s).
Proof.
  intros H. unfold author_and_title.
  destruct (star_lazy _ _ _ _) as [v|]; [eauto|].
  rewrite <- (app_nil_r s).
  apply title_group_complete; [apply isdot_all, H | reflexivity | eauto].
Qed.

(** What a match says of the text. *)
Lemma filename_pattern_match_sound (s : str) (v : groups) :
  filename_pattern_match s = Some v ->
  exists g1 g2 g3 t,
    v = (g1, g2, g3)
    /\ author_title_shape t g2 g3
    /\ ((g1 = None /\ t = s)
        \/ exists d w1 w2,
             g1 = Some d /\ s = d ++ w1 ++ hyphen :: w2 ++ t
             /\ length d = 4 /\ Forall (fun c => isdigit c = true) d
             /\ blank w1 /\ blank w2).
Proof.
  unfold filename_pattern_match.
  destruct (four_digits _ _) as [v'|] eqn:E.
  - intros [= <-].
    apply four_digits_sound in E as (d & r & -> & Hlen & Hd & H).
    apply hyphen_separator_sound in H as (w1 & w2 & t & -> & Hw1 & Hw2 & H).
    apply author_and_title_sound in H as (g2 & g3 & -> & Hshape).
    exists (Some d), g2, g3, t. split; [reflexivity|]. split; [exact Hshape|].
    right. exists d, w1, w2. repeat split; assumption.
  - intros H. apply author_and_title_sound in H as (g2 & g3 & -> & Hshape).
    exists None, g2, g3, s. split; [reflexivity|]. split; [exact Hshape|].
    left. split; reflexivity.
Qed.

(** On a text without line feed the year part, when present, is matched. *)
Lemma filename_pattern_match_year (s d : str) :
  year_prefix s d -> ~ In LF s ->
  exists g2 g3, filename_pattern_match s = Some (Some d, g2, g3).
Proof.
  intros (Hlen & Hd & w & r & Hw & ->) Hno.
  unfold filename_pattern_match. rewrite four_digits_complete by assumption.
  assert (Hsome : is_Some
            (hyphen_separator (w ++ hyphen :: r)
               (fun r' => author_and_title (Some d) r'))).
  { apply (hyphen_separator_complete w [] r); [exact Hw | constructor |].
    apply author_and_title_total. intros Hin. apply Hno.
    apply in_or_app. right. apply in_or_app. right. right. exact Hin. }
  destruct Hsome as (v & Hv). rewrite Hv.
  apply hyphen_separator_sound in Hv as (w1 & w2 & t & _ & _ & _ & Hv).
  apply author_and_title_sound in Hv as (g2 & g3 & -> & _).
  exists g2, g3. reflexivity.
Qed.

Lemma shape_has_hyphen (s : str) (a g3 : str) :
  author_title_shape s (Some a) g3 -> In hyphen s.
Proof.
  intros (w1 & w2 & r & -> & _). apply in_or_app. right.
  apply in_or_app. right. left. reflexivity.
Qed.

(** *** Texts that are trimmed *)

Lemma rstrip_length (s : str) : length (rstrip s) <= length s.
Proof.
  destruct (rstrip_split s) as (w & Hs & _). rewrite Hs at 2.
  rewrite length_app. lia.
Qed.

Lemma trimmed_suffix_not_blank (s pre g : str) :
  trimmed s -> s = pre ++ g -> g <> [] -> ~ blank g.
Proof.
  intros Ht -> Hne Hg.
  pose proof (rstrip_strip (pre ++ g)) as E.
  unfold trimmed in Ht. rewrite Ht in E.
  rewrite rstrip_app_blank in E by assumption.
  pose proof (rstrip_length pre) as Hlen. rewrite E, length_app in Hlen.
  destruct g; [congruence | simpl in Hlen; lia].
Qed.

Lemma strip_not_blank (g : str) : ~ blank g -> strip g <> [].
Proof. intros H E. apply H, strip_nil_blank, E. Qed.

Lemma digit_not_space (c : ascii) : isdigit c = true -> isspace c = false.
Proof.
  unfold isdigit, isspace. generalize (nat_of_ascii c). intros n H.
  apply andb_prop in H as [H1 H2]. apply Nat.leb_le in H1, H2.
  rewrite !orb_false_iff, !andb_false_iff, !Nat.leb_gt, !Nat.eqb_neq. lia.
Qed.

Lemma lstrip_all_nonspace (s : str) :
  Forall (fun c => isspace c = false) s -> lstrip s = s.
Proof. intros [|c r Hc _]; [reflexivity | apply lstrip_head, Hc]. Qed.

Lemma strip_all_nonspace (s : str) :
  Forall (fun c => isspace c = false) s -> strip s = s.
Proof.
  intros H. unfold strip, rstrip. rewrite (lstrip_all_nonspace s H).
  rewrite lstrip_all_nonspace by (apply Forall_rev, H).
  apply rev_involutive.
Qed.

Lemma strip_digits (d : str) :
  Forall (fun c => isdigit c = true) d -> strip d = d.
Proof.
  intros H. apply strip_all_nonspace.
  apply (List.Forall_impl (fun c => isspace c = false) digit_not_space).
  exact H.
Qed.

Lemma clean_name_trimmed (filename : str) : trimmed (clean_name filename).
Proof. apply strip_trimmed. Qed.

End ParserFacts.

Section ParserResult.
Import SyncEngine.

Ltac reassoc :=
  repeat (rewrite <- app_assoc || rewrite <- app_comm_cons); reflexivity.

(** What the groups of a match on a trimmed name are. *)
Lemma groups_facts (clean : str) (g1 g2 : option str) (g3 : str) :
  trimmed clean ->
  filename_pattern_match clean = Some (g1, g2, g3) ->
  (g1 = None \/ exists d, g1 = Some d /\ year_prefix clean d)
  /\ (forall a, g2 = Some a -> a <> [] -> strip a <> [])
  /\ (forall a, g2 = Some a -> In hyphen clean)
  /\ (g1 <> None -> In hyphen clean)
  /\ (g3 <> [] -> strip g3 <> [] /\ clean <> [])
  /\ (g1 = None -> g2 = None -> g3 = clean).
Proof.
  intros Htrim E.
  apply filename_pattern_match_sound in E
    as (g1' & g2' & g3' & t & [= <- <- <-] & Hshape & Hyear).
  assert (Hsuffix : exists pre, clean = pre ++ t).
  { destruct Hyear as [[_ ->] | (d & w1 & w2 & _ & -> & _)].
    - exists []. reflexivity.
    - exists (d ++ w1 ++ hyphen :: w2). reassoc. }
  destruct Hsuffix as (pre & Hclean).
  assert (Htitle : exists pre' r, clean = pre' ++ g3 ++ r /\ at_end r = true).
  { destruct g2 as [a|]; simpl in Hshape.
    - destruct Hshape as (w1 & w2 & r & -> & _ & _ & Hr & _).
      exists (pre ++ a ++ w1 ++ hyphen :: w2), r. split; [|exact Hr].
      rewrite Hclean. reassoc.
    - destruct Hshape as (r & -> & Hr). exists pre, r.
      split; assumption. }
  split; [|split; [|split; [|split; [|split]]]].
  - destruct Hyear as [[-> _] | (d & w1 & w2 & -> & -> & Hlen & Hd & Hw1 & _)].
    + left. reflexivity.
    + right. exists d. split; [reflexivity|].
      split; [exact Hlen|]. split; [exact Hd|].
      exists w1, (w2 ++ t). split; [exact Hw1 | reflexivity].
  - intros a -> Hne. simpl in Hshape.
    destruct Hshape as (_ & _ & _ & _ & _ & _ & _ & Hblank).
    apply strip_not_blank. intros Hb. apply Hne, Hblank, Hb.
  - intros a ->. rewrite Hclean. apply in_or_app. right.
    eapply shape_has_hyphen. exact Hshape.
  - intros Hg1. destruct Hyear as [[-> _] | (d & w1 & w2 & _ & -> & _)].
    + congruence.
    + apply in_or_app. right. apply in_or_app. right. left. reflexivity.
  - intros Hne. destruct Htitle as (pre' & r & Hc & Hr).
    assert (Hnb : ~ blank (g3 ++ r)).
    { apply (trimmed_suffix_not_blank clean pre'); [exact Htrim | exact Hc |].
      destruct g3; [congruence | discriminate]. }
    split.
    + apply strip_not_blank. intros Hb. apply Hnb.
      apply blank_app; [exact Hb | apply at_end_blank, Hr].
    + rewrite Hc. destruct pre', g3; simpl; congruence.
  - intros -> ->. simpl in Hshape. destruct Hshape as (r & -> & Hr).
    destruct Hyear as [[_ Ht] | (d & w1 & w2 & Hd & _)]; [|discriminate Hd].
    destruct (at_end_cases r Hr) as [-> | ->].
    + rewrite app_nil_r in Ht. exact Ht.
    + exfalso.
      apply (trimmed_suffix_not_blank clean g3 [LF]);
        [exact Htrim | symmetry; exact Ht | discriminate
        | repeat constructor].
Qed.

End ParserResult.

(** C10, as stated, fails twice.  The file name [".pdf"] has an empty
    cleaned name and gets an empty title.  The file name that reads
    ["2020-a"], a line feed, ["b"] has a cleaned name that starts with four
    digits and a hyphen, and gets the year ["Unknown"], because the pattern
    does not match across the line feed. *)
Lemma C10_empty_title_and_lost_year_counterexample :
  SyncEngine._parse_filename_metadata (lit ".pdf")
  = (lit "Unknown", lit "Unknown", [])
  /\ (let filename := lit "2020-a" ++ [LF] ++ lit "b" in
      SyncEngine.clean_name filename = filename
      /\ year_prefix (SyncEngine.clean_name filename) (lit "2020")
      /\ SyncEngine._parse_filename_metadata filename
         = (lit "Unknown", lit "Unknown", filename)).
Proof.
  split; [reflexivity|]. split; [reflexivity|]. split; [|reflexivity].
  split; [reflexivity|]. split; [repeat constructor|].
  exists [], (lit "a" ++ [LF] ++ lit "b"). split; [constructor | reflexivity].
Qed.

(** C10, amended.  For every file name, [_parse_filename_metadata] returns a
    triple [(year, author, title)].  The year is ["Unknown"] or four digits
    at the head of the cleaned name that optional whitespace and a hyphen
    follow; it is those digits whenever the cleaned name starts so and holds
    no line feed, and it is ["Unknown"] whenever the cleaned name does not
    start so.  A cleaned name without hyphen gives the author ["Unknown"]
    and itself as the title.  The year and the author are never empty, and
    the title is empty exactly when the cleaned name is. *)
Theorem C10_parse_filename_metadata (filename : str) :
  let clean := SyncEngine.clean_name filename in
  exists year author title : str,
    SyncEngine._parse_filename_metadata filename = (year, author, title)
    /\ (year = lit "Unknown" \/ year_prefix clean year)
    /\ (forall d, year_prefix clean d -> ~ In LF clean -> year = d)
    /\ ((forall d, ~ year_prefix clean d) -> year = lit "Unknown")
    /\ (~ In hyphen clean -> author = lit "Unknown" /\ title = clean)
    /\ year <> [] /\ author <> []
    /\ (title = [] <-> clean = []).
Proof.
  intros clean.
  pose proof (clean_name_trimmed filename) as Htrim. fold clean in Htrim.
  unfold SyncEngine._parse_filename_metadata. fold clean.
  destruct (SyncEngine.filename_pattern_match clean) as [[[g1 g2] g3]|] eqn:E.
  2:{ exists (lit "Unknown"), (lit "Unknown"), clean.
      split; [reflexivity|]. split; [left; reflexivity|]. split.
      { intros d Hd Hno.
        destruct (filename_pattern_match_year clean d Hd Hno) as (x & y & E').
        congruence. }
      split; [reflexivity|]. split; [intros _; split; reflexivity|].
      split; [discriminate|]. split; [discriminate|]. reflexivity. }
  destruct (groups_facts clean g1 g2 g3 Htrim E)
    as (Hy & Ha & Hah & Hyh & Ht & Hplain).
  assert (Hy2 : forall d, year_prefix clean d -> ~ In LF clean -> g1 = Some d).
  { intros d Hd Hno.
    destruct (filename_pattern_match_year clean d Hd Hno) as (x & y & E').
    congruence. }
  set (year := if SyncEngine.group_truthy g1
               then strip (SyncEngine.group_text g1) else lit "Unknown").
  assert (Hyear : (year = lit "Unknown" \/ year_prefix clean year)
                  /\ (forall d, year_prefix clean d -> ~ In LF clean ->
                                year = d)
                  /\ ((forall d, ~ year_prefix clean d) ->
                      year = lit "Unknown")
                  /\ year <> []).
  { assert (Hd4 : forall d, year_prefix clean d ->
                    (if SyncEngine.group_truthy (Some d)
                     then strip (SyncEngine.group_text (Some d))
                     else lit "Unknown") = d).
    { intros d (Hlen & Hd & _). simpl.
      destruct d as [|c d]; [discriminate Hlen|]. simpl truthy. cbv iota.
      apply strip_digits, Hd. }
    subst year. destruct Hy as [-> | (d & -> & Hd)].
    - split; [left; reflexivity|]. split.
      + intros d Hd Hno. specialize (Hy2 d Hd Hno). discriminate Hy2.
      + split; [reflexivity | discriminate].
    - rewrite (Hd4 d Hd). split; [right; exact Hd|]. split.
      + intros d' Hd' Hno. specialize (Hy2 d' Hd' Hno). congruence.
      + split; [intros Hnone; exfalso; apply (Hnone d), Hd|].
        destruct Hd as (Hlen & _).
        destruct d; [discriminate Hlen | discriminate]. }
  clearbody year. destruct Hyear as (Hy_a & Hy_b & Hy_c & Hy_d).
  assert (Hfinish : forall author title : str,
            (~ In hyphen clean -> author = lit "Unknown" /\ title = clean) ->
            author <> [] -> (title = [] <-> clean = []) ->
            exists year0 author0 title0 : str,
              (year, author, title) = (year0, author0, title0)
              /\ (year0 = lit "Unknown" \/ year_prefix clean year0)
              /\ (forall d, year_prefix clean d -> ~ In LF clean -> year0 = d)
              /\ ((forall d, ~ year_prefix clean d) -> year0 = lit "Unknown")
              /\ (~ In hyphen clean ->
                  author0 = lit "Unknown" /\ title0 = clean)
              /\ year0 <> [] /\ author0 <> []
              /\ (title0 = [] <-> clean = [])).
  { intros author title H1 H2 H3. exists year, author, title.
    repeat (split; [first [reflexivity | assumption]|]). exact H3. }
  destruct g3 as [|c3 g3]; simpl truthy; cbv iota.
  - destruct g2 as [[|ca a]|]; simpl.
    + apply Hfinish;
        [intros _; split; reflexivity | discriminate | reflexivity].
    + assert (Hs : strip (ca :: a) <> [])
        by (apply (Ha _ eq_refl); discriminate).
      assert (Hc : clean <> []).
      { intros Hc. specialize (Hah _ eq_refl). rewrite Hc in Hah. exact Hah. }
      apply Hfinish; [|discriminate | split; intros; contradiction].
      intros Hno. exfalso. apply Hno, (Hah _ eq_refl).
    + apply Hfinish;
        [intros _; split; reflexivity | discriminate | reflexivity].
  - destruct (Ht ltac:(discriminate)) as [Hs Hc].
    destruct g2 as [[|ca a]|]; simpl.
    + apply Hfinish; [|discriminate | split; intros; contradiction].
      intros Hno. exfalso. apply Hno, (Hah _ eq_refl).
    + assert (Hsa : strip (ca :: a) <> [])
        by (apply (Ha _ eq_refl); discriminate).
      apply Hfinish; [|exact Hsa | split; intros; contradiction].
      intros Hno. exfalso. apply Hno, (Hah _ eq_refl).
    + apply Hfinish; [|discriminate | split; intros; contradiction].
      intros Hno. split; [reflexivity|].
      assert (Hg1 : g1 = None).
      { destruct g1; [|reflexivity]. exfalso. apply Hno, Hyh. discriminate. }
      rewrite (Hplain Hg1 eq_refl). exact Htrim.
Qed.

(* ===================================================================== *)
(** * Part III: further properties of the code                            *)
(* ===================================================================== *)

(** ** The store *)
Section StoreMore.
Import DBManager SyncEngine.

Lemma mark_returned (write : table -> outcome unit) (i name : str)
    (sum : option str) (t t' : table) :
  mark_file_as_processed write i name sum t = (Returned tt, t') ->
  t' = table_upsert
         {| file_id := i; file_name := name; checksum := sum;
            status := lit "synced" |} i t.
Proof.
  unfold mark_file_as_processed.
  destruct (write _) as [[]|e]; intros [= <-]; reflexivity.
Qed.

Lemma existsb_has_id_false (i : str) (t : table) :
  existsb (has_id i) t = false -> forall r, In r t -> has_id i r = false.
Proof.
  intros H r Hr. destruct (has_id i r) eqn:E; [|reflexivity].
  assert (existsb (has_id i) t = true)
    by (apply existsb_exists; exists r; split; assumption).
  congruence.
Qed.

Lemma map_id_on {A : Type} (f : A -> A) (l : list A) :
  (forall x, In x l -> f x = x) -> map f l = l.
Proof.
  induction l as [|x l IH]; intros H; simpl; [reflexivity|].
  rewrite (H x) by (left; reflexivity).
  f_equal. apply IH. intros y Hy. apply H. right. exact Hy.
Qed.

Lemma table_upsert_idem (doc : ChecksumRecord) (i : str) (t : table) :
  file_id doc = i ->
  table_upsert doc i (table_upsert doc i t) = table_upsert doc i t.
Proof.
  intros Hdoc.
  assert (Hd : has_id i doc = true) by (apply has_id_true, Hdoc).
  unfold table_upsert. destruct (existsb (has_id i) t) eqn:E.
  - assert (E' : existsb (has_id i)
                   (map (fun r => if has_id i r then doc else r) t) = true).
    { apply existsb_exists in E as (r & Hr & Hi).
      apply existsb_exists. exists doc. split; [|exact Hd].
      apply in_map_iff. exists r. rewrite Hi. split; [reflexivity|exact Hr]. }
    rewrite E', map_map. apply map_ext. intros r.
    destruct (has_id i r) eqn:Er; [rewrite Hd; reflexivity|].
    rewrite Er. reflexivity.
  - assert (E' : existsb (has_id i) (t ++ [doc]) = true).
    { rewrite existsb_app. simpl. rewrite Hd. apply orb_true_iff. right.
      reflexivity. }
    rewrite E', map_app. simpl. rewrite Hd. f_equal.
    apply map_id_on. intros r Hr.
    rewrite (existsb_has_id_false i t E r Hr). reflexivity.
Qed.

Lemma table_upsert_ids (doc : ChecksumRecord) (i : str) (t : table) :
  file_id doc = i ->
  map file_id (table_upsert doc i t) =
  if existsb (has_id i) t then map file_id t else map file_id t ++ [i].
Proof.
  intros Hdoc. unfold table_upsert. destruct (existsb (has_id i) t).
  - rewrite map_map. apply map_ext. intros r.
    destruct (has_id i r) eqn:Er; [|reflexivity].
    apply has_id_true in Er. congruence.
  - rewrite map_app. simpl. rewrite Hdoc. reflexivity.
Qed.

End StoreMore.

(** X1.  After [mark_file_as_processed] has returned, [check_file_status]
    answers [(True, checksum)] for the marked id, and what it answers for
    every other id is what it answered before. *)
Theorem X1_mark_then_check_file_status
    (write : DBManager.table -> outcome unit) (i name : str)
    (sum : option str) (t t' : DBManager.table) :
  DBManager.mark_file_as_processed write i name sum t = (Returned tt, t') ->
  DBManager.check_file_status i t' = (true, sum)
  /\ forall j, j <> i ->
       DBManager.check_file_status j t' = DBManager.check_file_status j t.
Proof.
  intros H. apply mark_returned in H. subst t'. split.
  - rewrite check_file_status_upsert by reflexivity.
    rewrite bool_decide_eq_true_2 by reflexivity. reflexivity.
  - intros j Hj. rewrite check_file_status_upsert by reflexivity.
    rewrite bool_decide_eq_false_2 by exact Hj. reflexivity.
Qed.

Lemma X1_mark_then_check_witness :
  let t := [ {| DBManager.file_id := lit "b"; DBManager.file_name := lit "B";
                DBManager.checksum := Some (lit "old");
                DBManager.status := lit "synced" |} ] in
  let t' := snd (DBManager.mark_file_as_processed (fun _ => Returned tt)
                   (lit "a") (lit "A.pdf") (Some (lit "x")) t) in
  DBManager.check_file_status (lit "a") t' = (true, Some (lit "x"))
  /\ DBManager.check_file_status (lit "b") t' = (true, Some (lit "old")).
Proof.
  intros t t'.
  destruct (X1_mark_then_check_file_status (fun _ => Returned tt)
              (lit "a") (lit "A.pdf") (Some (lit "x")) t t' eq_refl)
    as [Ha Hother].
  split; [exact Ha|].
  rewrite (Hother (lit "b")) by discriminate. reflexivity.
Defined.

(** X2.  Marking a file twice with the same name and checksum leaves the
    table as the first marking left it. *)
Theorem X2_mark_twice_is_mark_once
    (write : DBManager.table -> outcome unit) (i name : str)
    (sum : option str) (t t1 t2 : DBManager.table) :
  DBManager.mark_file_as_processed write i name sum t = (Returned tt, t1) ->
  DBManager.mark_file_as_processed write i name sum t1 = (Returned tt, t2) ->
  t2 = t1.
Proof.
  intros H1 H2. apply mark_returned in H1, H2. subst t1 t2.
  apply table_upsert_idem. reflexivity.
Qed.

Lemma X2_mark_twice_witness :
  let write : DBManager.table -> outcome unit := fun _ => Returned tt in
  let t1 := snd (DBManager.mark_file_as_processed write (lit "a")
                   (lit "A.pdf") (Some (lit "x")) []) in
  snd (DBManager.mark_file_as_processed write (lit "a") (lit "A.pdf")
         (Some (lit "x")) t1) = t1.
Proof.
  intros write t1.
  apply (X2_mark_twice_is_mark_once write (lit "a") (lit "A.pdf")
           (Some (lit "x")) [] t1); reflexivity.
Defined.

(** X3.  Marking keeps the table at one document per id: when no two
    documents share an id before, none do after; the table grows by one
    document when the id was absent and keeps its size otherwise. *)
Theorem X3_mark_keeps_one_document_per_id
    (write : DBManager.table -> outcome unit) (i name : str)
    (sum : option str) (t t' : DBManager.table) :
  NoDup (map DBManager.file_id t) ->
  DBManager.mark_file_as_processed write i name sum t = (Returned tt, t') ->
  NoDup (map DBManager.file_id t')
  /\ length t' =
     if fst (DBManager.check_file_status i t) then length t
     else S (length t).
Proof.
  intros Hnd H. apply mark_returned in H. subst t'.
  assert (Hex : existsb (DBManager.has_id i) t
                = fst (DBManager.check_file_status i t)).
  { unfold DBManager.check_file_status, DBManager.table_get.
    destruct (List.find (DBManager.has_id i) t) as [r|] eqn:E; simpl.
    - apply List.find_some in E as [Hr Hi].
      apply existsb_exists. exists r. split; assumption.
    - destruct (existsb (DBManager.has_id i) t) eqn:Ex; [|reflexivity].
      apply existsb_exists in Ex as (r & Hr & Hi).
      rewrite (List.find_none _ _ E r Hr) in Hi. discriminate Hi. }
  split.
  - rewrite table_upsert_ids by reflexivity.
    destruct (existsb (DBManager.has_id i) t) eqn:E; [exact Hnd|].
    apply NoDup_app. split; [exact Hnd|].
    split; [|apply NoDup_singleton].
    intros x Hx Hi. apply list_elem_of_In in Hx, Hi.
    destruct Hi as [<- | []].
    apply in_map_iff in Hx as (r & Hid & Hr).
    pose proof (existsb_has_id_false i t E r Hr) as Hf.
    apply has_id_false in Hf. contradiction.
  - rewrite <- Hex. unfold DBManager.table_upsert.
    destruct (existsb (DBManager.has_id i) t).
    + apply length_map.
    + rewrite length_app. simpl. lia.
Qed.

Lemma X3_mark_keeps_one_document_witness :
  let t := [ {| DBManager.file_id := lit "a"; DBManager.file_name := lit "A";
                DBManager.checksum := Some (lit "old");
                DBManager.status := lit "synced" |} ] in
  let t' := snd (DBManager.mark_file_as_processed (fun _ => Returned tt)
                   (lit "a") (lit "A.pdf") (Some (lit "x")) t) in
  NoDup (map DBManager.file_id t') /\ length t' = 1.
Proof.
  intros t t'.
  apply (X3_mark_keeps_one_document_per_id (fun _ => Returned tt)
           (lit "a") (lit "A.pdf") (Some (lit "x")) t t').
  - apply NoDup_singleton.
  - reflexivity.
Defined.

(** X4.  When a listing is in step with the store, so that the comparison
    selects nothing, and one entry of it then comes with another checksum,
    the comparison selects that entry and no other. *)
Theorem X4_changed_checksum_selects_that_entry
    (t : DBManager.table) (before after : list SyncEngine.DriveFile)
    (f f' : SyncEngine.DriveFile) :
  SyncEngine._get_files_to_process t (before ++ f :: after) = [] ->
  SyncEngine.id f' = SyncEngine.id f ->
  SyncEngine.md5Checksum f' <> SyncEngine.md5Checksum f ->
  SyncEngine._get_files_to_process t (before ++ f' :: after) = [f'].
Proof.
  rewrite !get_files_to_process_filter, !List.filter_app. simpl.
  intros H Hid Hsum.
  apply app_eq_nil in H as [Hb H]. rewrite Hb. simpl.
  destruct (needs_sync t f) eqn:Ef; [discriminate H|]. rewrite H.
  assert (Ef' : needs_sync t f' = true).
  { revert Ef. unfold needs_sync. rewrite Hid.
    destruct (DBManager.check_file_status (SyncEngine.id f) t) as [p s].
    destruct p; simpl; [|discriminate].
    rewrite !negb_false_iff, negb_true_iff, bool_decide_eq_true,
      bool_decide_eq_false.
    intros ->. congruence. }
  rewrite Ef'. reflexivity.
Qed.

Lemma X4_changed_checksum_witness :
  let t := [ {| DBManager.file_id := lit "a"; DBManager.file_name := lit "A";
                DBManager.checksum := Some (lit "x");
                DBManager.status := lit "synced" |};
             {| DBManager.file_id := lit "b"; DBManager.file_name := lit "B";
                DBManager.checksum := Some (lit "y");
                DBManager.status := lit "synced" |} ] in
  let a := {| SyncEngine.id := lit "a"; SyncEngine.name := lit "A";
              SyncEngine.md5Checksum := Some (lit "x") |} in
  let b := {| SyncEngine.id := lit "b"; SyncEngine.name := lit "B";
              SyncEngine.md5Checksum := Some (lit "y") |} in
  let b' := {| SyncEngine.id := lit "b"; SyncEngine.name := lit "B";
               SyncEngine.md5Checksum := Some (lit "z") |} in
  SyncEngine._get_files_to_process t ([a] ++ b' :: []) = [b'].
Proof.
  intros t a b b'.
  apply (X4_changed_checksum_selects_that_entry t [a] [] b b').
  - reflexivity.
  - reflexivity.
  - discriminate.
Defined.

(** ** The worker and the batch, continued *)
Section WorkerMore.
Import DBManager SyncEngine.
Local Arguments lit : simpl never.

Lemma gather_workers_store (env : Collaborators) (vs : str)
    (files : list DriveFile) (w : world) :
  exists (results : list bool) (w' : world),
    gather (map (fun file => _process_single_file env file vs) files) w
    = (Returned results, w')
    /\ length results = length files
    /\ db w' = fold_left settle (combine files results) (db w)
    /\ Forall2 (fun file b =>
                  b = true ->
                  upload_confirmed env file vs) files results.
Proof.
  revert w. induction files as [|file files IH]; intros w.
  - exists [], w. simpl. repeat split. constructor.
  - destruct (process_single_file_run env file vs w)
      as (b & rest & E & Hb & _).
    set (w1 := {| db := if b then commit (db w) file else db w;
                  calls := calls w ++ Download (id file) (name file) :: rest |})
      in E.
    destruct (IH w1) as (results & w' & Eg & Hlen & Hdb & Hall).
    exists (b :: results), w'.
    split; [|split; [|split]].
    + simpl. unfold bind at 1. rewrite E. unfold bind at 1. rewrite Eg.
      reflexivity.
    + simpl. congruence.
    + rewrite Hdb. reflexivity.
    + constructor; assumption.
Qed.

Lemma check_file_status_settle_other (t : table) (r : DriveFile * bool)
    (i : str) :
  id (fst r) <> i ->
  check_file_status i (settle t r) = check_file_status i t.
Proof.
  intros Hne. unfold settle. destruct (snd r); [|reflexivity].
  unfold commit. rewrite check_file_status_upsert by reflexivity.
  rewrite bool_decide_eq_false_2 by congruence. reflexivity.
Qed.

Lemma check_file_status_settled_other (pairs : list (DriveFile * bool))
    (t : table) (i : str) :
  (forall r, In r pairs -> id (fst r) <> i) ->
  check_file_status i (fold_left settle pairs t) = check_file_status i t.
Proof.
  revert t. induction pairs as [|r pairs IH]; intros t H; simpl.
  - reflexivity.
  - rewrite IH by (intros r' Hr'; apply H; right; exact Hr').
    apply check_file_status_settle_other, H. left. reflexivity.
Qed.

Lemma needs_sync_by_status (t t' : table) (f : DriveFile) :
  check_file_status (id f) t' = check_file_status (id f) t ->
  needs_sync t' f = needs_sync t f.
Proof. unfold needs_sync. intros ->. reflexivity. Qed.

Lemma needs_sync_settled_member (pairs : list (DriveFile * bool))
    (t : table) (f : DriveFile) (b : bool) :
  NoDup (map (fun r => id (fst r)) pairs) ->
  In (f, b) pairs ->
  needs_sync (fold_left settle pairs t) f
  = if b then false else needs_sync t f.
Proof.
  revert t. induction pairs as [|r pairs IH]; intros t Hnd Hin; simpl.
  - destruct Hin.
  - simpl in Hnd. apply NoDup_cons in Hnd as [Hr Hnd].
    assert (Hids : forall r', In r' pairs -> id (fst r') <> id (fst r)).
    { intros r' Hr' E. apply Hr. apply list_elem_of_In.
      apply in_map_iff. exists r'. split; assumption. }
    destruct Hin as [-> | Hin].
    + rewrite (needs_sync_by_status (settle t (f, b)))
        by (apply check_file_status_settled_other; exact Hids).
      unfold settle. simpl. destruct b; [|reflexivity].
      rewrite needs_sync_commit.
      rewrite bool_decide_eq_true_2 by reflexivity.
      rewrite bool_decide_eq_true_2 by reflexivity. reflexivity.
    + rewrite (IH _ Hnd Hin). destruct b; [reflexivity|].
      apply needs_sync_by_status, check_file_status_settle_other.
      intros E. apply (Hids (f, false) Hin). simpl. congruence.
Qed.

Lemma NoDup_map_filter {A B : Type} (h : A -> B) (p : A -> bool)
    (l : list A) :
  NoDup (map h l) -> NoDup (map h (List.filter p l)).
Proof.
  induction l as [|x l IH]; simpl; intros Hnd; [exact Hnd|].
  apply NoDup_cons in Hnd as [Hx Hnd].
  destruct (p x); simpl; [|apply IH, Hnd].
  apply NoDup_cons. split; [|apply IH, Hnd].
  intros Hin. apply Hx. apply list_elem_of_In in Hin.
  apply list_elem_of_In.
  apply in_map_iff in Hin as (y & Hy & Hin).
  apply List.filter_In in Hin as [Hin _].
  apply in_map_iff. exists y. split; assumption.
Qed.

Lemma NoDup_map_inj {A B : Type} (h : A -> B) (l : list A) (x y : A) :
  NoDup (map h l) -> In x l -> In y l -> h x = h y -> x = y.
Proof.
  induction l as [|z l IH]; simpl; intros Hnd Hx Hy E; [destruct Hx|].
  apply NoDup_cons in Hnd as [Hz Hnd].
  assert (Hout : forall u, In u l -> h z <> h u).
  { intros u Hu Ezu. apply Hz. apply list_elem_of_In.
    apply in_map_iff. exists u. split; [symmetry; exact Ezu | exact Hu]. }
  destruct Hx as [-> | Hx], Hy as [-> | Hy].
  - reflexivity.
  - exfalso. apply (Hout y Hy), E.
  - exfalso. apply (Hout x Hx). symmetry. exact E.
  - apply IH; assumption.
Qed.

Lemma map_fst_combine_same {A B : Type} (l : list A) (l' : list B) :
  length l' = length l -> map fst (combine l l') = l.
Proof.
  revert l'. induction l as [|x l IH]; intros [|y l'] H; simpl in *;
    try discriminate; [reflexivity|].
  f_equal. apply IH. congruence.
Qed.

Lemma filter_of_filter {A : Type} (p p0 : A -> bool) (l : list A) :
  (forall x, In x l -> p x = true -> p0 x = true) ->
  List.filter p (List.filter p0 l) = List.filter p l.
Proof.
  induction l as [|x l IH]; intros H; simpl; [reflexivity|].
  assert (IH' : List.filter p (List.filter p0 l) = List.filter p l)
    by (apply IH; intros y Hy; apply H; right; exact Hy).
  destruct (p0 x) eqn:E0; simpl; rewrite IH'.
  - reflexivity.
  - destruct (p x) eqn:Ep; [|reflexivity].
    rewrite (H x (or_introl eq_refl) Ep) in E0. discriminate E0.
Qed.

Lemma filter_by_results {A : Type} (p : A -> bool) (l : list A)
    (results : list bool) :
  length results = length l ->
  (forall x b, In (x, b) (combine l results) -> p x = negb b) ->
  List.filter p l
  = map fst (List.filter (fun r => negb (snd r)) (combine l results)).
Proof.
  revert results. induction l as [|x l IH]; intros [|b results] Hlen H;
    simpl in *; try discriminate; [reflexivity|].
  rewrite (H x b) by (left; reflexivity).
  rewrite (IH results) by (try congruence; intros y c Hy; apply H; right;
                           exact Hy).
  destruct b; reflexivity.
Qed.

End WorkerMore.

(** X5.  A worker answers [True] exactly when every stage up to the upload
    returned, the upload answered a truthy status, and the write of the
    store succeeded; the store then holds the entry.  Otherwise the store is
    the one the worker started from.  When the upload is confirmed the write
    is attempted in either case, and a write that raises gives [False]. *)
Theorem X5_worker_answers_true_iff_recorded
    (env : SyncEngine.Collaborators) (file : SyncEngine.DriveFile)
    (vs : str) (w : SyncEngine.world) :
  exists (b : bool) (w' : SyncEngine.world),
    SyncEngine._process_single_file env file vs w = (Returned b, w')
    /\ (b = true <->
        upload_confirmed env file vs
        /\ SyncEngine.storage_write env (commit (SyncEngine.db w) file)
           = Returned tt)
    /\ SyncEngine.db w'
       = (if b then commit (SyncEngine.db w) file else SyncEngine.db w)
    /\ (upload_confirmed env file vs ->
        In (SyncEngine.Upsert (SyncEngine.id file)
              (SyncEngine.md5Checksum file) b)
           (SyncEngine.calls w')).
Proof.
  destruct (process_single_file_run env file vs w)
    as (b & rest & E & Hb & _).
  eexists b, _. split; [exact E|]. simpl.
  split; [|split; [reflexivity|]].
  - split.
    + intros ->. split; [apply Hb; reflexivity|].
      destruct (process_single_file_confirmed env file vs w (Hb eq_refl))
        as (path & content & st & _ & E').
      destruct (SyncEngine.storage_write env _) as [[]|e];
        [reflexivity|].
      rewrite E in E'. discriminate E'.
    + intros [Hok Hw].
      destruct (process_single_file_confirmed env file vs w Hok)
        as (path & content & st & _ & E').
      rewrite Hw, E in E'. congruence.
  - intros Hok.
    destruct (process_single_file_confirmed env file vs w Hok)
      as (path & content & st & _ & E').
    rewrite E in E'.
    destruct (SyncEngine.storage_write env _) as [[]|e];
      injection E' as -> _ Hcalls; rewrite Hcalls;
      apply in_or_app; right; simpl; tauto.
Qed.

(** X6.  A batch leaves alone the documents it was not given: for an id
    that no queued file carries, [check_file_status] answers after the batch
    what it answered before. *)
Theorem X6_batch_leaves_other_documents
    (env : SyncEngine.Collaborators) (files : list SyncEngine.DriveFile)
    (vs : str) (w w' : SyncEngine.world) (counts : Z * Z) (i : str) :
  SyncEngine._process_file_batch env files vs w = (Returned counts, w') ->
  (forall file, In file files -> SyncEngine.id file <> i) ->
  DBManager.check_file_status i (SyncEngine.db w')
  = DBManager.check_file_status i (SyncEngine.db w).
Proof.
  intros Hrun Hids.
  destruct (gather_workers_store env vs files w)
    as (results & w1 & Eg & _ & Hdb & _).
  unfold SyncEngine._process_file_batch, SyncEngine.bind in Hrun.
  rewrite Eg in Hrun. injection Hrun as _ <-.
  rewrite Hdb. apply check_file_status_settled_other.
  intros [f b] Hr. apply Hids. apply in_combine_l in Hr. exact Hr.
Qed.

Lemma X6_batch_leaves_other_documents_witness :
  let w := {| SyncEngine.db := [example_record "c" "z"];
              SyncEngine.calls := [] |} in
  let run :=
    SyncEngine._process_file_batch (example_env true)
      [example_file "a" "x"; example_file "b" "y"] (lit "vs") w in
  fst run = Returned (1%Z, 1%Z)
  /\ DBManager.check_file_status (lit "c") (SyncEngine.db (snd run))
     = (true, Some (lit "z")).
Proof.
  intros w run. split; [vm_compute; reflexivity|].
  rewrite (X6_batch_leaves_other_documents (example_env true)
             [example_file "a" "x"; example_file "b" "y"] (lit "vs") w
             (snd run) (1%Z, 1%Z) (lit "c")).
  - reflexivity.
  - vm_compute. reflexivity.
  - intros file [<- | [<- | []]]; discriminate.
Defined.

(** X7.  When the listing has one entry per id, the queue of the next
    comparison is the queue of this one without the entries whose worker
    answered [True]: the documents that failed, in their order, and no
    other. *)
Theorem X7_next_queue_is_the_failed_documents
    (env : SyncEngine.Collaborators) (files : list SyncEngine.DriveFile)
    (vs : str) (w w' : SyncEngine.world) (results : list bool) :
  NoDup (map SyncEngine.id files) ->
  SyncEngine.gather
    (map (fun file => SyncEngine._process_single_file env file vs)
         (SyncEngine._get_files_to_process (SyncEngine.db w) files)) w
  = (Returned results, w') ->
  SyncEngine._get_files_to_process (SyncEngine.db w') files
  = map fst
      (List.filter (fun r => negb (snd r))
         (combine (SyncEngine._get_files_to_process (SyncEngine.db w) files)
                  results)).
Proof.
  intros Hnd Hrun.
  set (t := SyncEngine.db w) in *.
  set (queue := SyncEngine._get_files_to_process t files) in *.
  destruct (gather_workers_store env vs queue w)
    as (results0 & w0 & Eg & Hlen & Hdb & _).
  rewrite Eg in Hrun. injection Hrun as -> ->. fold t in Hdb.
  assert (Hq : queue = List.filter (needs_sync t) files)
    by apply get_files_to_process_filter.
  assert (Hndq : NoDup (map (fun r => SyncEngine.id (fst r))
                          (combine queue results))).
  { rewrite <- (map_map fst SyncEngine.id).
    rewrite map_fst_combine_same by exact Hlen.
    rewrite Hq. apply NoDup_map_filter, Hnd. }
  rewrite get_files_to_process_filter.
  rewrite <- (filter_of_filter _ (needs_sync t)).
  - rewrite <- Hq. apply filter_by_results; [exact Hlen|].
    intros f b Hin. rewrite Hdb.
    rewrite (needs_sync_settled_member _ _ _ _ Hndq Hin).
    destruct b; [reflexivity|].
    apply in_combine_l in Hin. rewrite Hq in Hin.
    apply List.filter_In in Hin as [_ Hin]. exact Hin.
  - intros f Hf Hafter.
    destruct (needs_sync t f) eqn:Ebefore; [reflexivity|].
    rewrite Hdb in Hafter.
    rewrite (needs_sync_by_status t) in Hafter; [congruence|].
    apply check_file_status_settled_other.
    intros [g b] Hin E. simpl in E.
    apply in_combine_l in Hin. rewrite Hq in Hin.
    apply List.filter_In in Hin as [Hg Hsel].
    assert (g = f) by (apply (NoDup_map_inj SyncEngine.id files); assumption).
    subst g. congruence.
Qed.

Lemma X7_next_queue_witness :
  let files := [example_file "a" "x"; example_file "b" "y"] in
  let w := {| SyncEngine.db := []; SyncEngine.calls := [] |} in
  let run :=
    SyncEngine.gather
      (map (fun file =>
              SyncEngine._process_single_file (example_env true) file
                (lit "vs"))
           (SyncEngine._get_files_to_process (SyncEngine.db w) files)) w in
  fst run = Returned [true; false]
  /\ SyncEngine._get_files_to_process (SyncEngine.db (snd run)) files
     = [example_file "b" "y"].
Proof.
  intros files w run. split; [vm_compute; reflexivity|].
  rewrite (X7_next_queue_is_the_failed_documents (example_env true) files
             (lit "vs") w (snd run) [true; false]).
  - reflexivity.
  - apply NoDup_cons. split.
    + intros H. apply list_elem_of_In in H. destruct H as [H | []].
      discriminate H.
    + apply NoDup_singleton.
  - vm_compute. reflexivity.
Defined.

(** ** The chunker, continued *)
Section ChunkerMore.
Import SemanticChunker.
Local Arguments lit : simpl never.

Lemma seal_solid (chunks : list str) (cur : str) :
  pack_solid (chunks, cur) ->
  forall c, In c (seal chunks cur) -> trimmed c /\ c <> [].
Proof.
  intros [Hch Hcur] c. unfold seal. simpl in *.
  destruct (truthy cur) eqn:E; [|apply Hch].
  intros H. apply in_app_or in H as [H | [<- | []]]; [apply Hch, H|].
  destruct Hcur as [-> | Hcur]; [discriminate E|].
  split; [apply strip_trimmed | apply strip_not_blank, Hcur].
Qed.

Lemma pack_solid_unit (chunks : list str) (cur unit sep : str) (fits : bool) :
  pack_solid (chunks, cur) -> ~ blank unit ->
  pack_solid (if fits then (chunks, cur ++ unit ++ sep)
              else (seal chunks cur, unit ++ sep)).
Proof.
  intros Hinv Hunit. destruct fits.
  - split; [apply Hinv|]. right. simpl. intros Hb.
    apply blank_app_inv in Hb as [_ Hb].
    apply blank_app_inv in Hb as [Hb _]. contradiction.
  - split; [apply seal_solid, Hinv|]. right. simpl. intros Hb.
    apply blank_app_inv in Hb as [Hb _]. contradiction.
Qed.

Lemma pack_sentences_solid (max : Z) (scs : list str) (st : pack_state) :
  pack_solid st -> (forall sc, In sc scs -> ~ blank sc) ->
  pack_solid (fold_left (pack_sentence max) scs st).
Proof.
  revert st. induction scs as [|sc scs IH]; intros st Hinv Hscs; simpl.
  - exact Hinv.
  - apply IH; [|intros sc' H; apply Hscs; right; exact H].
    destruct st as [chunks cur]. unfold pack_sentence.
    apply pack_solid_unit; [exact Hinv | apply Hscs; left; reflexivity].
Qed.

Lemma chunk_step_solid (max : Z) (st : pack_state) (para0 : str) :
  pack_solid st -> pack_solid (chunk_step max st para0).
Proof.
  intros Hinv. unfold chunk_step.
  destruct (truthy (strip para0)) eqn:E; simpl; [|exact Hinv].
  assert (Hpara : ~ blank (strip para0)).
  { apply trimmed_not_blank; [apply strip_trimmed | apply truthy_true, E]. }
  destruct (_ >? max)%Z.
  - apply pack_sentences_solid; [exact Hinv|].
    intros sc Hsc. apply split_by_sentences_trimmed in Hsc as [Ht Hne].
    apply trimmed_not_blank; assumption.
  - destruct st as [chunks cur]. unfold pack_paragraph.
    apply pack_solid_unit; assumption.
Qed.

Lemma chunk_steps_solid (max : Z) (paras : list str) (st : pack_state) :
  pack_solid st -> pack_solid (fold_left (chunk_step max) paras st).
Proof.
  revert st. induction paras as [|p paras IH]; intros st Hinv; simpl.
  - exact Hinv.
  - apply IH, chunk_step_solid, Hinv.
Qed.

(** *** A text that fits *)

Lemma laid_down_app (a b : list str) :
  laid_down (a ++ b) = laid_down a ++ laid_down b.
Proof. unfold laid_down. rewrite map_app. apply concat_app. Qed.

Lemma laid_down_join (paras : list str) :
  paras <> [] -> laid_down paras = join [LF; LF] paras ++ [LF; LF].
Proof.
  induction paras as [|p [|q paras] IH]; intros Hne.
  - congruence.
  - unfold laid_down. simpl. rewrite app_nil_r. reflexivity.
  - change (laid_down (p :: q :: paras))
      with ((p ++ [LF; LF]) ++ laid_down (q :: paras)).
    rewrite IH by discriminate.
    change (join [LF; LF] (p :: q :: paras))
      with (p ++ [LF; LF] ++ join [LF; LF] (q :: paras)).
    rewrite <- !app_assoc. reflexivity.
Qed.

Lemma trimmed_ends (b : str) :
  trimmed b -> b <> [] ->
  exists d r, rev b = d :: r /\ isspace d = false.
Proof.
  intros Ht Hne.
  pose proof (rstrip_strip b) as E. unfold trimmed in Ht. rewrite Ht in E.
  unfold rstrip in E.
  assert (E' : lstrip (rev b) = rev b).
  { rewrite <- (rev_involutive (lstrip (rev b))), E. reflexivity. }
  destruct (lstrip_cases (rev b)) as [H | (d & r & H & Hd)];
    rewrite E' in H.
  - exfalso. apply Hne. rewrite <- (rev_involutive b), H. reflexivity.
  - exists d, r. split; assumption.
Qed.

(** Two trimmed texts with anything between them make a trimmed text. *)
Lemma trimmed_around (a m b : str) :
  trimmed a -> a <> [] -> trimmed b -> b <> [] -> trimmed (a ++ m ++ b).
Proof.
  intros Ha Hane Hb Hbne. unfold trimmed, strip.
  destruct (strip_cases a) as [E | (c & a' & E & Hc)]; rewrite Ha in E;
    [congruence|].
  subst a. change ((c :: a') ++ m ++ b) with (c :: (a' ++ m ++ b)).
  rewrite lstrip_head by exact Hc.
  destruct (trimmed_ends b Hb Hbne) as (d & r & Hrev & Hd).
  unfold rstrip.
  change (c :: a' ++ m ++ b) with ((c :: a') ++ m ++ b).
  rewrite !rev_app_distr, Hrev. simpl.
  rewrite Hd. simpl.
  assert (Eb : b = rev r ++ [d]).
  { rewrite <- (rev_involutive b), Hrev. reflexivity. }
  rewrite !rev_app_distr, !rev_involutive, Eb. simpl.
  rewrite <- !app_assoc. reflexivity.
Qed.

Lemma join_trimmed (paras : list str) :
  (forall p, In p paras -> trimmed p /\ p <> []) -> paras <> [] ->
  trimmed (join [LF; LF] paras) /\ join [LF; LF] paras <> [].
Proof.
  induction paras as [|p [|q paras] IH]; intros H Hne.
  - congruence.
  - simpl. apply H. left. reflexivity.
  - destruct (H p (or_introl eq_refl)) as [Hp Hpne].
    destruct IH as [Hj Hjne];
      [intros x Hx; apply H; right; exact Hx | discriminate |].
    change (join [LF; LF] (p :: q :: paras))
      with (p ++ [LF; LF] ++ join [LF; LF] (q :: paras)).
    split; [apply trimmed_around; assumption|].
    destruct p; [congruence | discriminate].
Qed.

Lemma paragraphs_of_solid (text p : str) :
  In p (paragraphs_of text) -> trimmed p /\ p <> [].
Proof.
  unfold paragraphs_of. intros H.
  apply in_map_iff in H as (x & <- & Hx).
  apply List.filter_In in Hx as [_ Hx].
  split; [apply strip_trimmed | apply truthy_true, Hx].
Qed.

(** While everything fits, the loop only lays paragraphs down. *)
Lemma chunk_steps_fit (max : Z) (pieces : list str) (done : list str) :
  (Z.of_nat
     (length
        (laid_down
           (done
            ++ map strip
                 (List.filter (fun p => truthy (strip p)) pieces))))
   <= max)%Z ->
  fold_left (chunk_step max) pieces ([], laid_down done)
  = ([], laid_down
           (done
            ++ map strip (List.filter (fun p => truthy (strip p)) pieces))).
Proof.
  revert done. induction pieces as [|p0 pieces IH]; intros done Hfit; simpl.
  - rewrite app_nil_r. reflexivity.
  - assert (Estep : truthy (strip p0) = true ->
        (Z.of_nat (length (laid_down (done ++ [strip p0]))) <= max)%Z ->
        chunk_step max ([], laid_down done) p0
        = ([], laid_down (done ++ [strip p0]))).
    { intros E Hlen. unfold chunk_step. rewrite E. simpl.
      rewrite laid_down_app, length_app in Hlen.
      unfold laid_down at 2 in Hlen. simpl in Hlen.
      rewrite app_nil_r, length_app in Hlen. simpl in Hlen.
      assert (Egt : (Z.of_nat (length (strip p0)) >? max)%Z = false).
      { destruct (Z.gtb_spec (Z.of_nat (length (strip p0))) max);
          [lia | reflexivity]. }
      rewrite Egt. unfold pack_paragraph.
      assert (Ele : (Z.of_nat (length (laid_down done))
                     + Z.of_nat (length (strip p0)) + 2 <=? max)%Z = true)
        by (apply Z.leb_le; lia).
      rewrite Ele, laid_down_app. unfold laid_down at 3. simpl.
      rewrite app_nil_r. reflexivity. }
    simpl in Hfit.
    destruct (truthy (strip p0)) eqn:E.
    + assert (Eapp : forall l : list str,
                done ++ strip p0 :: l = (done ++ [strip p0]) ++ l)
        by (intros l; rewrite <- app_assoc; reflexivity).
      simpl in Hfit. rewrite Eapp in Hfit. simpl map. rewrite Eapp.
      simpl fold_left.
      rewrite Estep.
      * apply IH, Hfit.
      * reflexivity.
      * rewrite laid_down_app, length_app in Hfit. lia.
    + replace (chunk_step max ([], laid_down done) p0)
        with (([], laid_down done) : pack_state)
        by (unfold chunk_step; rewrite E; reflexivity).
      apply IH, Hfit.
Qed.

Lemma nonspace_nil_blank (s : str) : nonspace s = [] -> blank s.
Proof.
  induction s as [|c s IH]; simpl; intros H; [constructor|].
  destruct (isspace c) eqn:E; simpl in H; [|discriminate H].
  constructor; [exact E | apply IH, H].
Qed.

Lemma paragraphs_of_nonspace (text : str) :
  nonspace (concat (paragraphs_of text)) = nonspace text.
Proof.
  unfold paragraphs_of. rewrite strip_filter_nonspace.
  rewrite re_split_nonspace by apply search_paragraph_break_split.
  apply nonspace_strip.
Qed.

Lemma chunk_text_solid (max : Z) (text c : str) :
  In c (chunk_text max text) -> c <> [] /\ trimmed c /\ ~ blank c.
Proof.
  unfold chunk_text.
  destruct (negb (truthy text) || negb (truthy (strip text))); [intros []|].
  pose proof (chunk_steps_solid max
                (re_split search_paragraph_break (strip text))
                ([], [])) as H.
  destruct (fold_left _ _ _) as [chunks cur].
  assert (Hinv : pack_solid (chunks, cur)).
  { apply H. split; [intros x [] | left; reflexivity]. }
  assert (Hgoal : forall x, trimmed x /\ x <> [] ->
                            x <> [] /\ trimmed x /\ ~ blank x).
  { intros x [Ht Hne]. split; [exact Hne|]. split; [exact Ht|].
    apply trimmed_not_blank; assumption. }
  destruct Hinv as [Hch _]. simpl in Hch.
  destruct (truthy (strip cur)) eqn:E; [|intros Hin; apply Hgoal, Hch, Hin].
  intros Hin. apply in_app_or in Hin as [Hin | [<- | []]];
    [apply Hgoal, Hch, Hin|].
  apply Hgoal. split; [apply strip_trimmed | apply truthy_true, E].
Qed.

End ChunkerMore.

(** X10.  No chunk of [chunk_text] is empty, and none starts or ends with
    whitespace. *)
Theorem X10_chunks_are_trimmed_and_not_empty
    (max_chunk_chars : Z) (text c : str) :
  In c (SemanticChunker.chunk_text max_chunk_chars text) ->
  c <> [] /\ trimmed c /\ ~ blank c.
Proof. apply chunk_text_solid. Qed.

Lemma X10_chunks_trimmed_witness :
  let text :=
    lit "  One short sentence. This second sentence is rather longer. End."
    ++ [LF; LF] ++ lit " Tail.  " in
  In (lit "End. Tail.") (SemanticChunker.chunk_text 20 text)
  /\ trimmed (lit "End. Tail.").
Proof.
  intros text.
  assert (H : In (lit "End. Tail.") (SemanticChunker.chunk_text 20 text))
    by (vm_compute; tauto).
  split; [exact H|].
  apply (X10_chunks_are_trimmed_and_not_empty 20 text _ H).
Defined.

(** X11.  A text that is not blank and whose paragraphs, joined by one
    blank line, leave room for two more characters within the limit comes
    out as one chunk: its paragraphs stripped and joined by exactly two line
    feeds, whatever whitespace lay between and around them. *)
Theorem X11_text_that_fits_is_one_chunk (max_chunk_chars : Z) (text : str) :
  ~ blank text ->
  (Z.of_nat (length (join [LF; LF] (paragraphs_of text))) + 2
   <= max_chunk_chars)%Z ->
  SemanticChunker.chunk_text max_chunk_chars text
  = [join [LF; LF] (paragraphs_of text)].
Proof.
  intros Hnb Hfit.
  assert (Hne : paragraphs_of text <> []).
  { intros E. apply Hnb, nonspace_nil_blank.
    rewrite <- paragraphs_of_nonspace, E. reflexivity. }
  assert (Hs : strip text <> []) by (apply strip_not_blank, Hnb).
  assert (Ht : text <> []) by (intros ->; apply Hs; reflexivity).
  unfold SemanticChunker.chunk_text.
  apply truthy_true in Hs, Ht. rewrite Hs, Ht. cbn [negb orb].
  assert (Hfold :
    (Z.of_nat (length (laid_down (paragraphs_of text))) <= max_chunk_chars)%Z
    -> fold_left (SemanticChunker.chunk_step max_chunk_chars)
         (re_split SemanticChunker.search_paragraph_break (strip text))
         ([], [])
       = ([], laid_down (paragraphs_of text))).
  { exact (chunk_steps_fit max_chunk_chars
             (re_split SemanticChunker.search_paragraph_break (strip text))
             []). }
  cbv zeta. rewrite Hfold.
  - rewrite laid_down_join by exact Hne.
    destruct (join_trimmed (paragraphs_of text)) as [Hj Hjne];
      [apply paragraphs_of_solid | exact Hne |].
    rewrite strip_trimmed_app by (try exact Hj; repeat constructor).
    apply truthy_true in Hjne. rewrite Hjne. reflexivity.
  - rewrite laid_down_join by exact Hne. rewrite length_app. simpl. lia.
Qed.

Lemma X11_text_that_fits_witness :
  let text :=
    lit "  Para one." ++ [LF] ++ lit "  " ++ [LF; LF] ++ lit "Para two. "
  in
  SemanticChunker.chunk_text 3000 text
  = [lit "Para one." ++ [LF; LF] ++ lit "Para two."].
Proof.
  intros text.
  rewrite (X11_text_that_fits_is_one_chunk 3000 text).
  - vm_compute. reflexivity.
  - intros H. apply nonspace_blank in H. vm_compute in H. discriminate H.
  - vm_compute. discriminate.
Defined.

(** X12.  A paragraph that is longer than the limit and holds neither a
    paragraph break nor a sentence boundary comes out as one chunk, whole
    and unchanged. *)
Theorem X12_long_sentence_is_one_chunk (max_chunk_chars : Z) (p : str) :
  trimmed p -> p <> [] ->
  SemanticChunker.search_paragraph_break p = None ->
  SemanticChunker.search_sentence_break p = None ->
  (Z.of_nat (length p) > max_chunk_chars)%Z ->
  SemanticChunker.chunk_text max_chunk_chars p = [p].
Proof. apply chunk_text_one_long_sentence. Qed.

Lemma X12_long_sentence_witness :
  SemanticChunker.chunk_text 10 (lit "a sentence. that goes on and on")
  = [lit "a sentence. that goes on and on"].
Proof.
  apply (X12_long_sentence_is_one_chunk 10);
    solve [reflexivity | discriminate].
Defined.

(** ** The injector, and the loop that feeds it *)
Section InjectorMore.
Import MetadataInjector.
Local Arguments lit : simpl never.

Lemma inject_metadata_not_blank (c : str) (m : gmap string pyval) :
  ~ blank c ->
  inject_metadata c m = Returned (strip c ++ metadata_block (validated m)).
Proof.
  intros Hc. rewrite inject_metadata_eq.
  pose proof (strip_not_blank c Hc) as Hs. apply truthy_true in Hs.
  rewrite Hs. reflexivity.
Qed.

Lemma validate_page_number_solid (v : pyval) :
  trimmed (validate_page_number v) /\ validate_page_number v <> [].
Proof.
  unfold validate_page_number.
  destruct (negb (py_truth v) || negb (truthy (strip (py_str v)))) eqn:E.
  - split; [reflexivity | discriminate].
  - apply orb_false_elim in E as [_ E]. apply negb_false_iff in E.
    split; [apply strip_trimmed | apply truthy_true, E].
Qed.

Lemma validated_page_solid (m : gmap string pyval) :
  trimmed (internal_page_number (validated m))
  /\ internal_page_number (validated m) <> [].
Proof.
  unfold validated.
  destruct (ChunkMetadata_init_cases m)
    as [-> | (t & a & y & _ & _ & _ & ->)]; simpl.
  - split; [reflexivity | discriminate].
  - apply validate_page_number_solid.
Qed.

Lemma validated_refused (m : gmap string pyval) :
  str_field (m !! "title"%string) = None
  \/ str_field (m !! "author"%string) = None
  \/ str_field (m !! "year"%string) = None ->
  validated m = ChunkMetadata_default.
Proof.
  intros H. unfold validated.
  destruct (ChunkMetadata_init_cases m)
    as [-> | (t & a & y & Ht & Ha & Hy & _)]; [reflexivity|].
  destruct H as [H | [H | H]]; congruence.
Qed.

Lemma validated_page_meta (t a y : str) (page : SyncEngine.Page) :
  validated (SyncEngine.page_meta t a y page)
  = {| title := t; author := a; year := y;
       internal_page_number :=
         validate_page_number
           (PStr (SyncEngine.page_internal_number page)) |}.
Proof. reflexivity. Qed.

Lemma inject_chunks_solid (meta : gmap string pyval) (chunks acc : list str) :
  (forall c, In c chunks -> trimmed c /\ c <> []) ->
  SyncEngine.inject_chunks meta chunks acc
  = Returned
      (acc ++ map (fun c => c ++ metadata_block (validated meta)) chunks).
Proof.
  revert acc. induction chunks as [|c chunks IH]; intros acc H; simpl.
  - rewrite app_nil_r. reflexivity.
  - destruct (H c (or_introl eq_refl)) as [Ht Hne].
    rewrite inject_metadata_not_blank
      by (apply trimmed_not_blank; assumption).
    rewrite Ht, IH by (intros x Hx; apply H; right; exact Hx).
    rewrite <- app_assoc. reflexivity.
Qed.

Lemma enrich_pages_blocks (t a y : str) (pages : list SyncEngine.Page)
    (acc : list str) :
  SyncEngine.enrich_pages t a y pages acc
  = Returned (acc ++ flat_map (page_blocks t a y) pages).
Proof.
  revert acc. induction pages as [|page pages IH]; intros acc; simpl.
  - rewrite app_nil_r. reflexivity.
  - rewrite inject_chunks_solid.
    + rewrite IH, validated_page_meta, <- app_assoc. reflexivity.
    + intros c Hc.
      apply chunk_text_solid in Hc as (Hne & Ht & _). split; assumption.
Qed.

End InjectorMore.

(** X13.  Whatever the metadata dict holds, the internal page number that
    [inject_metadata] writes after a chunk that is not blank is never empty
    and carries no whitespace around it. *)
Theorem X13_written_page_number_is_never_blank
    (c : str) (m : gmap string MetadataInjector.pyval) :
  ~ blank c ->
  exists meta : MetadataInjector.ChunkMetadata,
    MetadataInjector.inject_metadata c m
    = Returned (strip c ++ MetadataInjector.metadata_block meta)
    /\ MetadataInjector.internal_page_number meta <> []
    /\ trimmed (MetadataInjector.internal_page_number meta)
    /\ ~ blank (MetadataInjector.internal_page_number meta).
Proof.
  intros Hc. exists (validated m).
  split; [apply inject_metadata_not_blank, Hc|].
  destruct (validated_page_solid m) as [Ht Hne].
  split; [exact Hne|]. split; [exact Ht|].
  apply trimmed_not_blank; assumption.
Qed.

Lemma X13_written_page_number_witness :
  ~ blank (lit "body")
  /\ exists meta : MetadataInjector.ChunkMetadata,
       MetadataInjector.inject_metadata (lit "body")
         {[ "internal_page_number"%string
              := MetadataInjector.PStr (lit " 59 ") ]}
       = Returned (strip (lit "body") ++ MetadataInjector.metadata_block meta)
       /\ MetadataInjector.internal_page_number meta <> []
       /\ trimmed (MetadataInjector.internal_page_number meta)
       /\ ~ blank (MetadataInjector.internal_page_number meta).
Proof.
  assert (H : ~ blank (lit "body")).
  { intros H. apply nonspace_blank in H. vm_compute in H. discriminate H. }
  split; [exact H|].
  apply (X13_written_page_number_is_never_blank (lit "body") _ H).
Defined.

(** X14.  When the title, the author or the year of the metadata dict is
    [None] or a value that the schema refuses, [inject_metadata] falls back
    on the default metadata as a whole: the block after a chunk that is not
    blank holds ["Unknown"] in all four fields, also in those whose value
    was valid. *)
Theorem X14_one_refused_field_resets_all_four
    (c : str) (m : gmap string MetadataInjector.pyval) :
  ~ blank c ->
  MetadataInjector.str_field (m !! "title"%string) = None
  \/ MetadataInjector.str_field (m !! "author"%string) = None
  \/ MetadataInjector.str_field (m !! "year"%string) = None ->
  MetadataInjector.inject_metadata c m
  = Returned
      (strip c
       ++ MetadataInjector.metadata_block
            MetadataInjector.ChunkMetadata_default).
Proof.
  intros Hc Hm. rewrite inject_metadata_not_blank by exact Hc.
  rewrite validated_refused by exact Hm. reflexivity.
Qed.

Lemma X14_one_refused_field_witness :
  MetadataInjector.inject_metadata (lit "body")
    {[ "title"%string := MetadataInjector.PNone;
       "author"%string := MetadataInjector.PStr (lit "Eco");
       "year"%string := MetadataInjector.PStr (lit "1980");
       "internal_page_number"%string := MetadataInjector.PStr (lit "59") ]}
  = Returned
      (lit "body" ++ [LF; LF]
       ++ MetadataInjector.rule ++ [LF]
       ++ lit "**SOURCE METADATA FOR FORENSIC EXTRACTION:**" ++ [LF]
       ++ lit "Title: Unknown" ++ [LF]
       ++ lit "Author: Unknown" ++ [LF]
       ++ lit "Year: Unknown" ++ [LF]
       ++ lit "Internal Pagination: Unknown" ++ [LF]
       ++ MetadataInjector.rule ++ [LF]).
Proof.
  rewrite (X14_one_refused_field_resets_all_four (lit "body")).
  - reflexivity.
  - intros H. apply nonspace_blank in H. vm_compute in H. discriminate H.
  - left. reflexivity.
Defined.

(** X15.  The loop of [_process_single_file] over the extracted pages never
    raises, and it writes one block for every chunk of every page, in
    order: the chunk as [chunk_text] gave it, followed by the metadata block
    with the title, author and year of the file and the validated page
    number of the page.  No chunk is skipped and none is changed. *)
Theorem X15_every_chunk_gets_its_page_block
    (title author year : str) (pages : list SyncEngine.Page) :
  SyncEngine.enrich_pages title author year pages []
  = Returned (flat_map (page_blocks title author year) pages).
Proof. apply (enrich_pages_blocks title author year pages []). Qed.

(** ** The worker, continued *)
Section PipelineMore.
Import SyncEngine DBManager.
Local Arguments lit : simpl never.

Ltac no_such_call H :=
  simpl in H;
  repeat (destruct H as [H | H]; [try discriminate H|]);
  try contradiction.

Lemma enrich_pages_processed_text (file_name : str) (pages : list Page) :
  (let '(year, author, title) := _parse_filename_metadata file_name in
   enrich_pages title author year pages [])
  = Returned
      (let '(year, author, title) := _parse_filename_metadata file_name in
       flat_map (page_blocks title author year) pages).
Proof.
  destruct (_parse_filename_metadata file_name) as [[y a] t].
  apply (enrich_pages_blocks t a y pages []).
Qed.

(** The run of a worker up to the upload. *)
Lemma process_single_file_upload (env : Collaborators) (file : DriveFile)
    (vs : str) (w : world) :
  exists (b : bool) (new : list call),
    _process_single_file env file vs w
    = (Returned b,
       {| db := if b then commit (db w) file else db w;
          calls := calls w ++ new |})
    /\ forall p v r, In (Upload p v r) new ->
         exists (local_path : str) (pages : list Page) (post : list call),
           download_file env (id file) (name file) TEMP_DIR
           = Returned (Some local_path)
           /\ extract_document env local_path = Returned pages
           /\ p = local_path ++ lit "_processed.txt"
           /\ v = vs
           /\ r = upload_file_to_store env p vs
           /\ new = [Download (id file) (name file); Extract local_path;
                     WriteText p (processed_text (name file) pages);
                     Upload p v r] ++ post
           /\ forall q v' r', ~ In (Upload q v' r') post.
Proof.
  unfold _process_single_file, pipeline, bind, try_except, invoke, lift, ret,
    raise, db_mark_file_as_processed, mark_file_as_processed, processed_text.
  simpl.
  destruct (download_file env (id file) (name file) TEMP_DIR)
    as [[[|c lp]|]|e] eqn:Ed; simpl;
    try (exists false, [Download (id file) (name file)];
         split; [reflexivity|]; intros p v r H; no_such_call H).
  pose proof (enrich_pages_processed_text (name file)) as En.
  destruct (_parse_filename_metadata (name file)) as [[y a] t] eqn:Ep.
  simpl.
  destruct (extract_document env (c :: lp)) as [pages|e] eqn:Ee; simpl.
  2:{ exists false, [Download (id file) (name file); Extract (c :: lp)].
      rewrite <- app_assoc.
      split; [reflexivity|]. intros p v r H. no_such_call H. }
  rewrite En. simpl.
  set (path := c :: lp ++ lit "_processed.txt").
  set (content := join [LF; LF] (flat_map (page_blocks t a y) pages)).
  destruct (_write_text_file env path content) as [[]|e] eqn:Ew; simpl.
  2:{ exists false,
        [Download (id file) (name file); Extract (c :: lp);
         WriteText path content].
      rewrite <- !app_assoc.
      split; [reflexivity|]. intros p v r H. no_such_call H. }
  assert (Hup : forall post p v r,
            (forall q v' r', ~ In (Upload q v' r') post) ->
            In (Upload p v r)
               ([Download (id file) (name file); Extract (c :: lp);
                 WriteText path content;
                 Upload path vs (upload_file_to_store env path vs)] ++ post) ->
            exists (local_path : str) (pages0 : list Page) (post0 : list call),
              Returned (Some (c :: lp)) = Returned (Some local_path)
              /\ extract_document env local_path = Returned pages0
              /\ p = local_path ++ lit "_processed.txt"
              /\ v = vs
              /\ r = upload_file_to_store env p vs
              /\ [Download (id file) (name file); Extract (c :: lp);
                  WriteText path content;
                  Upload path vs (upload_file_to_store env path vs)] ++ post
                 = [Download (id file) (name file); Extract local_path;
                    WriteText p
                      (join [LF; LF] (flat_map (page_blocks t a y) pages0));
                    Upload p v r] ++ post0
              /\ forall q v' r', ~ In (Upload q v' r') post0).
  { intros post p v r Hpost H.
    simpl in H.
    destruct H as [H | [H | [H | [H | H]]]]; try discriminate H;
      [|exfalso; exact (Hpost _ _ _ H)].
    injection H as <- <- <-.
    exists (c :: lp), pages, post. repeat split; try assumption. }
  destruct (upload_file_to_store env path vs) as [st|e] eqn:Eu; simpl.
  2:{ exists false,
        ([Download (id file) (name file); Extract (c :: lp);
          WriteText path content; Upload path vs (Raised e)] ++ []).
      rewrite <- !app_assoc.
      split; [reflexivity|]. intros p v r. apply Hup. intros q v' r' []. }
  destruct (truthy st) eqn:Et; simpl.
  2:{ exists false,
        ([Download (id file) (name file); Extract (c :: lp);
          WriteText path content; Upload path vs (Returned st)] ++ []).
      rewrite <- !app_assoc.
      split; [reflexivity|]. intros p v r. apply Hup. intros q v' r' []. }
  fold (record_of file). fold (commit (db w) file).
  destruct (storage_write env (commit (db w) file)) as [[]|e] eqn:Es; simpl.
  - exists true,
      ([Download (id file) (name file); Extract (c :: lp);
        WriteText path content; Upload path vs (Returned st)]
       ++ [Upsert (id file) (md5Checksum file) true]).
    rewrite <- !app_assoc.
    split; [reflexivity|]. intros p v r. apply Hup.
    intros q v' r' H. no_such_call H.
  - exists false,
      ([Download (id file) (name file); Extract (c :: lp);
        WriteText path content; Upload path vs (Returned st)]
       ++ [Upsert (id file) (md5Checksum file) false]).
    rewrite <- !app_assoc.
    split; [reflexivity|]. intros p v r. apply Hup.
    intros q v' r' H. no_such_call H.
Qed.

Lemma processed_text_blank (file_name : str) (pages : list Page) :
  Forall (fun page => blank (text page)) pages ->
  processed_text file_name pages = [].
Proof.
  intros H. unfold processed_text.
  destruct (_parse_filename_metadata file_name) as [[y a] t].
  replace (flat_map (page_blocks t a y) pages) with ([] : list str);
    [reflexivity|].
  induction H as [|page pages Hp _ IH]; [reflexivity|].
  simpl. rewrite <- IH. unfold page_blocks.
  rewrite chunk_text_blank by exact Hp. reflexivity.
Qed.

(** The run of a worker whose collaborators all succeed. *)
Lemma process_single_file_success (env : Collaborators) (file : DriveFile)
    (vs local_path status : str) (pages : list Page) (w : world) :
  let path := local_path ++ lit "_processed.txt" in
  download_file env (id file) (name file) TEMP_DIR
  = Returned (Some local_path) ->
  local_path <> [] ->
  extract_document env local_path = Returned pages ->
  _write_text_file env path (processed_text (name file) pages)
  = Returned tt ->
  upload_file_to_store env path vs = Returned status ->
  truthy status = true ->
  storage_write env (commit (db w) file) = Returned tt ->
  _process_single_file env file vs w
  = (Returned true,
     {| db := commit (db w) file;
        calls := calls w
                 ++ [Download (id file) (name file); Extract local_path;
                     WriteText path (processed_text (name file) pages);
                     Upload path vs (Returned status);
                     Upsert (id file) (md5Checksum file) true] |}).
Proof.
  intros path Ed Hlp Ee Ew Eu Hst Es. subst path.
  unfold _process_single_file, pipeline, bind, try_except, invoke, lift, ret,
    raise, db_mark_file_as_processed, mark_file_as_processed, processed_text
    in *.
  simpl. rewrite Ed. simpl.
  destruct local_path as [|c lp]; [congruence|].
  pose proof (enrich_pages_processed_text (name file) pages) as En.
  destruct (_parse_filename_metadata (name file)) as [[y a] t].
  simpl in Ew, Eu.
  simpl. rewrite Ee. simpl. rewrite En. simpl.
  rewrite Ew. simpl. rewrite Eu. simpl. rewrite Hst. simpl.
  fold (record_of file). fold (commit (db w) file).
  rewrite Es. simpl. rewrite <- !app_assoc. reflexivity.
Qed.

End PipelineMore.

(** X16.  Among the calls of one worker, an upload names the file that this
    worker wrote, never the document it downloaded: the upload is the
    worker's fourth call, after its download, its extraction and its write,
    in this order; the path it names is the path of that write, which is the
    download path followed by ["_processed.txt"]; the text handed to that
    write is the blocks of the extracted pages joined by two line feeds; the
    vector store it names is the one given to the worker; and a worker
    uploads once at most.  This is a statement on the calls the worker
    makes and their arguments; what the file at that path holds when the
    upload reads it is not part of it. *)
Theorem X16_upload_names_the_file_the_worker_wrote
    (env : SyncEngine.Collaborators) (file : SyncEngine.DriveFile)
    (vs : str) (w : SyncEngine.world) :
  exists (b : bool) (w' : SyncEngine.world) (new : list SyncEngine.call),
    SyncEngine._process_single_file env file vs w = (Returned b, w')
    /\ SyncEngine.calls w' = SyncEngine.calls w ++ new
    /\ forall p v r, In (SyncEngine.Upload p v r) new ->
         exists (local_path : str) (pages : list SyncEngine.Page)
                (post : list SyncEngine.call),
           SyncEngine.download_file env (SyncEngine.id file)
             (SyncEngine.name file) SyncEngine.TEMP_DIR
           = Returned (Some local_path)
           /\ SyncEngine.extract_document env local_path = Returned pages
           /\ p = local_path ++ lit "_processed.txt"
           /\ v = vs
           /\ r = SyncEngine.upload_file_to_store env p vs
           /\ new = [SyncEngine.Download (SyncEngine.id file)
                       (SyncEngine.name file);
                     SyncEngine.Extract local_path;
                     SyncEngine.WriteText p
                       (processed_text (SyncEngine.name file) pages);
                     SyncEngine.Upload p v r] ++ post
           /\ forall q v' r', ~ In (SyncEngine.Upload q v' r') post.
Proof.
  destruct (process_single_file_upload env file vs w) as (b & new & E & H).
  eexists b, _, new. split; [exact E|]. split; [reflexivity | exact H].
Qed.

(** X17.  A document whose pages hold no text is still synced: when the
    extraction returns pages that are all blank and the other stages
    succeed, the worker writes an empty file, uploads it, records the
    checksum of the document and answers [True]. *)
Theorem X17_document_without_text_is_recorded
    (env : SyncEngine.Collaborators) (file : SyncEngine.DriveFile)
    (vs local_path status : str) (pages : list SyncEngine.Page)
    (w : SyncEngine.world) :
  let path := local_path ++ lit "_processed.txt" in
  SyncEngine.download_file env (SyncEngine.id file) (SyncEngine.name file)
    SyncEngine.TEMP_DIR = Returned (Some local_path) ->
  local_path <> [] ->
  SyncEngine.extract_document env local_path = Returned pages ->
  Forall (fun page => blank (SyncEngine.text page)) pages ->
  SyncEngine._write_text_file env path [] = Returned tt ->
  SyncEngine.upload_file_to_store env path vs = Returned status ->
  truthy status = true ->
  SyncEngine.storage_write env (commit (SyncEngine.db w) file) = Returned tt ->
  SyncEngine._process_single_file env file vs w
  = (Returned true,
     {| SyncEngine.db := commit (SyncEngine.db w) file;
        SyncEngine.calls :=
          SyncEngine.calls w
          ++ [SyncEngine.Download (SyncEngine.id file) (SyncEngine.name file);
              SyncEngine.Extract local_path;
              SyncEngine.WriteText path [];
              SyncEngine.Upload path vs (Returned status);
              SyncEngine.Upsert (SyncEngine.id file)
                (SyncEngine.md5Checksum file) true] |})
  /\ DBManager.check_file_status (SyncEngine.id file)
       (commit (SyncEngine.db w) file)
     = (true, SyncEngine.md5Checksum file).
Proof.
  intros path Ed Hlp Ee Hblank Ew Eu Hst Es. split.
  - rewrite <- (processed_text_blank (SyncEngine.name file) pages Hblank)
      in Ew |- *.
    apply (process_single_file_success env file vs local_path status pages w);
      assumption.
  - unfold commit. rewrite check_file_status_upsert by reflexivity.
    rewrite bool_decide_eq_true_2 by reflexivity. reflexivity.
Qed.

Lemma X17_document_without_text_witness :
  let file := example_file "a" "c1" in
  let w := {| SyncEngine.db := []; SyncEngine.calls := [] |} in
  fst (SyncEngine._process_single_file scanned_env file (lit "vs_1") w)
  = Returned true
  /\ DBManager.check_file_status (lit "a")
       (SyncEngine.db
          (snd (SyncEngine._process_single_file scanned_env file
                  (lit "vs_1") w)))
     = (true, Some (lit "c1"))
  /\ In (SyncEngine.WriteText
           (lit "temp_data/2020 - Author - Title.pdf_processed.txt") [])
        (SyncEngine.calls
           (snd (SyncEngine._process_single_file scanned_env file
                   (lit "vs_1") w))).
Proof.
  intros file w.
  destruct (X17_document_without_text_is_recorded scanned_env file
              (lit "vs_1") (lit "temp_data/2020 - Author - Title.pdf")
              (lit "upload_success")
              [ {| SyncEngine.page_index := 0;
                   SyncEngine.text := [];
                   SyncEngine.page_internal_number := lit "Unknown" |};
                {| SyncEngine.page_index := 1;
                   SyncEngine.text := lit "  " ++ [LF];
                   SyncEngine.page_internal_number := lit "Unknown" |} ]
              w) as [E Hc];
    try reflexivity; try discriminate.
  - repeat constructor.
  - rewrite E. simpl. split; [reflexivity|]. split; [exact Hc|].
    right. right. left. reflexivity.
Defined.

(** ** The page-number heuristic of the extraction *)
Section PaginationFacts.
Import ExtractionService.
Local Arguments lit : simpl never.

Lemma optional_hyphen_sound {R : Type} (s : str) (k : str -> option R)
    (v : R) :
  optional_hyphen s k = Some v ->
  exists dash r, s = dash ++ r /\ optional_dash dash /\ k r = Some v.
Proof.
  unfold optional_hyphen. intros H.
  destruct (one_char hyphen s k) as [r|] eqn:E.
  - injection H as ->. apply one_char_sound in E as (r' & -> & E).
    exists [hyphen], r'. repeat split; [right; reflexivity | exact E].
  - exists [], s. repeat split; [left; reflexivity | exact H].
Qed.

Lemma optional_hyphen_complete {R : Type} (dash r : str)
    (k : str -> option R) :
  optional_dash dash -> is_Some (k r) ->
  is_Some (optional_hyphen (dash ++ r) k).
Proof.
  intros [-> | ->] Hk; unfold optional_hyphen; simpl.
  - destruct (one_char hyphen r k); [eauto | exact Hk].
  - destruct Hk as (v & ->). eauto.
Qed.

Lemma digits_group_sound {R : Type} (s : str) (k : str -> str -> option R)
    (v : R) :
  digits_group s k = Some v ->
  exists d r, s = d ++ r /\ d <> []
              /\ Forall (fun c => isdigit c = true) d /\ k d r = Some v.
Proof.
  unfold digits_group. destruct s as [|c s]; [discriminate|].
  destruct (isdigit c) eqn:Hc; [|discriminate].
  intros H. apply star_greedy_sound in H as (a & b & -> & Ha & H).
  exists (c :: a), b. repeat split; [discriminate | | exact H].
  constructor; assumption.
Qed.

Lemma digits_group_complete {R : Type} (d r : str)
    (k : str -> str -> option R) :
  d <> [] -> Forall (fun c => isdigit c = true) d -> is_Some (k d r) ->
  is_Some (digits_group (d ++ r) k).
Proof.
  intros Hne Hd Hk. destruct Hd as [|c d Hc Hd]; [congruence|].
  simpl. rewrite Hc.
  apply (star_greedy_complete _ _ _ _ d r); [reflexivity | exact Hd | exact Hk].
Qed.

Lemma number_tail_sound (s number : str) :
  number_tail s = Some number ->
  exists dash1 ws1 ws2 dash2 tail : str,
    s = dash1 ++ ws1 ++ number ++ ws2 ++ dash2 ++ tail
    /\ optional_dash dash1 /\ blank ws1
    /\ number <> [] /\ Forall (fun c => isdigit c = true) number
    /\ blank ws2 /\ optional_dash dash2 /\ at_end tail = true.
Proof.
  unfold number_tail. intros H.
  apply optional_hyphen_sound in H as (dash1 & r1 & -> & Hd1 & H).
  apply star_greedy_sound in H as (ws1 & r2 & -> & Hw1 & H).
  apply digits_group_sound in H as (d & r3 & -> & Hne & Hd & H).
  apply star_greedy_sound in H as (ws2 & r4 & -> & Hw2 & H).
  apply optional_hyphen_sound in H as (dash2 & tail & -> & Hd2 & H).
  destruct (at_end tail) eqn:Hend; [|discriminate H].
  injection H as <-.
  exists dash1, ws1, ws2, dash2, tail. repeat split; assumption.
Qed.

Lemma number_tail_complete (dash1 ws1 number ws2 dash2 : str) :
  optional_dash dash1 -> blank ws1 ->
  number <> [] -> Forall (fun c => isdigit c = true) number ->
  blank ws2 -> optional_dash dash2 ->
  is_Some (number_tail (dash1 ++ ws1 ++ number ++ ws2 ++ dash2)).
Proof.
  intros Hd1 Hw1 Hne Hd Hw2 Hd2. unfold number_tail.
  apply optional_hyphen_complete; [exact Hd1|].
  apply (star_greedy_complete _ _ _ _ ws1 (number ++ ws2 ++ dash2));
    [reflexivity | exact Hw1 |].
  apply digits_group_complete; [exact Hne | exact Hd |].
  apply (star_greedy_complete _ _ _ _ ws2 dash2);
    [reflexivity | exact Hw2 |].
  rewrite <- (app_nil_r dash2).
  apply optional_hyphen_complete; [exact Hd2|].
  simpl. eauto.
Qed.

Lemma page_word_sound {R : Type} (s : str) (k : str -> option R) (v : R) :
  page_word s k = Some v ->
  exists word r, s = word ++ r /\ page_word_text word /\ k r = Some v.
Proof.
  unfold page_word.
  destruct s as [|p [|a [|g [|e s]]]]; try discriminate.
  destruct (either_case "P" "p" p) eqn:Hp; [|discriminate].
  destruct (either_case "A" "a" a) eqn:Ha; [|discriminate].
  destruct (either_case "G" "g" g) eqn:Hg; [|discriminate].
  destruct (either_case "E" "e" e) eqn:He; [|discriminate].
  simpl. intros H.
  apply star_greedy_sound in H as (ws & r & -> & Hws & H).
  exists ([p; a; g; e] ++ ws), r. split; [reflexivity|]. split; [|exact H].
  exists p, a, g, e, ws. repeat split; assumption.
Qed.

Lemma page_word_complete {R : Type} (word r : str) (k : str -> option R) :
  page_word_text word -> is_Some (k r) -> is_Some (page_word (word ++ r) k).
Proof.
  intros (p & a & g & e & ws & -> & Hp & Ha & Hg & He & Hws) Hk.
  simpl. rewrite Hp, Ha, Hg, He. simpl.
  apply (star_greedy_complete _ _ _ _ ws r); [reflexivity | exact Hws |].
  exact Hk.
Qed.

(** A match of the pattern, on any text: the line feed that [$] allows at
    the end is [tail]. *)
Lemma page_number_search_sound (line number : str) :
  page_number_search line = Some number ->
  exists body tail : str,
    line = body ++ tail /\ at_end tail = true
    /\ page_number_line body number.
Proof.
  unfold page_number_search. intros H.
  destruct (page_word line number_tail) as [d|] eqn:E.
  - injection H as ->.
    apply page_word_sound in E as (word & r & -> & Hword & E).
    apply number_tail_sound in E
      as (dash1 & ws1 & ws2 & dash2 & tail & -> & H1 & H2 & H3 & H4 & H5
          & H6 & H7).
    exists (word ++ dash1 ++ ws1 ++ number ++ ws2 ++ dash2), tail.
    split; [rewrite <- !app_assoc; reflexivity|]. split; [exact H7|].
    exists word, dash1, ws1, ws2, dash2.
    repeat split; try assumption. right. exact Hword.
  - apply number_tail_sound in H
      as (dash1 & ws1 & ws2 & dash2 & tail & -> & H1 & H2 & H3 & H4 & H5
          & H6 & H7).
    exists (dash1 ++ ws1 ++ number ++ ws2 ++ dash2), tail.
    split; [rewrite <- !app_assoc; reflexivity|]. split; [exact H7|].
    exists [], dash1, ws1, ws2, dash2.
    repeat split; try assumption. left. reflexivity.
Qed.

Lemma page_number_search_complete (line number : str) :
  page_number_line line number -> is_Some (page_number_search line).
Proof.
  intros (word & dash1 & ws1 & ws2 & dash2 & -> & Hword & H1 & H2 & H3 & H4
          & H5 & H6).
  pose proof (number_tail_complete dash1 ws1 number ws2 dash2 H1 H2 H3 H4 H5
                H6) as Htail.
  unfold page_number_search. destruct Hword as [-> | Hword].
  - simpl app at 1.
    destruct (page_word _ number_tail); [eauto | exact Htail].
  - pose proof (page_word_complete word _ number_tail Hword Htail)
      as (d & ->).
    eauto.
Qed.

(** *** The digits of a line that matches *)

Lemma filter_digits_blank (w : str) : blank w -> List.filter isdigit w = [].
Proof.
  induction 1 as [|c w Hc _ IH]; simpl; [reflexivity|].
  destruct (isdigit c) eqn:Hd; [|exact IH].
  apply digit_not_space in Hd. congruence.
Qed.

Lemma filter_digits_all (d : str) :
  Forall (fun c => isdigit c = true) d -> List.filter isdigit d = d.
Proof.
  induction 1 as [|c d Hc _ IH]; simpl; [reflexivity|].
  rewrite Hc, IH. reflexivity.
Qed.

Lemma filter_digits_dash (dash : str) :
  optional_dash dash -> List.filter isdigit dash = [].
Proof. intros [-> | ->]; reflexivity. Qed.

Lemma either_case_not_digit (upper lower c : ascii) :
  isdigit upper = false -> isdigit lower = false ->
  either_case upper lower c = true -> isdigit c = false.
Proof.
  intros Hu Hl H. unfold either_case in H.
  apply orb_prop in H as [H | H]; apply Ascii.eqb_eq in H; subst c;
    assumption.
Qed.

Lemma filter_digits_word (word : str) :
  word = [] \/ page_word_text word -> List.filter isdigit word = [].
Proof.
  intros [-> | (p & a & g & e & ws & -> & Hp & Ha & Hg & He & Hws)];
    [reflexivity|].
  apply either_case_not_digit in Hp, Ha, Hg, He; try reflexivity.
  simpl. rewrite Hp, Ha, Hg, He. apply filter_digits_blank, Hws.
Qed.

Lemma page_number_line_digits (line number : str) :
  page_number_line line number -> List.filter isdigit line = number.
Proof.
  intros (word & dash1 & ws1 & ws2 & dash2 & -> & Hword & H1 & H2 & H3 & H4
          & H5 & H6).
  rewrite !List.filter_app.
  rewrite (filter_digits_word word Hword), (filter_digits_dash dash1 H1),
    (filter_digits_blank ws1 H2), (filter_digits_all number H4),
    (filter_digits_blank ws2 H5), (filter_digits_dash dash2 H6).
  simpl. apply app_nil_r.
Qed.

Lemma trimmed_no_tail (body tail : str) :
  trimmed (body ++ tail) -> at_end tail = true -> tail = [].
Proof.
  intros Ht Hend. destruct tail as [|c [|c' tail]]; [reflexivity | |];
    simpl in Hend; [|discriminate Hend].
  apply Ascii.eqb_eq in Hend. subst c. exfalso.
  destruct (trimmed_ends (body ++ [LF]) Ht) as (d & r & Hrev & Hd).
  - destruct body; discriminate.
  - rewrite rev_app_distr in Hrev. simpl in Hrev.
    injection Hrev as <- _. discriminate Hd.
Qed.

Lemma page_number_search_iff (line number : str) :
  trimmed line ->
  page_number_search line = Some number <-> page_number_line line number.
Proof.
  intros Ht. split.
  - intros H.
    apply page_number_search_sound in H as (body & tail & -> & Hend & H).
    rewrite (trimmed_no_tail body tail Ht Hend), app_nil_r. exact H.
  - intros H.
    destruct (page_number_search_complete line number H) as (d & E).
    rewrite E. f_equal.
    apply page_number_search_sound in E as (body & tail & E & Hend & Hd).
    rewrite E in Ht. rewrite (trimmed_no_tail body tail Ht Hend) in E.
    rewrite app_nil_r in E. subst body.
    rewrite <- (page_number_line_digits line d Hd).
    apply page_number_line_digits, H.
Qed.

(** *** The lines of a page *)

Lemma split_lines_not_nil (s : str) : split_lines s <> [].
Proof.
  induction s as [|c s IH]; simpl; [discriminate|].
  destruct (Ascii.eqb c LF); [discriminate|].
  destruct (split_lines s); discriminate.
Qed.

Lemma split_lines_first (first rest : str) :
  one_line first ->
  split_lines (first ++ LF :: rest) = first :: split_lines rest.
Proof.
  unfold one_line. induction first as [|c first IH]; intros H.
  - reflexivity.
  - simpl. destruct (Ascii.eqb c LF) eqn:E.
    + apply Ascii.eqb_eq in E. exfalso. apply H. left. exact E.
    + rewrite IH by (intros Hin; apply H; right; exact Hin). reflexivity.
Qed.

Lemma split_lines_one_line (line : str) :
  one_line line -> split_lines line = [line].
Proof.
  unfold one_line. induction line as [|c line IH]; intros H.
  - reflexivity.
  - simpl. destruct (Ascii.eqb c LF) eqn:E.
    + apply Ascii.eqb_eq in E. exfalso. apply H. left. exact E.
    + rewrite IH by (intros Hin; apply H; right; exact Hin). reflexivity.
Qed.

(** [split] undoes [join] on lines that hold no line feed. *)
Lemma split_lines_join (lines : list str) :
  lines <> [] -> Forall one_line lines ->
  split_lines (join [LF] lines) = lines.
Proof.
  intros Hne H. induction H as [|line [|next lines] Hl Hls IH].
  - congruence.
  - simpl. apply split_lines_one_line, Hl.
  - change (join [LF] (line :: next :: lines))
      with (line ++ LF :: join [LF] (next :: lines)).
    rewrite split_lines_first by exact Hl.
    rewrite IH by discriminate. reflexivity.
Qed.

Lemma candidate_lines_ends (top mid bottom : list str) :
  length top = 5 -> length bottom = 5 ->
  candidate_lines (top ++ mid ++ bottom) = top ++ bottom.
Proof.
  intros Htop Hbottom. unfold candidate_lines. f_equal.
  - rewrite firstn_app, <- Htop, firstn_all, Nat.sub_diag. simpl.
    apply app_nil_r.
  - rewrite !length_app, Htop, Hbottom.
    replace (5 + (length mid + 5) - 5) with (length top + length mid) by lia.
    rewrite app_assoc, skipn_app, <- length_app.
    rewrite skipn_all, Nat.sub_diag. reflexivity.
Qed.

Lemma guess_of_lines (lines : list str) :
  lines <> [] -> Forall one_line lines ->
  _guess_internal_pagination (join [LF] lines)
  = first_page_number (candidate_lines lines).
Proof.
  intros Hne H. unfold _guess_internal_pagination.
  rewrite split_lines_join by assumption.
  destruct lines; [congruence | reflexivity].
Qed.

(** *** What the heuristic answers *)

Lemma first_page_number_cases (candidates : list str) :
  first_page_number candidates = lit "Unknown"
  \/ exists line, In line candidates
       /\ page_number_line (strip line) (first_page_number candidates).
Proof.
  induction candidates as [|line candidates IH]; simpl; [left; reflexivity|].
  destruct (page_number_search (strip line)) as [d|] eqn:E.
  - right. exists line. split; [left; reflexivity|].
    apply page_number_search_iff; [apply strip_trimmed | exact E].
  - destruct IH as [IH | (l & Hl & IH)]; [left; exact IH|].
    right. exists l. split; [right; exact Hl | exact IH].
Qed.

Lemma candidate_lines_incl (lines : list str) (line : str) :
  In line (candidate_lines lines) -> In line lines.
Proof.
  unfold candidate_lines. intros H.
  apply in_app_or in H as [H | H].
  - rewrite <- (firstn_skipn 5 lines). apply in_or_app. left. exact H.
  - rewrite <- (firstn_skipn (length lines - 5) lines).
    apply in_or_app. right. exact H.
Qed.

Lemma guess_cases (page_text : str) :
  _guess_internal_pagination page_text = lit "Unknown"
  \/ exists line, In line (split_lines page_text)
       /\ page_number_line (strip line)
            (_guess_internal_pagination page_text).
Proof.
  unfold _guess_internal_pagination.
  destruct (split_lines page_text) as [|l ls] eqn:E; [left; reflexivity|].
  destruct (first_page_number_cases (candidate_lines (l :: ls)))
    as [H | (line & Hin & H)]; [left; exact H|].
  right. exists line. split; [apply candidate_lines_incl, Hin | exact H].
Qed.

Lemma validate_page_number_digits (d : str) :
  d <> [] -> Forall (fun c => isdigit c = true) d ->
  MetadataInjector.validate_page_number (MetadataInjector.PStr d) = d.
Proof.
  intros Hne Hd. unfold MetadataInjector.validate_page_number. simpl.
  rewrite (strip_digits d Hd).
  apply truthy_true in Hne. rewrite Hne. reflexivity.
Qed.

End PaginationFacts.

(** X18.  The page number that [_guess_internal_pagination] answers is
    ["Unknown"] or a run of digits, not empty, that stands alone on a line
    of the page; and the validator of [ChunkMetadata] hands it on as it is,
    so that it reaches the metadata block unchanged. *)
Theorem X18_guessed_page_number_is_unknown_or_digits (page_text : str) :
  let guess := ExtractionService._guess_internal_pagination page_text in
  (guess = lit "Unknown"
   \/ (guess <> [] /\ Forall (fun c => isdigit c = true) guess
       /\ exists line, In line (ExtractionService.split_lines page_text)
            /\ page_number_line (strip line) guess))
  /\ MetadataInjector.validate_page_number (MetadataInjector.PStr guess)
     = guess.
Proof.
  intros guess. subst guess.
  destruct (guess_cases page_text) as [-> | (line & Hin & H)].
  - split; [left; reflexivity | reflexivity].
  - pose proof H as (_ & _ & _ & _ & _ & _ & _ & _ & _ & Hne & Hd & _).
    split.
    + right. split; [exact Hne|]. split; [exact Hd|].
      exists line. split; assumption.
    + apply validate_page_number_digits; assumption.
Qed.

(** X19.  The pattern of the heuristic accepts a stripped line exactly when
    the line is a page number standing alone: the word [Page] in any case
    or not, a hyphen or not, digits, a hyphen or not, with whitespace
    allowed after the word and around the digits; the number it answers is
    those digits. *)
Theorem X19_page_number_pattern (line number : str) :
  trimmed line ->
  ExtractionService.page_number_search line = Some number
  <-> page_number_line line number.
Proof. apply page_number_search_iff. Qed.

Lemma X19_page_number_pattern_witness :
  ExtractionService.page_number_search (lit "pAGE  - 12 -") = Some (lit "12")
  /\ ~ page_number_line (lit "Page 12 of 40") (lit "12").
Proof.
  split.
  - apply (X19_page_number_pattern (lit "pAGE  - 12 -") (lit "12"));
      [reflexivity|].
    exists (lit "pAGE  "), (lit "-"), (lit " "), (lit " "), (lit "-").
    split; [reflexivity|].
    split; [right; exists "p"%char, "A"%char, "G"%char, "E"%char, (lit "  ");
            repeat split; repeat constructor|].
    split; [right; reflexivity|]. split; [repeat constructor|].
    split; [discriminate|]. split; [repeat constructor|].
    split; [repeat constructor | right; reflexivity].
  - intros H.
    apply (X19_page_number_pattern (lit "Page 12 of 40") (lit "12")) in H;
      [|reflexivity].
    vm_compute in H. discriminate H.
Defined.

(** X20.  Only the first five and the last five lines of a page are looked
    at: on a page of ten lines or more, the lines between them play no part
    in the answer, so a page number that stands there is not found. *)
Theorem X20_middle_lines_play_no_part
    (top middle middle' bottom : list str) :
  length top = 5 -> length bottom = 5 ->
  Forall one_line (top ++ middle ++ bottom) ->
  Forall one_line middle' ->
  ExtractionService._guess_internal_pagination
    (join [LF] (top ++ middle ++ bottom))
  = ExtractionService._guess_internal_pagination
      (join [LF] (top ++ middle' ++ bottom)).
Proof.
  intros Htop Hbottom Hlines Hmiddle'.
  assert (Hne : forall mid, top ++ mid ++ bottom <> []).
  { intros mid. destruct top; [discriminate Htop | discriminate]. }
  assert (Hlines' : Forall one_line (top ++ middle' ++ bottom)).
  { apply Forall_app in Hlines as [Ht Hlines].
    apply Forall_app in Hlines as [_ Hb].
    apply Forall_app. split; [exact Ht|].
    apply Forall_app. split; assumption. }
  rewrite (guess_of_lines _ (Hne middle) Hlines).
  rewrite (guess_of_lines _ (Hne middle') Hlines').
  rewrite !candidate_lines_ends by assumption. reflexivity.
Qed.

Lemma X20_middle_lines_witness :
  let top := [lit "Chapter 3"; lit "a"; lit "b"; lit "c"; lit "d"] in
  let bottom := [lit "e"; lit "f"; lit "g"; lit "h"; lit "the end"] in
  ExtractionService._guess_internal_pagination
    (join [LF] (top ++ [lit "59"] ++ bottom))
  = lit "Unknown".
Proof.
  intros top bottom.
  rewrite (X20_middle_lines_play_no_part top [lit "59"] [] bottom).
  - reflexivity.
  - reflexivity.
  - reflexivity.
  - unfold top, bottom. simpl app.
    repeat (apply List.Forall_cons;
            [intros H; simpl in H;
             repeat (destruct H as [H | H]; [discriminate H|]); exact H|]).
    apply List.Forall_nil.
  - apply List.Forall_nil.
Defined.

(** X21.  The first line of a page decides when it is a page number: a page
    whose first line, stripped, is a page number standing alone gets that
    number, whatever the rest of the page holds. *)
Theorem X21_number_on_the_first_line_wins (first rest number : str) :
  one_line first ->
  page_number_line (strip first) number ->
  ExtractionService._guess_internal_pagination first = number
  /\ ExtractionService._guess_internal_pagination (first ++ LF :: rest)
     = number.
Proof.
  intros Hline Hnum.
  apply (proj2 (page_number_search_iff (strip first) number
                  (strip_trimmed first))) in Hnum.
  unfold ExtractionService._guess_internal_pagination. split.
  - rewrite split_lines_one_line by exact Hline.
    simpl. rewrite Hnum. reflexivity.
  - rewrite split_lines_first by exact Hline.
    unfold ExtractionService.candidate_lines.
    simpl. rewrite Hnum. reflexivity.
Qed.

Lemma X21_number_on_the_first_line_witness :
  ExtractionService._guess_internal_pagination
    (lit "  - 7 -" ++ LF :: lit "Text of the page." ++ LF :: lit "91")
  = lit "7".
Proof.
  apply (X21_number_on_the_first_line_wins (lit "  - 7 -")).
  - intros H. simpl in H.
    repeat (destruct H as [H | H]; [discriminate H|]). exact H.
  - exists [], (lit "-"), (lit " "), (lit " "), (lit "-").
    split; [reflexivity|]. split; [left; reflexivity|].
    split; [right; reflexivity|]. split; [repeat constructor|].
    split; [discriminate|]. split; [repeat constructor|].
    split; [repeat constructor | right; reflexivity].
Defined.

(** ** The cycle *)
Section CycleFacts.
Import SyncEngine DBManager.
Local Arguments lit : simpl never.

Ltac no_such_file H :=
  simpl in H;
  repeat (destruct H as [H | H];
          [subst; simpl in *; try discriminate; try congruence|]);
  try contradiction.

(** A cycle answers what its services answer, and leaves what its batch
    leaves. *)
Lemma start_run (services : Services) (env : Collaborators) (w : world) :
  start services env w = (cycle_outcome services, cycle_world services env w).
Proof.
  unfold start, try_finally, try_except, bind, lift, db_get_files_to_process,
    raise, ret, cycle_outcome, cycle_world.
  destruct (ensure_vector_store services) as [vs|e];
    [|destruct (_prepare_temp_dir services) as [[]|e'];
      destruct (list_pdfs_in_folder services); reflexivity].
  destruct (list_pdfs_in_folder services) as [listing|e];
    [|destruct (_prepare_temp_dir services) as [[]|e']; reflexivity].
  destruct (_get_files_to_process (db w) listing) as [|f queue].
  - simpl.
    destruct (ensure_assistant services vs) as [a|e];
      destruct (_prepare_temp_dir services) as [[]|e']; reflexivity.
  - destruct (process_file_batch_run env (f :: queue) vs w)
      as (results & w' & new & E & _).
    rewrite E. simpl.
    destruct (ensure_assistant services vs) as [a|e];
      destruct (_prepare_temp_dir services) as [[]|e']; reflexivity.
Qed.

(** The calls of a worker that name a document name its own. *)
Lemma process_single_file_ids (env : Collaborators) (file : DriveFile)
    (vs : str) (w : world) :
  exists (b : bool) (new : list call),
    _process_single_file env file vs w
    = (Returned b,
       {| db := if b then commit (db w) file else db w;
          calls := calls w ++ new |})
    /\ forall c i, In c new -> call_file_id c = Some i -> i = id file.
Proof.
  unfold _process_single_file, pipeline, bind, try_except, invoke, lift, ret,
    raise, db_mark_file_as_processed, mark_file_as_processed.
  simpl.
  destruct (download_file env (id file) (name file) TEMP_DIR)
    as [[[|c lp]|]|e] eqn:Ed; simpl;
    try (exists false, [Download (id file) (name file)];
         split; [reflexivity|]; intros x i H Hi; no_such_file H).
  destruct (_parse_filename_metadata (name file)) as [[y a] t] eqn:Ep.
  simpl.
  destruct (extract_document env (c :: lp)) as [pages|e] eqn:Ee; simpl.
  2:{ exists false, [Download (id file) (name file); Extract (c :: lp)].
      rewrite <- app_assoc.
      split; [reflexivity|]. intros x i H Hi. no_such_file H. }
  destruct (enrich_pages t a y pages []) as [blocks|e] eqn:En; simpl.
  2:{ exists false, [Download (id file) (name file); Extract (c :: lp)].
      rewrite <- app_assoc.
      split; [reflexivity|]. intros x i H Hi. no_such_file H. }
  set (path := c :: lp ++ lit "_processed.txt").
  set (content := join [LF; LF] blocks).
  destruct (_write_text_file env path content) as [[]|e] eqn:Ew; simpl.
  2:{ exists false,
        [Download (id file) (name file); Extract (c :: lp);
         WriteText path content].
      rewrite <- !app_assoc.
      split; [reflexivity|]. intros x i H Hi. no_such_file H. }
  destruct (upload_file_to_store env path vs) as [st|e] eqn:Eu; simpl.
  2:{ exists false,
        [Download (id file) (name file); Extract (c :: lp);
         WriteText path content; Upload path vs (Raised e)].
      rewrite <- !app_assoc.
      split; [reflexivity|]. intros x i H Hi. no_such_file H. }
  destruct (truthy st) eqn:Et; simpl.
  2:{ exists false,
        [Download (id file) (name file); Extract (c :: lp);
         WriteText path content; Upload path vs (Returned st)].
      rewrite <- !app_assoc.
      split; [reflexivity|]. intros x i H Hi. no_such_file H. }
  fold (record_of file). fold (commit (db w) file).
  destruct (storage_write env (commit (db w) file)) as [[]|e] eqn:Es; simpl.
  - exists true,
      [Download (id file) (name file); Extract (c :: lp);
       WriteText path content; Upload path vs (Returned st);
       Upsert (id file) (md5Checksum file) true].
    rewrite <- !app_assoc.
    split; [reflexivity|]. intros x i H Hi. no_such_file H.
  - exists false,
      [Download (id file) (name file); Extract (c :: lp);
       WriteText path content; Upload path vs (Returned st);
       Upsert (id file) (md5Checksum file) false].
    rewrite <- !app_assoc.
    split; [reflexivity|]. intros x i H Hi. no_such_file H.
Qed.

Lemma gather_workers_ids (env : Collaborators) (vs : str)
    (files : list DriveFile) (w : world) :
  exists (results : list bool) (w' : world) (new : list call),
    gather (map (fun file => _process_single_file env file vs) files) w
    = (Returned results, w')
    /\ calls w' = calls w ++ new
    /\ forall c i, In c new -> call_file_id c = Some i ->
         exists file, In file files /\ id file = i.
Proof.
  revert w. induction files as [|file files IH]; intros w.
  - exists [], w, []. simpl. unfold ret. rewrite app_nil_r.
    repeat split. intros c i [].
  - destruct (process_single_file_ids env file vs w) as (b & new1 & E & H1).
    set (w1 := {| db := if b then commit (db w) file else db w;
                  calls := calls w ++ new1 |}) in E.
    destruct (IH w1) as (results & w' & new & Eg & Hcalls & Hids).
    exists (b :: results), w', (new1 ++ new).
    split; [|split].
    + simpl. unfold bind at 1. rewrite E. unfold bind at 1. rewrite Eg.
      reflexivity.
    + rewrite Hcalls. simpl. rewrite <- app_assoc. reflexivity.
    + intros c i Hc Hi. apply in_app_or in Hc as [Hc | Hc].
      * exists file. split; [left; reflexivity|].
        symmetry. apply (H1 c i Hc Hi).
      * destruct (Hids c i Hc Hi) as (f & Hf & Hid).
        exists f. split; [right; exact Hf | exact Hid].
Qed.

Lemma process_file_batch_ids (env : Collaborators) (files : list DriveFile)
    (vs : str) (w : world) :
  exists (new : list call),
    calls (snd (_process_file_batch env files vs w)) = calls w ++ new
    /\ forall c i, In c new -> call_file_id c = Some i ->
         exists file, In file files /\ id file = i.
Proof.
  destruct (gather_workers_ids env vs files w)
    as (results & w' & new & Eg & Hcalls & Hids).
  exists new. split; [|exact Hids].
  unfold _process_file_batch, bind. rewrite Eg. exact Hcalls.
Qed.

(** When every stage of every worker succeeds, the batch commits every
    entry of the queue. *)
Lemma gather_workers_all_confirmed (env : Collaborators) (vs : str)
    (files : list DriveFile) (w : world) :
  (forall file, In file files -> upload_confirmed env file vs) ->
  (forall t, storage_write env t = Returned tt) ->
  exists (results : list bool) (w' : world),
    gather (map (fun file => _process_single_file env file vs) files) w
    = (Returned results, w')
    /\ db w' = fold_left commit files (db w).
Proof.
  intros Hok Hwrite. revert w.
  induction files as [|file files IH]; intros w.
  - exists [], w. split; reflexivity.
  - destruct (process_single_file_confirmed env file vs w
                (Hok file (or_introl eq_refl)))
      as (path & content & st & _ & E).
    rewrite Hwrite in E.
    match type of E with
    | _ = (_, ?w1) =>
        destruct (IH (fun f Hf => Hok f (or_intror Hf)) w1)
          as (results & w' & Eg & Hdb)
    end.
    exists (true :: results), w'. split.
    + simpl. unfold bind at 1. rewrite E. unfold bind at 1. rewrite Eg.
      reflexivity.
    + rewrite Hdb. reflexivity.
Qed.

Lemma process_file_batch_all_confirmed (env : Collaborators)
    (files : list DriveFile) (vs : str) (w : world) :
  (forall file, In file files -> upload_confirmed env file vs) ->
  (forall t, storage_write env t = Returned tt) ->
  db (snd (_process_file_batch env files vs w))
  = fold_left commit files (db w).
Proof.
  intros Hok Hwrite.
  destruct (gather_workers_all_confirmed env vs files w Hok Hwrite)
    as (results & w' & Eg & Hdb).
  unfold _process_file_batch, bind. rewrite Eg. exact Hdb.
Qed.

Lemma cycle_world_up_to_date (services : Services) (env : Collaborators)
    (w : world) (vs : str) (listing : list DriveFile) :
  ensure_vector_store services = Returned vs ->
  list_pdfs_in_folder services = Returned listing ->
  _get_files_to_process (db w) listing = [] ->
  cycle_world services env w = w.
Proof.
  intros Ev El Eq. unfold cycle_world. rewrite Ev, El, Eq. reflexivity.
Qed.

(** The comparison, read by read: the first read that raises decides, and
    the queue is the one of [_get_files_to_process] when none does. *)
Lemma compare_reading_run (reads : nat -> outcome unit) (t : table)
    (files : list DriveFile) (k : nat) (queue : list DriveFile) :
  compare_reading reads k t files queue
  = match reads_outcome reads k (length files) with
    | Raised e => Raised e
    | Returned _ => Returned (fold_left (compare_step t) files queue)
    end.
Proof.
  revert k queue. induction files as [|file files IH]; intros k queue; simpl.
  - reflexivity.
  - destruct (reads k) as [[]|e]; [apply IH | reflexivity].
Qed.

(** When every read returns, the cycle is the one of [start]. *)
Lemma start_reading_returned (reads : nat -> outcome unit)
    (services : Services) (env : Collaborators) (w : world) :
  (forall k, reads k = Returned tt) ->
  start_reading reads services env w = start services env w.
Proof.
  intros Hreads.
  assert (Hall : forall k n, reads_outcome reads k n = Returned tt).
  { intros k n. revert k. induction n as [|n IH]; intros k; simpl;
      [reflexivity|]. rewrite Hreads. apply IH. }
  unfold start_reading, start, try_finally, try_except, bind, lift,
    db_get_files_to_process.
  destruct (ensure_vector_store services) as [vs|e]; [|reflexivity].
  destruct (list_pdfs_in_folder services) as [listing|e]; [|reflexivity].
  rewrite compare_reading_run, Hall. reflexivity.
Qed.

(** A cycle answers what its own calls answer; it leaves the world as it
    was unless it got as far as the batch. *)
Lemma start_reading_run (reads : nat -> outcome unit) (services : Services)
    (env : Collaborators) (w : world) :
  fst (start_reading reads services env w)
  = cycle_outcome_reading reads services
  /\ (forall vs listing,
        ensure_vector_store services = Returned vs ->
        list_pdfs_in_folder services = Returned listing ->
        is_returned (reads_outcome reads 0 (length listing)) = true ->
        snd (start_reading reads services env w)
        = snd (_process_file_batch env
                 (_get_files_to_process (db w) listing) vs w))
  /\ ((forall vs listing,
         ensure_vector_store services = Returned vs ->
         list_pdfs_in_folder services = Returned listing ->
         is_returned (reads_outcome reads 0 (length listing)) = false) ->
      snd (start_reading reads services env w) = w).
Proof.
  unfold start_reading, try_finally, try_except, bind, lift, raise, ret,
    cycle_outcome_reading.
  destruct (ensure_vector_store services) as [vs|e].
  2:{ destruct (_prepare_temp_dir services) as [[]|e'];
        (split; [reflexivity|]; split; [discriminate | reflexivity]). }
  destruct (list_pdfs_in_folder services) as [listing|e].
  2:{ destruct (_prepare_temp_dir services) as [[]|e'];
        (split; [reflexivity|]; split; [discriminate | reflexivity]). }
  rewrite compare_reading_run.
  destruct (reads_outcome reads 0 (length listing)) as [[]|e] eqn:Er.
  2:{ destruct (_prepare_temp_dir services) as [[]|e'];
        (split; [reflexivity|]; split; [|reflexivity]);
        intros vs' l' [= <-] [= <-]; rewrite Er; discriminate. }
  fold (_get_files_to_process (db w) listing).
  assert (Hno : (forall vs' l',
                   Returned vs = Returned vs' ->
                   Returned listing = Returned l' ->
                   is_returned (reads_outcome reads 0 (length l')) = false)
                -> False).
  { intros H. specialize (H vs listing eq_refl eq_refl).
    rewrite Er in H. discriminate H. }
  destruct (_get_files_to_process (db w) listing) as [|f queue] eqn:Eq.
  - simpl.
    destruct (ensure_assistant services vs) as [a|e];
      destruct (_prepare_temp_dir services) as [[]|e'];
      (split; [reflexivity|]; split;
       [intros vs' l' [= <-] [= <-] _; rewrite Eq; reflexivity
       | intros H; exfalso; exact (Hno H)]).
  - destruct (process_file_batch_run env (f :: queue) vs w)
      as (results & w' & new & E & _).
    rewrite E. simpl.
    destruct (ensure_assistant services vs) as [a|e];
      destruct (_prepare_temp_dir services) as [[]|e'];
      (split; [reflexivity|]; split;
       [intros vs' l' [= <-] [= <-] _; rewrite Eq, E; reflexivity
       | intros H; exfalso; exact (Hno H)]).
Qed.

End CycleFacts.

(** X22.  What a cycle answers depends on the calls it makes itself, never
    on its workers.  With the reads of the store that the comparison makes
    taken as calls that can raise, [start] raises the exception of the
    cleanup if the cleanup raises; otherwise the exception of the first that
    raises of the vector store, the listing, the reads of the store (one for
    each entry of the listing, in order) and the assistant; otherwise it
    returns.  A worker that fails does not make it raise.  When the vector
    store, the listing or a read of the store raises, no worker runs and
    the store is left as it was.  (An exception is one that
    [except Exception] catches.) *)
Theorem X22_cycle_raises_only_for_its_own_calls
    (reads : nat -> outcome unit) (services : SyncEngine.Services)
    (env : SyncEngine.Collaborators) (w : SyncEngine.world) :
  fst (SyncEngine.start_reading reads services env w)
  = cycle_outcome_reading reads services
  /\ (forall e, SyncEngine.ensure_vector_store services = Raised e ->
        snd (SyncEngine.start_reading reads services env w) = w)
  /\ (forall e, SyncEngine.list_pdfs_in_folder services = Raised e ->
        snd (SyncEngine.start_reading reads services env w) = w)
  /\ (forall listing e,
        SyncEngine.list_pdfs_in_folder services = Returned listing ->
        reads_outcome reads 0 (length listing) = Raised e ->
        snd (SyncEngine.start_reading reads services env w) = w).
Proof.
  destruct (start_reading_run reads services env w) as (Hfst & _ & Hsnd).
  split; [exact Hfst|].
  split; [|split].
  - intros e Ev. apply Hsnd. intros vs l Ev'. congruence.
  - intros e El. apply Hsnd. intros vs l _ El'. congruence.
  - intros listing e El Er. apply Hsnd. intros vs l _ El'.
    rewrite El in El'. injection El' as <-. rewrite Er. reflexivity.
Qed.

(** X23.  A cycle in which every stage of every worker succeeds leaves
    nothing to do: on a listing with one checksum per id, the comparison
    after the cycle selects nothing, and a second cycle over the same
    listing makes no call and leaves the store as it is. *)
Theorem X23_cycle_after_a_clean_cycle_does_nothing
    (services : SyncEngine.Services) (env : SyncEngine.Collaborators)
    (w : SyncEngine.world) (vs : str) (listing : list SyncEngine.DriveFile) :
  SyncEngine.ensure_vector_store services = Returned vs ->
  SyncEngine.list_pdfs_in_folder services = Returned listing ->
  one_checksum_per_id listing ->
  (forall file, In file listing -> needs_sync (SyncEngine.db w) file = true ->
     upload_confirmed env file vs) ->
  (forall t, SyncEngine.storage_write env t = Returned tt) ->
  let w1 := snd (SyncEngine.start services env w) in
  SyncEngine._get_files_to_process (SyncEngine.db w1) listing = []
  /\ snd (SyncEngine.start services env w1) = w1.
Proof.
  intros Ev El Hone Hok Hwrite w1.
  assert (Hq : SyncEngine._get_files_to_process (SyncEngine.db w1) listing
               = []).
  { subst w1. rewrite start_run. simpl. unfold cycle_world. rewrite Ev, El.
    rewrite process_file_batch_all_confirmed.
    - apply get_files_to_process_after_commits;
        [exact Hone | apply Permutation_refl].
    - intros file Hf. rewrite get_files_to_process_filter in Hf.
      apply List.filter_In in Hf as [Hin Hsync]. apply Hok; assumption.
    - exact Hwrite. }
  split; [exact Hq|].
  rewrite start_run. simpl.
  apply (cycle_world_up_to_date services env w1 vs listing); assumption.
Qed.

Lemma X23_cycle_after_a_clean_cycle_witness :
  let w := {| SyncEngine.db := []; SyncEngine.calls := [] |} in
  let w1 := snd (SyncEngine.start example_services (example_env false) w) in
  SyncEngine._get_files_to_process (SyncEngine.db w1)
    [example_file "a" "c1"; example_file "b" "c2"] = []
  /\ snd (SyncEngine.start example_services (example_env false) w1) = w1.
Proof.
  intros w.
  apply (X23_cycle_after_a_clean_cycle_does_nothing example_services
           (example_env false) w (lit "vs_1")
           [example_file "a" "c1"; example_file "b" "c2"]).
  - reflexivity.
  - reflexivity.
  - intros f g [<- | [<- | []]] [<- | [<- | []]] H;
      solve [reflexivity | vm_compute in H; discriminate H].
  - intros file Hin _.
    exists (lit "temp_data/2020 - Author - Title.pdf").
    eexists. eexists. exists (lit "upload_success").
    destruct Hin as [<- | [<- | []]];
      (split; [reflexivity|]; split; [reflexivity|];
       split; [reflexivity|]; split; [vm_compute; reflexivity|];
       split; [reflexivity|]; split; reflexivity).
  - reflexivity.
Defined.

(** X24.  A cycle touches only the documents that its comparison selected:
    every download and every write of the store that it makes is for an
    entry of the listing that was new or changed against the store at the
    start of the cycle.  A document that is up to date is neither downloaded
    nor written. *)
Theorem X24_cycle_touches_only_selected_documents
    (services : SyncEngine.Services) (env : SyncEngine.Collaborators)
    (w : SyncEngine.world) (new : list SyncEngine.call)
    (c : SyncEngine.call) (i : str) :
  SyncEngine.calls (snd (SyncEngine.start services env w))
  = SyncEngine.calls w ++ new ->
  In c new ->
  call_file_id c = Some i ->
  exists (listing : list SyncEngine.DriveFile) (file : SyncEngine.DriveFile),
    SyncEngine.list_pdfs_in_folder services = Returned listing
    /\ In file listing
    /\ SyncEngine.id file = i
    /\ needs_sync (SyncEngine.db w) file = true.
Proof.
  rewrite start_run. simpl. unfold cycle_world.
  intros Hcalls Hc Hi.
  assert (Hnone : SyncEngine.calls w = SyncEngine.calls w ++ new -> False).
  { intros E. rewrite <- (app_nil_r (SyncEngine.calls w)) in E at 1.
    apply app_inv_head in E. subst new. destruct Hc. }
  destruct (SyncEngine.ensure_vector_store services) as [vs|e];
    [|exfalso; exact (Hnone Hcalls)].
  destruct (SyncEngine.list_pdfs_in_folder services) as [listing|e];
    [|exfalso; exact (Hnone Hcalls)].
  destruct (process_file_batch_ids env
              (SyncEngine._get_files_to_process (SyncEngine.db w) listing)
              vs w) as (new' & Hcalls' & Hids).
  rewrite Hcalls' in Hcalls. apply app_inv_head in Hcalls. subst new'.
  destruct (Hids c i Hc Hi) as (file & Hf & Hid).
  rewrite get_files_to_process_filter in Hf.
  apply List.filter_In in Hf as [Hin Hsync].
  exists listing, file. repeat split; assumption.
Qed.

Lemma X24_cycle_touches_only_selected_witness :
  let w := {| SyncEngine.db := [example_record "a" "c1"];
              SyncEngine.calls := [] |} in
  exists (listing : list SyncEngine.DriveFile) (file : SyncEngine.DriveFile),
    SyncEngine.list_pdfs_in_folder example_services = Returned listing
    /\ In file listing
    /\ SyncEngine.id file = lit "b"
    /\ needs_sync (SyncEngine.db w) file = true.
Proof.
  intros w.
  apply (X24_cycle_touches_only_selected_documents example_services
           (example_env false) w
           (SyncEngine.calls
              (snd (SyncEngine.start example_services (example_env false) w)))
           (SyncEngine.Download (lit "b") (lit "2020 - Author - Title.pdf"))
           (lit "b")).
  - reflexivity.
  - vm_compute. left. reflexivity.
  - reflexivity.
Defined.

(** ** File names of the expected formats *)
Section MatcherExact.
Context {R : Type}.
Implicit Types (p : ascii -> bool) (seen s : str) (v : R).

(** The greedy star takes the whole run when the rest then matches. *)
Lemma star_greedy_exact p seen (a b : str) (k : str -> str -> option R) v :
  Forall (fun c => p c = true) a -> stops p b ->
  k (seen ++ a) b = Some v ->
  star_greedy p seen (a ++ b) k = Some v.
Proof.
  intros Ha Hb. revert seen.
  induction Ha as [|c a Hc Ha IH]; intros seen Hk.
  - rewrite app_nil_r in Hk. simpl.
    destruct b as [|c b]; simpl; [exact Hk|].
    simpl in Hb. rewrite Hb. exact Hk.
  - simpl. rewrite Hc. rewrite IH; [reflexivity|].
    rewrite <- app_assoc. exact Hk.
Qed.

(** The lazy star takes the shortest run after which the rest matches. *)
Lemma star_lazy_exact p seen (a b : str) (k : str -> str -> option R) v :
  Forall (fun c => p c = true) a ->
  (forall a1 a2, a = a1 ++ a2 -> a2 <> [] ->
     k (seen ++ a1) (a2 ++ b) = None) ->
  k (seen ++ a) b = Some v ->
  star_lazy p seen (a ++ b) k = Some v.
Proof.
  intros Ha. revert seen.
  induction Ha as [|c a Hc Ha IH]; intros seen Hmin Hk.
  - rewrite app_nil_r in Hk. simpl.
    destruct b as [|c b]; simpl; rewrite Hk; reflexivity.
  - simpl.
    pose proof (Hmin [] (c :: a) eq_refl ltac:(discriminate)) as H0.
    rewrite app_nil_r in H0. simpl in H0. rewrite H0, Hc.
    apply IH.
    + intros a1 a2 E Hne. rewrite <- app_assoc. simpl.
      apply (Hmin (c :: a1) a2); [rewrite E; reflexivity | exact Hne].
    + rewrite <- app_assoc. exact Hk.
Qed.

Lemma star_lazy_none p seen s (k : str -> str -> option R) :
  (forall a b, s = a ++ b -> k (seen ++ a) b = None) ->
  star_lazy p seen s k = None.
Proof.
  intros H. destruct (star_lazy p seen s k) as [v|] eqn:E; [|reflexivity].
  apply star_lazy_sound in E as (a & b & Hs & _ & Hk & _).
  rewrite (H a b Hs) in Hk. discriminate Hk.
Qed.

Lemma hyphen_separator_exact (w1 w2 x : str) (k : str -> option R) v :
  blank w1 -> blank w2 -> stops isspace x -> k x = Some v ->
  hyphen_separator (w1 ++ hyphen :: w2 ++ x) k = Some v.
Proof.
  intros Hw1 Hw2 Hx Hk. unfold hyphen_separator.
  apply star_greedy_exact; [exact Hw1 | reflexivity |].
  simpl. apply star_greedy_exact; [exact Hw2 | exact Hx | exact Hk].
Qed.

Lemma title_group_exact (t : str) (k : str -> option R) v :
  ~ In LF t -> k t = Some v -> SyncEngine.title_group t k = Some v.
Proof.
  intros Hno Hk. unfold SyncEngine.title_group.
  rewrite <- (app_nil_r t) at 1.
  apply star_greedy_exact; [apply isdot_all, Hno | exact I |].
  simpl. exact Hk.
Qed.

End MatcherExact.

Section FormatFacts.
Import SyncEngine.
Local Arguments lit : simpl never.

Lemma blank_no_hyphen (w : str) : blank w -> ~ In hyphen w.
Proof.
  intros Hw Hin. unfold blank in Hw.
  rewrite List.Forall_forall in Hw. specialize (Hw hyphen Hin).
  discriminate Hw.
Qed.

Lemma digits_no_hyphen (d : str) :
  Forall (fun c => isdigit c = true) d -> ~ In hyphen d.
Proof.
  intros Hd Hin. rewrite List.Forall_forall in Hd.
  specialize (Hd hyphen Hin). discriminate Hd.
Qed.

(** The text before the first occurrence of a character is determined. *)
Lemma first_occurrence (h : ascii) (u u' r r' : str) :
  ~ In h u -> ~ In h u' -> u ++ h :: r = u' ++ h :: r' -> u = u' /\ r = r'.
Proof.
  revert u'. induction u as [|c u IH]; intros [|c' u'] Hu Hu' E; simpl in E.
  - injection E as ->. split; reflexivity.
  - injection E as <- _. exfalso. apply Hu'. left. reflexivity.
  - injection E as -> _. exfalso. apply Hu. left. reflexivity.
  - injection E as <- E.
    destruct (IH u') as [-> ->]; try assumption.
    + intros H. apply Hu. right. exact H.
    + intros H. apply Hu'. right. exact H.
    + split; reflexivity.
Qed.

Lemma name_part_stops (s : str) : name_part s -> stops isspace s.
Proof.
  intros [Ht Hne]. destruct (strip_cases s) as [E | (c & r & E & Hc)];
    rewrite Ht in E; [congruence|].
  subst s. exact Hc.
Qed.

(** No suffix of a name part is blank. *)
Lemma name_part_suffix (a a1 a2 : str) :
  name_part a -> a = a1 ++ a2 -> a2 <> [] -> ~ blank a2.
Proof.
  intros [Ht Hne] E Hne2 Hb.
  destruct (trimmed_ends a Ht Hne) as (d & r & Hrev & Hd).
  rewrite E, rev_app_distr in Hrev.
  destruct (rev a2) as [|x ra2] eqn:E2.
  - apply Hne2. rewrite <- (rev_involutive a2), E2. reflexivity.
  - simpl in Hrev. injection Hrev as -> _.
    assert (Hin : In d a2).
    { apply in_rev. rewrite E2. left. reflexivity. }
    unfold blank in Hb. rewrite List.Forall_forall in Hb.
    rewrite (Hb d Hin) in Hd. discriminate Hd.
Qed.

Lemma not_in_app (c : ascii) (u v : str) :
  ~ In c (u ++ v) -> ~ In c u /\ ~ In c v.
Proof.
  intros H. split; intros Hin; apply H, in_or_app; [left | right]; exact Hin.
Qed.

(** The author and the title of [author ++ w3 ++ "-" ++ w4 ++ title]. *)
Lemma author_and_title_exact (g1 : option str) (a w3 w4 t : str) :
  name_part a -> ~ In hyphen a -> ~ In LF a ->
  blank w3 -> blank w4 ->
  name_part t -> ~ In LF t ->
  author_and_title g1 (a ++ w3 ++ hyphen :: w4 ++ t)
  = Some (g1, Some a, t).
Proof.
  intros Ha Hah Hal Hw3 Hw4 Ht Htl. unfold author_and_title.
  rewrite (star_lazy_exact isdot [] a (w3 ++ hyphen :: w4 ++ t) _
             (g1, Some a, t)).
  - reflexivity.
  - apply isdot_all, Hal.
  - intros a1 a2 E Hne. simpl.
    destruct (hyphen_separator _ _) as [v|] eqn:Hsep; [|reflexivity].
    exfalso.
    apply hyphen_separator_sound in Hsep as (w1 & w2 & r & Hs & Hw1 & _).
    rewrite app_assoc in Hs.
    apply first_occurrence in Hs as [Hs _].
    + apply (name_part_suffix a a1 a2 Ha E Hne).
      rewrite <- Hs in Hw1. apply blank_app_inv in Hw1 as [Hw1 _]. exact Hw1.
    + intros Hin. apply in_app_or in Hin as [Hin | Hin].
      * apply Hah. rewrite E. apply in_or_app. right. exact Hin.
      * exact (blank_no_hyphen w3 Hw3 Hin).
    + apply blank_no_hyphen, Hw1.
  - simpl.
    apply hyphen_separator_exact;
      [exact Hw3 | exact Hw4 | apply name_part_stops, Ht |].
    apply title_group_exact; [exact Htl | reflexivity].
Qed.

(** A title without hyphen leaves no author. *)
Lemma author_and_title_plain (g1 : option str) (t : str) :
  ~ In hyphen t -> ~ In LF t ->
  author_and_title g1 t = Some (g1, None, t).
Proof.
  intros Hth Htl. unfold author_and_title.
  rewrite star_lazy_none.
  - apply title_group_exact; [exact Htl | reflexivity].
  - intros a b E. simpl.
    destruct (hyphen_separator _ _) as [v|] eqn:Hsep; [|reflexivity].
    exfalso.
    apply hyphen_separator_sound in Hsep as (w1 & w2 & r & -> & _).
    apply Hth. rewrite E. apply in_or_app. right.
    apply in_or_app. right. left. reflexivity.
Qed.

Lemma filename_pattern_match_dated (d w1 w2 x : str) (v : groups) :
  four_digit_year d -> blank w1 -> blank w2 -> stops isspace x ->
  author_and_title (Some d) x = Some v ->
  filename_pattern_match (d ++ w1 ++ hyphen :: w2 ++ x) = Some v.
Proof.
  intros [Hlen Hd] Hw1 Hw2 Hx Hv. unfold filename_pattern_match.
  rewrite four_digits_complete by assumption.
  rewrite (hyphen_separator_exact w1 w2 x _ v); try assumption.
  reflexivity.
Qed.

(** A name that starts with an author has no year part. *)
Lemma filename_pattern_match_undated (a w3 r : str) :
  name_part a -> ~ In hyphen a -> ~ four_digit_year a -> blank w3 ->
  filename_pattern_match (a ++ w3 ++ hyphen :: r)
  = author_and_title None (a ++ w3 ++ hyphen :: r).
Proof.
  intros Ha Hah Hnot Hw3. unfold filename_pattern_match.
  destruct (four_digits _ _) as [v|] eqn:E; [|reflexivity].
  exfalso.
  apply four_digits_sound in E as (d & rest & Hs & Hlen & Hd & E).
  apply hyphen_separator_sound in E as (w1 & w2 & r' & -> & Hw1 & _).
  rewrite !app_assoc in Hs.
  apply first_occurrence in Hs as [Hs _].
  - apply Hnot.
    assert (Had : a = d).
    { rewrite <- (strip_trimmed_app a w3 (proj1 Ha) Hw3), Hs.
      apply strip_trimmed_app; [apply strip_digits, Hd | exact Hw1]. }
    subst a. split; assumption.
  - intros Hin. apply in_app_or in Hin as [Hin | Hin];
      [exact (Hah Hin) | exact (blank_no_hyphen w3 Hw3 Hin)].
  - intros Hin. apply in_app_or in Hin as [Hin | Hin];
      [exact (digits_no_hyphen d Hd Hin) | exact (blank_no_hyphen w1 Hw1 Hin)].
Qed.

Lemma truthy_name_part (s : str) : name_part s -> truthy s = true.
Proof. intros [_ Hne]. apply truthy_true, Hne. Qed.

Lemma truthy_year (d : str) : four_digit_year d -> truthy d = true.
Proof. intros [Hlen _]. destruct d; [discriminate Hlen | reflexivity]. Qed.

End FormatFacts.

(** X25.  A file name of the expected format is taken apart as meant: when
    the cleaned name is four digits, a hyphen, an author and a hyphen and a
    title, with any whitespace but no line feed around the hyphens,
    [_parse_filename_metadata] answers those digits, that author and that
    title.  The author is the text up to the first hyphen: the title may
    hold hyphens, the author may not. *)
Theorem X25_year_author_title_names
    (filename d w1 w2 a w3 w4 t : str) :
  SyncEngine.clean_name filename
  = d ++ w1 ++ hyphen :: w2 ++ a ++ w3 ++ hyphen :: w4 ++ t ->
  four_digit_year d ->
  blank w1 -> blank w2 -> blank w3 -> blank w4 ->
  name_part a -> ~ In hyphen a -> name_part t ->
  ~ In LF (SyncEngine.clean_name filename) ->
  SyncEngine._parse_filename_metadata filename = (d, a, t).
Proof.
  intros E Hd Hw1 Hw2 Hw3 Hw4 Ha Hah Ht Hno.
  rewrite E in Hno.
  apply not_in_app in Hno as [_ Hno]. apply not_in_app in Hno as [_ Hno].
  assert (Hno' : ~ In LF (w2 ++ a ++ w3 ++ hyphen :: w4 ++ t)).
  { intros H. apply Hno. right. exact H. }
  apply not_in_app in Hno' as [_ Hno']. apply not_in_app in Hno' as [Hal Hno'].
  apply not_in_app in Hno' as [_ Hno'].
  assert (Htl : ~ In LF t).
  { intros H. apply Hno'. right. apply in_or_app. right. exact H. }
  unfold SyncEngine._parse_filename_metadata. rewrite E.
  rewrite (filename_pattern_match_dated d w1 w2 _ (Some d, Some a, t));
    try assumption.
  - simpl. rewrite (truthy_year d Hd), (truthy_name_part a Ha),
      (truthy_name_part t Ht).
    rewrite (strip_digits d (proj2 Hd)), (proj1 Ha), (proj1 Ht). reflexivity.
  - destruct a as [|c a']; [destruct Ha as [_ Ha]; congruence|].
    exact (name_part_stops _ Ha).
  - apply author_and_title_exact; assumption.
Qed.

Lemma X25_year_author_title_witness :
  SyncEngine._parse_filename_metadata
    (lit "2019 - Tetley - Marine Cargo Claims - 4th ed.pdf")
  = (lit "2019", lit "Tetley", lit "Marine Cargo Claims - 4th ed").
Proof.
  apply (X25_year_author_title_names _ (lit "2019") (lit " ") (lit " ")
           (lit "Tetley") (lit " ") (lit " ")
           (lit "Marine Cargo Claims - 4th ed")).
  - reflexivity.
  - split; [reflexivity | repeat constructor].
  - repeat constructor.
  - repeat constructor.
  - repeat constructor.
  - repeat constructor.
  - split; [reflexivity | discriminate].
  - intros H. simpl in H.
    repeat (destruct H as [H | H]; [discriminate H|]). exact H.
  - split; [reflexivity | discriminate].
  - intros H. vm_compute in H.
    repeat (destruct H as [H | H]; [discriminate H|]). exact H.
Defined.

(** X26.  A file name of a year and a title only: when the cleaned name is
    four digits, a hyphen and a title without hyphen and without line feed,
    [_parse_filename_metadata] answers those digits, the author ["Unknown"]
    and that title. *)
Theorem X26_year_title_names (filename d w1 w2 t : str) :
  SyncEngine.clean_name filename = d ++ w1 ++ hyphen :: w2 ++ t ->
  four_digit_year d ->
  blank w1 -> blank w2 ->
  name_part t -> ~ In hyphen t -> ~ In LF t ->
  SyncEngine._parse_filename_metadata filename = (d, lit "Unknown", t).
Proof.
  intros E Hd Hw1 Hw2 Ht Hth Htl.
  unfold SyncEngine._parse_filename_metadata. rewrite E.
  rewrite (filename_pattern_match_dated d w1 w2 t (Some d, None, t));
    try assumption.
  - simpl. rewrite (truthy_year d Hd), (truthy_name_part t Ht).
    rewrite (strip_digits d (proj2 Hd)), (proj1 Ht). reflexivity.
  - apply name_part_stops, Ht.
  - apply author_and_title_plain; assumption.
Qed.

Lemma X26_year_title_witness :
  SyncEngine._parse_filename_metadata (lit "1994-Hague Visby Rules.pdf")
  = (lit "1994", lit "Unknown", lit "Hague Visby Rules").
Proof.
  apply (X26_year_title_names _ (lit "1994") [] [] (lit "Hague Visby Rules")).
  - reflexivity.
  - split; [reflexivity | repeat constructor].
  - constructor.
  - constructor.
  - split; [reflexivity | discriminate].
  - intros H. simpl in H.
    repeat (destruct H as [H | H]; [discriminate H|]). exact H.
  - intros H. simpl in H.
    repeat (destruct H as [H | H]; [discriminate H|]). exact H.
Defined.

(** X27.  A file name of an author and a title only: when the cleaned name
    is an author without hyphen that is not four digits, a hyphen and a
    title, without line feed, [_parse_filename_metadata] answers the year
    ["Unknown"], that author and that title. *)
Theorem X27_author_title_names (filename a w3 w4 t : str) :
  SyncEngine.clean_name filename = a ++ w3 ++ hyphen :: w4 ++ t ->
  name_part a -> ~ In hyphen a -> ~ four_digit_year a ->
  blank w3 -> blank w4 ->
  name_part t ->
  ~ In LF (SyncEngine.clean_name filename) ->
  SyncEngine._parse_filename_metadata filename = (lit "Unknown", a, t).
Proof.
  intros E Ha Hah Hnot Hw3 Hw4 Ht Hno.
  rewrite E in Hno.
  apply not_in_app in Hno as [Hal Hno]. apply not_in_app in Hno as [_ Hno].
  assert (Hno' : ~ In LF (w4 ++ t)).
  { intros H. apply Hno. right. exact H. }
  apply not_in_app in Hno' as [_ Htl].
  unfold SyncEngine._parse_filename_metadata. rewrite E.
  rewrite filename_pattern_match_undated by assumption.
  rewrite author_and_title_exact by assumption.
  simpl. rewrite (truthy_name_part a Ha), (truthy_name_part t Ht).
  rewrite (proj1 Ha), (proj1 Ht). reflexivity.
Qed.

Lemma X27_author_title_witness :
  SyncEngine._parse_filename_metadata (lit "Scrutton - Charterparties.pdf")
  = (lit "Unknown", lit "Scrutton", lit "Charterparties").
Proof.
  apply (X27_author_title_names _ (lit "Scrutton") (lit " ") (lit " ")
           (lit "Charterparties")).
  - reflexivity.
  - split; [reflexivity | discriminate].
  - intros H. simpl in H.
    repeat (destruct H as [H | H]; [discriminate H|]). exact H.
  - intros [H _]. discriminate H.
  - repeat constructor.
  - repeat constructor.
  - split; [reflexivity | discriminate].
  - intros H. vm_compute in H.
    repeat (destruct H as [H | H]; [discriminate H|]). exact H.
Defined.
